(** * Replay memories of mushroom_rl: a shallow embedding and its properties

    Source: [mushroom_rl/utils/replay_memory.py], classes [ReplayMemory],
    [SumTree], [PrioritizedReplayMemory] and [SequentialReplayMemory].

    Conventions of the embedding.
    - Python exceptions and unbounded recursion are explicit: every method
      that can raise returns a [result]; recursive methods take a recursion
      budget and answer [OutOfFuel] when it is exhausted.
    - The priority array of [SumTree] is [np.zeros], a float64 array.  The
      tree is written once over an interface [Num] of the arithmetic it uses;
      [Num_float] is binary64 (what the code runs on) and [Num_Qc] is the
      exact arithmetic of the rationals.
    - [np.random] is an oracle handed to the methods that draw from it. *)

From Stdlib Require Import ZArith List Lia Bool QArith Qcanon Floats Uint63.
From stdpp Require Import base list.


(** ** Python values: exceptions, indexing, slicing *)

Module Py.

Inductive exn : Set := IndexError | ValueError | TypeError | OverflowError.

Inductive result (A : Type) : Type :=
| Ok (a : A)
| Raise (e : exn)
| OutOfFuel.
Arguments Ok {A} a.
Arguments Raise {A} e.
Arguments OutOfFuel {A}.

Definition bind {A B : Type} (m : result A) (k : A -> result B) : result B :=
  match m with
  | Ok a => k a
  | Raise e => Raise e
  | OutOfFuel => OutOfFuel
  end.

(** [l[i]] resolves a negative index from the end and raises out of range. *)
Definition index (len i : Z) : option nat :=
  let j := if (i <? 0)%Z then (i + len)%Z else i in
  if ((0 <=? j) && (j <? len))%Z then Some (Z.to_nat j) else None.

Definition getitem {A : Type} (l : list A) (i : Z) : result A :=
  match index (Z.of_nat (length l)) i with
  | Some j => match l !! j with Some x => Ok x | None => Raise IndexError end
  | None => Raise IndexError
  end.

Definition setitem {A : Type} (l : list A) (i : Z) (x : A) : result (list A) :=
  match index (Z.of_nat (length l)) i with
  | Some j => Ok (<[j:=x]> l)
  | None => Raise IndexError
  end.

(** [l[start:]]: a negative start counts from the end, both are clipped. *)
Definition slice_from {A : Type} (l : list A) (start : Z) : list A :=
  let len := Z.of_nat (length l) in
  let s := if (start <? 0)%Z then Z.max (start + len) 0 else Z.min start len in
  drop (Z.to_nat s) l.

(** [l[start:stop]] for non-negative bounds. *)
Definition slice {A : Type} (l : list A) (start stop : nat) : list A :=
  take (stop - start) (drop start l).

End Py.

Import Py.

Notation "x <- m ;; k" := (Py.bind m (fun x => k))
  (at level 100, m at next level, right associativity).

(** ** The arithmetic of priorities *)

Class Num (V : Type) : Type := {
  nzero : V;
  n_one : V;
  nadd : V -> V -> V;
  nsub : V -> V -> V;
  nmul : V -> V -> V;
  ndiv : V -> V -> V;
  nopp : V -> V;
  nabs : V -> V;
  nof_Z : Z -> V;
  neqb : V -> V -> bool;
  nleb : V -> V -> bool;
  nmax : V -> V -> V;
  nfinite : V -> bool
}.

(** binary64, the element type of [np.zeros]; [np.max] propagates NaN, the
    integers converted (sizes and sample counts) are small and non-negative,
    and [np.isfinite] excludes NaN and the two infinities. *)
#[export] Instance Num_float : Num float := {
  nzero := 0%float;
  n_one := 1%float;
  nadd := PrimFloat.add;
  nsub := PrimFloat.sub;
  nmul := PrimFloat.mul;
  ndiv := PrimFloat.div;
  nopp := PrimFloat.opp;
  nabs := PrimFloat.abs;
  nof_Z := fun z => PrimFloat.of_uint63 (Uint63.of_Z z);
  neqb := PrimFloat.eqb;
  nleb := PrimFloat.leb;
  nmax := fun a b =>
    if PrimFloat.is_nan a then a
    else if PrimFloat.is_nan b then b
    else if PrimFloat.leb a b then b else a;
  nfinite := PrimFloat.is_finite
}.

Definition Qc_of_Z (z : Z) : Qc := Q2Qc (inject_Z z).

Definition Qc_leb (a b : Qc) : bool := Qle_bool (this a) (this b).

#[export] Instance Num_Qc : Num Qc := {
  nzero := Qc_of_Z 0;
  n_one := Qc_of_Z 1;
  nadd := Qcplus;
  nsub := Qcminus;
  nmul := Qcmult;
  ndiv := Qcdiv;
  nopp := Qcopp;
  nabs := fun a => if Qc_leb (Qc_of_Z 0) a then a else Qcopp a;
  nof_Z := Qc_of_Z;
  neqb := Qc_eq_bool;
  nleb := Qc_leb;
  nmax := fun a b => if Qc_leb a b then b else a;
  nfinite := fun _ => true
}.

(** Arithmetic without rounding: the laws the delta propagation relies on. *)
Class ExactNum (V : Type) `{Num V} : Prop := {
  nadd_comm : forall a b : V, nadd a b = nadd b a;
  nadd_assoc : forall a b c : V, nadd a (nadd b c) = nadd (nadd a b) c;
  nadd_zero_l : forall a : V, nadd nzero a = a;
  nsub_add : forall a b : V, nadd (nsub a b) b = a;
  neqb_eq : forall a b : V, neqb a b = true <-> a = b
}.

(** [a.max()] of a numpy array; empty arrays are refused. *)
Definition array_max {V : Type} `{Num V} (l : list V) : result V :=
  match l with
  | [] => Raise ValueError
  | x :: l' => Ok (fold_left nmax l' x)
  end.

Definition array_sum {V : Type} `{Num V} (l : list V) : V :=
  fold_right nadd nzero l.

(** ** binary64 values *)

Module Binary64.

(** Finite and positive. *)
Definition regular (x : float) : bool :=
  PrimFloat.ltb 0 x && PrimFloat.ltb x infinity.

(** Between zero and one; NaN is not. *)
Definition unit_weight (w : float) : bool :=
  PrimFloat.leb 0 w && PrimFloat.leb w 1.

(** The number one, as the specification of binary64 writes it. *)
Definition SFone : spec_float := S754_finite false 4503599627370496 (-52).

End Binary64.

(** ** class SumTree *)

Module SumTree.

Section Defs.
Context {V D : Type} `{Num V}.

Record t : Type := Build {
  _max_size : Z;
  _tree : list V;
  _data : list (option D);
  _idx : Z;
  _full : bool
}.

(** [__init__]: [np.zeros] refuses a negative length. *)
Definition init (max_size : Z) : result t :=
  if (2 * max_size - 1 <? 0)%Z then Raise ValueError
  else Ok {| _max_size := max_size;
             _tree := replicate (Z.to_nat (2 * max_size - 1)) nzero;
             _data := replicate (Z.to_nat max_size) None;
             _idx := 0;
             _full := false |}.

Fixpoint _propagate (fuel : nat) (tree : list V) (delta : V) (idx : Z)
  : result (list V) :=
  match fuel with
  | O => OutOfFuel
  | S fuel' =>
      let parent_idx := ((idx - 1) / 2)%Z in
      old <- getitem tree parent_idx ;;
      tree' <- setitem tree parent_idx (nadd old delta) ;;
      if negb (parent_idx =? 0)%Z
      then _propagate fuel' tree' delta parent_idx
      else Ok tree'
  end.

(** The loop body of [update]. *)
Definition update1 (fuel : nat) (tree : list V) (i : Z) (p : V)
  : result (list V) :=
  old <- getitem tree i ;;
  let delta := nsub p old in
  tree' <- setitem tree i p ;;
  _propagate fuel tree' delta i.

Fixpoint update_loop (fuel : nat) (tree : list V) (ips : list (Z * V))
  : result (list V) :=
  match ips with
  | [] => Ok tree
  | (i, p) :: ips' =>
      tree' <- update1 fuel tree i p ;;
      update_loop fuel tree' ips'
  end.

Definition with_tree (s : t) (tree : list V) : t :=
  {| _max_size := _max_size s; _tree := tree; _data := _data s;
     _idx := _idx s; _full := _full s |}.

Definition update (fuel : nat) (s : t) (idx : list Z) (priorities : list V)
  : result t :=
  tree' <- update_loop fuel (_tree s) (combine idx priorities) ;;
  Ok (with_tree s tree').

(** The loop body of [add]. *)
Definition add1 (fuel : nat) (s : t) (d : D) (p : V) : result t :=
  let idx := (_idx s + _max_size s - 1)%Z in
  data' <- setitem (_data s) (_idx s) (Some d) ;;
  s1 <- update fuel
          {| _max_size := _max_size s; _tree := _tree s; _data := data';
             _idx := _idx s; _full := _full s |} [idx] [p] ;;
  let idx' := (_idx s1 + 1)%Z in
  if (idx' =? _max_size s1)%Z
  then Ok {| _max_size := _max_size s1; _tree := _tree s1; _data := _data s1;
             _idx := 0; _full := true |}
  else Ok {| _max_size := _max_size s1; _tree := _tree s1; _data := _data s1;
             _idx := idx'; _full := _full s1 |}.

Fixpoint add_loop (fuel : nat) (s : t) (dps : list (D * V)) : result t :=
  match dps with
  | [] => Ok s
  | (d, p) :: dps' =>
      s' <- add1 fuel s d p ;;
      add_loop fuel s' dps'
  end.

Definition add (fuel : nat) (s : t) (dataset : list D) (priority : list V)
  : result t :=
  add_loop fuel s (combine dataset priority).

(** [np.random.choice([left, right])]: the oracle's next bit selects the
    position drawn, [false] the first and [true] the second. *)
Fixpoint _retrieve (fuel : nat) (rng : nat -> bool) (tree : list V)
  (s : V) (idx : Z) : result Z :=
  match fuel with
  | O => OutOfFuel
  | S fuel' =>
      let left := (2 * idx + 1)%Z in
      let right := (left + 1)%Z in
      if (Z.of_nat (length tree) <=? left)%Z then Ok idx
      else
        l <- getitem tree left ;;
        r <- getitem tree right ;;
        if neqb l r
        then _retrieve fuel' (fun n => rng (S n)) tree s
               (if rng 0%nat then right else left)
        else if nleb s l
        then _retrieve fuel' rng tree s left
        else _retrieve fuel' rng tree (nsub s l) right
  end.

Definition get (fuel : nat) (rng : nat -> bool) (st : t) (s : V)
  : result (Z * V * option D) :=
  idx <- _retrieve fuel rng (_tree st) s 0 ;;
  let data_idx := (idx - _max_size st + 1)%Z in
  v <- getitem (_tree st) idx ;;
  d <- getitem (_data st) data_idx ;;
  Ok (idx, v, d).

Definition size (s : t) : Z :=
  if negb (_full s) then _idx s else _max_size s.

(** The leaf array [self._tree[-self._max_size:]]. *)
Definition leaves (s : t) : list V :=
  slice_from (_tree s) (- _max_size s).

Definition max_p (s : t) : result V := array_max (leaves s).

Definition total_p (s : t) : result V := getitem (_tree s) 0.

(** A sequence of calls on one tree. *)
Inductive call : Type :=
| Add (dataset : list D) (priority : list V)
| Update (idx : list Z) (priorities : list V).

Fixpoint run (fuel : nat) (s : t) (calls : list call) : result t :=
  match calls with
  | [] => Ok s
  | Add dataset priority :: calls' =>
      s' <- add fuel s dataset priority ;;
      run fuel s' calls'
  | Update idx priorities :: calls' =>
      s' <- update fuel s idx priorities ;;
      run fuel s' calls'
  end.

(** Number of elements the [Add] calls of a sequence insert. *)
Fixpoint added (calls : list call) : Z :=
  match calls with
  | [] => 0
  | Add dataset priority :: calls' =>
      Z.of_nat (length (combine dataset priority)) + added calls'
  | Update _ _ :: calls' => added calls'
  end.

(** The updates of a sequence only touch leaves written before them, of
    which there are [k] when the sequence starts. *)
Fixpoint updates_written (n k : Z) (calls : list call) : Prop :=
  match calls with
  | [] => True
  | Add dataset priority :: calls' =>
      updates_written n (k + Z.of_nat (length (combine dataset priority))) calls'
  | Update idx _ :: calls' =>
      Forall (fun i => n - 1 <= i < n - 1 + k)%Z idx /\
      updates_written n k calls'
  end.

(** Indices of the leaves in the flat array. *)
Definition leaf_index (max_size i : Z) : Prop :=
  (max_size - 1 <= i <= 2 * max_size - 2)%Z.

Definition valid_call (max_size : Z) (c : call) : Prop :=
  match c with
  | Add _ _ => True
  | Update idx _ => Forall (leaf_index max_size) idx
  end.

(** Node [i] holds the sum of its two children. *)
Definition node_sum (tree : list V) (i : Z) : Prop :=
  exists v l r,
    tree !! Z.to_nat i = Some v /\
    tree !! Z.to_nat (2 * i + 1) = Some l /\
    tree !! Z.to_nat (2 * i + 2) = Some r /\
    v = nadd l r.

Definition sum_invariant (s : t) : Prop :=
  forall i, (0 <= i < _max_size s - 1)%Z -> node_sum (_tree s) i.

Definition root_is_total (s : t) : Prop :=
  total_p s = Ok (array_sum (leaves s)).

(** The same two properties on the flat array of a tree of size [n]. *)
Definition nodes_ok (n : Z) (tree : list V) : Prop :=
  forall i, (0 <= i < n - 1)%Z -> node_sum tree i.

Definition root_total (n : Z) (tree : list V) : Prop :=
  tree !! 0%nat = Some (array_sum (drop (Z.to_nat (n - 1)) tree)).

(** The state of the array while [_propagate delta j] is still to run:
    only the parent of [j] is off, and by [delta]. *)
Definition pending (n : Z) (tree : list V) (j : Z) (delta : V) : Prop :=
  (forall k, (0 <= k < n - 1)%Z -> k <> ((j - 1) / 2)%Z -> node_sum tree k) /\
  exists v l r,
    tree !! Z.to_nat ((j - 1) / 2) = Some v /\
    tree !! Z.to_nat (2 * ((j - 1) / 2) + 1) = Some l /\
    tree !! Z.to_nat (2 * ((j - 1) / 2) + 2) = Some r /\
    nadd v delta = nadd l r.

(** The shape [__init__] sets up and every method keeps. *)
Definition wf (n : Z) (s : t) : Prop :=
  _max_size s = n /\
  length (_tree s) = Z.to_nat (2 * n - 1) /\
  length (_data s) = Z.to_nat n /\
  (0 <= _idx s < n)%Z.

(** [k] leaves have been written and the tree is not full; the other leaf
    slots still hold the zero of [np.zeros]. *)
Definition fresh_from (n k : Z) (s : t) : Prop :=
  wf n s /\ _full s = false /\ _idx s = k /\
  forall i, (k <= i < n)%Z -> _tree s !! Z.to_nat (n - 1 + i) = Some nzero.

(** The payloads the [Add] calls of a sequence insert, in order. *)
Fixpoint payloads (calls : list call) : list D :=
  match calls with
  | [] => []
  | Add dataset priority :: calls' =>
      (combine dataset priority).*1 ++ payloads calls'
  | Update _ _ :: calls' => payloads calls'
  end.

(** After [q] full rounds and [_idx s] more payloads of [stream]: slots
    below the cursor hold the current round, the others the round before,
    or the [None] of [__init__] in the first round. *)
Definition stores (n : Z) (stream : list D) (q : nat) (s : t) : Prop :=
  wf n s /\
  length stream = (q * Z.to_nat n + Z.to_nat (_idx s))%nat /\
  _full s = (0 <? q)%nat /\
  (forall j p d,
     (j < Z.to_nat n)%nat -> stream !! p = Some d ->
     (p = q * Z.to_nat n + j /\ j < Z.to_nat (_idx s)
      \/ p + Z.to_nat n = q * Z.to_nat n + j /\ Z.to_nat (_idx s) <= j)%nat ->
     _data s !! j = Some (Some d)) /\
  (q = 0%nat ->
   forall j, (Z.to_nat (_idx s) <= j < Z.to_nat n)%nat ->
     _data s !! j = Some None).

End Defs.

Arguments t : clear implicits.

(** [on_path m k]: node [k] lies on the way from node [m] up to the root. *)
Inductive on_path (m : Z) : Z -> Prop :=
| on_path_self : on_path m m
| on_path_parent (k : Z) :
    (1 <= k)%Z -> on_path m k -> on_path m ((k - 1) / 2).

End SumTree.

(** ** class PrioritizedReplayMemory

    [x ** y] is numpy's and not part of the repository: the methods that
    use it take it as the argument [power]. *)

Module PrioritizedReplayMemory.

Section Defs.
Context {V D : Type} `{Num V}.

(** [_beta] is the value the call [self._beta()] returns. *)
Record t : Type := Build {
  _initial_size : Z;
  _max_size : Z;
  _alpha : V;
  _beta : V;
  _epsilon : V;
  _tree : SumTree.t V D
}.

Definition with_tree (s : t) (tree : SumTree.t V D) : t :=
  {| _initial_size := _initial_size s; _max_size := _max_size s;
     _alpha := _alpha s; _beta := _beta s; _epsilon := _epsilon s;
     _tree := tree |}.

Definition init (initial_size max_size : Z) (alpha beta epsilon : V)
  : result t :=
  tree <- SumTree.init max_size ;;
  Ok {| _initial_size := initial_size; _max_size := max_size;
        _alpha := alpha; _beta := beta; _epsilon := epsilon;
        _tree := tree |}.

Definition add (fuel : nat) (s : t) (dataset : list D) (p : list V)
  : result t :=
  tree <- SumTree.add fuel (_tree s) dataset p ;;
  Ok (with_tree s tree).

Definition _get_priority (power : V -> V -> V) (s : t) (error : V) : V :=
  power (nadd (nabs error) (_epsilon s)) (_alpha s).

Definition update (fuel : nat) (power : V -> V -> V) (s : t)
  (error : list V) (idx : list Z) : result t :=
  tree <- SumTree.update fuel (_tree s) idx (map (_get_priority power s) error) ;;
  Ok (with_tree s tree).

(** The loop of [get]: one [self._tree.get(s)] per sample; a slot that
    holds no data cannot be unpacked.  The [i]-th lookup breaks its ties
    with the oracle [rng i]. *)
Fixpoint get_loop (fuel : nat) (rng : nat -> nat -> bool) (tree : SumTree.t V D)
  (i : nat) (samples : list V) : result (list D * list Z * list V) :=
  match samples with
  | [] => Ok ([], [], [])
  | x :: samples' =>
      r <- SumTree.get fuel (rng i) tree x ;;
      match r.2 with
      | None => Raise TypeError
      | Some d =>
          rest <- get_loop fuel rng tree (S i) samples' ;;
          Ok (d :: rest.1.1, r.1.1 :: rest.1.2, r.1.2 :: rest.2)
      end
  end.

(** The last three statements of [get]. *)
Definition importance_weights (power : V -> V -> V) (size : Z)
  (total_p beta : V) (priorities : list V) : result (list V) :=
  let sampling_probabilities := map (fun p => ndiv p total_p) priorities in
  let is_weight :=
    map (fun q => power (nmul (nof_Z size) q) (nopp beta))
      sampling_probabilities in
  m <- array_max is_weight ;;
  Ok (map (fun w => ndiv w m) is_weight).

(** The arrays [a] and [b] of [get], paired: the bounds of the segments
    the samples are drawn from. *)
Definition bounds (total_p : V) (n_samples : nat) : list (V * V) :=
  let segment := ndiv total_p (nof_Z (Z.of_nat n_samples)) in
  let a := map (fun i => nmul (nof_Z (Z.of_nat i)) segment) (seq 0 n_samples) in
  let b := map (fun i => nmul (nof_Z (Z.of_nat i)) segment) (seq 1 n_samples) in
  combine a b.

(** [np.random.uniform(a, b)] refuses the draw (OverflowError) unless
    every width [b - a] is finite. *)
Definition drawable (ab : list (V * V)) : bool :=
  forallb (fun ab => nfinite (nsub ab.2 ab.1)) ab.

(** [get]: [uniform i a b] is the [i]-th draw of
    [np.random.uniform(a, b)], a number of [a, b). *)
Definition get (fuel : nat) (power : V -> V -> V)
  (uniform : nat -> V -> V -> V) (rng : nat -> nat -> bool)
  (s : t) (n_samples : nat) : result (list D * list Z * list V) :=
  total_p <- SumTree.total_p (_tree s) ;;
  let ab := bounds total_p n_samples in
  if drawable ab
  then
    let samples :=
      map (fun iab : nat * (V * V) => uniform iab.1 iab.2.1 iab.2.2)
        (combine (seq 0 n_samples) ab) in
    sampled <- get_loop fuel rng (_tree s) 0 samples ;;
    total_p' <- SumTree.total_p (_tree s) ;;
    is_weight <- importance_weights power (SumTree.size (_tree s)) total_p'
                   (_beta s) sampled.2 ;;
    Ok (sampled.1.1, sampled.1.2, is_weight)
  else Raise OverflowError.

Definition initialized (s : t) : bool :=
  (_initial_size s <? SumTree.size (_tree s))%Z.

Definition max_priority (s : t) : result V :=
  if initialized s then SumTree.max_p (_tree s) else Ok n_one.

(** A sequence of calls on one memory. *)
Inductive call : Type :=
| Add (dataset : list D) (p : list V)
| Update (error : list V) (idx : list Z).

Fixpoint run (fuel : nat) (power : V -> V -> V) (s : t) (calls : list call)
  : result t :=
  match calls with
  | [] => Ok s
  | Add dataset p :: calls' =>
      s' <- add fuel s dataset p ;;
      run fuel power s' calls'
  | Update error idx :: calls' =>
      s' <- update fuel power s error idx ;;
      run fuel power s' calls'
  end.

(** The call a method passes on to the tree. *)
Definition tree_call (power : V -> V -> V) (s : t) (c : call)
  : @SumTree.call V D :=
  match c with
  | Add dataset p => SumTree.Add dataset p
  | Update error idx =>
      SumTree.Update idx (map (_get_priority power s) error)
  end.

Definition valid_call (max_size : Z) (c : call) : Prop :=
  match c with
  | Add _ _ => True
  | Update _ idx => Forall (SumTree.leaf_index max_size) idx
  end.

(** The elements the [Add] calls of a sequence insert, in order. *)
Fixpoint inserted (calls : list call) : list D :=
  match calls with
  | [] => []
  | Add dataset p :: calls' => (combine dataset p).*1 ++ inserted calls'
  | Update _ _ :: calls' => inserted calls'
  end.

End Defs.

Arguments t : clear implicits.

End PrioritizedReplayMemory.

(** ** class ReplayMemory *)

Module ReplayMemory.

Section Defs.
Context {St Ac Rw : Type}.

(** One element of a dataset: state, action, reward, next state, absorbing,
    last. *)
Definition transition : Type := St * Ac * Rw * St * bool * bool.

Record t : Type := Build {
  _initial_size : nat;
  _max_size : nat;
  _idx : nat;
  _full : bool;
  _states : list (option St);
  _actions : list (option Ac);
  _rewards : list (option Rw);
  _next_states : list (option St);
  _absorbing : list (option bool);
  _last : list (option bool)
}.

(** [l[i] = x] at a non-negative index. *)
Definition store {A : Type} (l : list A) (i : nat) (x : A) : result (list A) :=
  if (i <? length l)%nat then Ok (<[i:=x]> l) else Raise IndexError.

Definition load {A : Type} (l : list A) (i : nat) : result A :=
  match l !! i with Some x => Ok x | None => Raise IndexError end.

Definition reset (s : t) : t :=
  {| _initial_size := _initial_size s;
     _max_size := _max_size s;
     _idx := 0;
     _full := false;
     _states := replicate (_max_size s) None;
     _actions := replicate (_max_size s) None;
     _rewards := replicate (_max_size s) None;
     _next_states := replicate (_max_size s) None;
     _absorbing := replicate (_max_size s) None;
     _last := replicate (_max_size s) None |}.

Definition init (initial_size max_size : nat) : t :=
  reset {| _initial_size := initial_size; _max_size := max_size;
           _idx := 0; _full := false;
           _states := []; _actions := []; _rewards := [];
           _next_states := []; _absorbing := []; _last := [] |}.

(** The loop body of [add]. *)
Definition add1 (s : t) (d : transition) : result t :=
  let '(st, ac, rw, nst, ab, la) := d in
  states <- store (_states s) (_idx s) (Some st) ;;
  actions <- store (_actions s) (_idx s) (Some ac) ;;
  rewards <- store (_rewards s) (_idx s) (Some rw) ;;
  next_states <- store (_next_states s) (_idx s) (Some nst) ;;
  absorbing <- store (_absorbing s) (_idx s) (Some ab) ;;
  last <- store (_last s) (_idx s) (Some la) ;;
  let idx := S (_idx s) in
  if (idx =? _max_size s)%nat
  then Ok {| _initial_size := _initial_size s; _max_size := _max_size s;
             _idx := 0; _full := true;
             _states := states; _actions := actions; _rewards := rewards;
             _next_states := next_states; _absorbing := absorbing;
             _last := last |}
  else Ok {| _initial_size := _initial_size s; _max_size := _max_size s;
             _idx := idx; _full := _full s;
             _states := states; _actions := actions; _rewards := rewards;
             _next_states := next_states; _absorbing := absorbing;
             _last := last |}.

Fixpoint add (s : t) (dataset : list transition) : result t :=
  match dataset with
  | [] => Ok s
  | d :: dataset' => s' <- add1 s d ;; add s' dataset'
  end.

Definition size (s : t) : nat :=
  if negb (_full s) then _idx s else _max_size s.

Definition initialized (s : t) : bool := (_initial_size s <? size s)%nat.

(** What [get] reads at a drawn index [i]: one slot of each array. *)
Definition item (s : t) (i : nat)
  : result (option St * option Ac * option Rw * option St
            * option bool * option bool) :=
  st <- load (_states s) i ;;
  ac <- load (_actions s) i ;;
  rw <- load (_rewards s) i ;;
  nst <- load (_next_states s) i ;;
  ab <- load (_absorbing s) i ;;
  la <- load (_last s) i ;;
  Ok (st, ac, rw, nst, ab, la).

(** [np.random.randint(self.size, size=n_samples)]: the [k]-th draw is the
    oracle's [k]-th number reduced to the range; a draw from an empty range
    is refused, unless no number is asked for. *)
Definition get (rng : nat -> nat) (s : t) (n_samples : nat)
  : result (list (option St * option Ac * option Rw * option St
                  * option bool * option bool)) :=
  if ((size s =? 0) && negb (n_samples =? 0))%nat then Raise ValueError
  else
    fold_right
      (fun k acc => x <- item s (rng k mod size s) ;; xs <- acc ;; Ok (x :: xs))
      (Ok []) (seq 0 n_samples).

(** A sequence of [add] calls. *)
Fixpoint adds (s : t) (datasets : list (list transition)) : result t :=
  match datasets with
  | [] => Ok s
  | d :: ds => s' <- add s d ;; adds s' ds
  end.

Definition some_transition (d : transition)
  : option St * option Ac * option Rw * option St * option bool * option bool :=
  let '(st, ac, rw, nst, ab, la) := d in
  (Some st, Some ac, Some rw, Some nst, Some ab, Some la).

(** The whole buffer, slot by slot. *)
Definition slots (s : t)
  : list (result (option St * option Ac * option Rw * option St
                  * option bool * option bool)) :=
  map (item s) (seq 0 (_max_size s)).

(** The six arrays have the length [reset] gives them. *)
Definition wf (s : t) : Prop :=
  length (_states s) = _max_size s /\
  length (_actions s) = _max_size s /\
  length (_rewards s) = _max_size s /\
  length (_next_states s) = _max_size s /\
  length (_absorbing s) = _max_size s /\
  length (_last s) = _max_size s.

(** After [q] full rounds and [_idx s] more elements of [stream]: slots
    below the cursor hold the current round, the others the round before. *)
Definition holds (stream : list transition) (q : nat) (s : t) : Prop :=
  wf s /\
  length stream = (q * _max_size s + _idx s)%nat /\
  (_idx s < _max_size s)%nat /\
  _full s = (0 <? q)%nat /\
  forall j p d,
    (j < _max_size s)%nat -> stream !! p = Some d ->
    (p = q * _max_size s + j /\ j < _idx s
     \/ p + _max_size s = q * _max_size s + j /\ _idx s <= j)%nat ->
    item s j = Ok (some_transition d).

End Defs.

Arguments t : clear implicits.
Arguments transition : clear implicits.

End ReplayMemory.

(** ** class SequentialReplayMemory *)

Module SequentialReplayMemory.

Section Defs.
Context {St Ac Rw : Type}.

Definition transition : Type := St * Ac * Rw * St * bool * bool.

(** Column [-2] of a dataset row. *)
Definition absorbing (d : transition) : bool :=
  let '(_, _, _, _, ab, _) := d in ab.

Record t : Type := Build {
  _initial_size : nat;
  _max_size : nat;
  _unroll_steps : nat;
  _lengths : list nat;
  _size : Z;
  _states : list (list St);
  _actions : list (list Ac);
  _rewards : list (list Rw);
  _next_states : list (list St);
  _absorbing : list (list bool);
  _last : list (list bool);
  unfinished_episode : list transition
}.

Definition init (initial_size max_size unroll_steps : nat) : t :=
  {| _initial_size := initial_size; _max_size := max_size;
     _unroll_steps := unroll_steps;
     _lengths := []; _size := 0;
     _states := []; _actions := []; _rewards := []; _next_states := [];
     _absorbing := []; _last := [];
     unfinished_episode := [] |}.

Definition reset (s : t) : t :=
  {| _initial_size := _initial_size s; _max_size := _max_size s;
     _unroll_steps := _unroll_steps s;
     _lengths := []; _size := 0;
     _states := []; _actions := []; _rewards := []; _next_states := [];
     _absorbing := []; _last := [];
     unfinished_episode := unfinished_episode s |}.

(** [np.where(flags)[0]], counting positions from [i]. *)
Fixpoint where_from (i : nat) (flags : list bool) : list nat :=
  match flags with
  | [] => []
  | b :: flags' =>
      if b then i :: where_from (S i) flags' else where_from (S i) flags'
  end.

(** One round of [for start, end in zip(args, args[1:])]; the state is
    the list [episodes] and the variable [end]. *)
Definition split_step (dataset : list transition)
  (acc : list (list transition) * nat) (se : nat * nat)
  : list (list transition) * nat :=
  (acc.1 ++ [slice dataset se.1 se.2], se.2).

(** [_split_dataset]: taking column [-2] of an empty array is refused. *)
Definition _split_dataset (dataset : list transition)
  : result (list (list transition) * list transition) :=
  match dataset with
  | [] => Raise IndexError
  | _ =>
      let indices := where_from 0 (map absorbing dataset) in
      let args := 0%nat :: map S indices in
      let loop :=
        fold_left (split_step dataset) (combine args (tail args)) ([], 0%nat) in
      Ok (loop.1, slice dataset loop.2 (length dataset))
  end.

(** The split as the specification words it: cut after every transition
    whose boundary flag is set; [cur] is the episode being collected, and
    what is left of it at the end is the unfinished episode. *)
Fixpoint split_at_boundaries (cur dataset : list transition)
  : list (list transition) * list transition :=
  match dataset with
  | [] => ([], cur)
  | d :: dataset' =>
      if absorbing d
      then let r := split_at_boundaries [] dataset' in
           ((cur ++ [d]) :: r.1, r.2)
      else split_at_boundaries (cur ++ [d]) dataset'
  end.

Definition pop0 {A : Type} (l : list A) : result (A * list A) :=
  match l with
  | [] => Raise IndexError
  | x :: l' => Ok (x, l')
  end.

(** The [while self._size > self._max_size] loop; every round pops the
    head of [_states], on which the recursion runs. *)
Fixpoint evict (states : list (list St)) (s : t) : result t :=
  if (Z.of_nat (_max_size s) <? _size s)%Z then
    match states with
    | [] => Raise IndexError
    | ep :: states' =>
        a <- pop0 (_actions s) ;;
        r <- pop0 (_rewards s) ;;
        ss <- pop0 (_next_states s) ;;
        ab <- pop0 (_absorbing s) ;;
        la <- pop0 (_last s) ;;
        le <- pop0 (_lengths s) ;;
        evict states'
          {| _initial_size := _initial_size s; _max_size := _max_size s;
             _unroll_steps := _unroll_steps s;
             _lengths := snd le;
             _size := _size s - Z.of_nat (length ep);
             _states := states';
             _actions := snd a; _rewards := snd r; _next_states := snd ss;
             _absorbing := snd ab; _last := snd la;
             unfinished_episode := unfinished_episode s |}
    end
  else Ok s.

(** The test [self._unroll_steps <= len(episode) < self._max_size]. *)
Definition storable (s : t) (episode : list transition) : bool :=
  ((_unroll_steps s <=? length episode)%nat
   && (length episode <? _max_size s)%nat)%bool.

(** The body of [for episode in episodes]; returns the new buffer and
    whether the episode was counted in [added]. *)
Definition add_episode (s : t) (episode : list transition)
  : result (t * bool) :=
  if storable s episode
  then
    let st := map (fun d : transition => d.1.1.1.1.1) episode in
    let a := map (fun d : transition => d.1.1.1.1.2) episode in
    let r := map (fun d : transition => d.1.1.1.2) episode in
    let ss := map (fun d : transition => d.1.1.2) episode in
    let ab := map (fun d : transition => d.1.2) episode in
    let la := map (fun d : transition => d.2) episode in
    let s1 :=
      {| _initial_size := _initial_size s; _max_size := _max_size s;
         _unroll_steps := _unroll_steps s;
         _lengths := _lengths s ++ [length episode];
         _size := _size s + Z.of_nat (length episode);
         _states := _states s ++ [st];
         _actions := _actions s ++ [a];
         _rewards := _rewards s ++ [r];
         _next_states := _next_states s ++ [ss];
         _absorbing := _absorbing s ++ [ab];
         _last := _last s ++ [la];
         unfinished_episode := unfinished_episode s |} in
    s2 <- evict (_states s1) s1 ;;
    Ok (s2, true)
  else Ok (s, false).

Fixpoint add_episodes (s : t) (added : nat) (episodes : list (list transition))
  : result (t * nat) :=
  match episodes with
  | [] => Ok (s, added)
  | episode :: episodes' =>
      sb <- add_episode s episode ;;
      add_episodes sb.1 (if sb.2 then S added else added) episodes'
  end.

Definition add (s : t) (dataset : list transition) : result (t * nat) :=
  eu <- _split_dataset (unfinished_episode s ++ dataset) ;;
  add_episodes
    {| _initial_size := _initial_size s; _max_size := _max_size s;
       _unroll_steps := _unroll_steps s;
       _lengths := _lengths s; _size := _size s;
       _states := _states s; _actions := _actions s; _rewards := _rewards s;
       _next_states := _next_states s; _absorbing := _absorbing s;
       _last := _last s;
       unfinished_episode := eu.2 |}
    0 eu.1.

Definition size (s : t) : Z := _size s.

Definition initialized (s : t) : bool := (Z.of_nat (_initial_size s) <? _size s)%Z.

(** The stored episodes, read back from the six parallel lists. *)
Definition stored (s : t) : list (list transition) :=
  zip_with zip
    (zip_with zip
       (zip_with zip
          (zip_with zip
             (zip_with zip (_states s) (_actions s))
             (_rewards s))
          (_next_states s))
       (_absorbing s))
    (_last s).

(** The six lists are the columns of the episodes [eps], and the counters
    agree with them. *)
Definition columns (eps : list (list transition)) (s : t) : Prop :=
  _states s = map (map (fun d : transition => d.1.1.1.1.1)) eps /\
  _actions s = map (map (fun d : transition => d.1.1.1.1.2)) eps /\
  _rewards s = map (map (fun d : transition => d.1.1.1.2)) eps /\
  _next_states s = map (map (fun d : transition => d.1.1.2)) eps /\
  _absorbing s = map (map (fun d : transition => d.1.2)) eps /\
  _last s = map (map (fun d : transition => d.2)) eps /\
  _lengths s = map length eps /\
  _size s = Z.of_nat (sum_list (map length eps)).

(** Same constructor parameters. *)
Definition same_parameters (s s' : t) : Prop :=
  _initial_size s' = _initial_size s /\
  _max_size s' = _max_size s /\
  _unroll_steps s' = _unroll_steps s.

Definition within_capacity (eps : list (list transition)) (s : t) : Prop :=
  Forall (fun ep => (_unroll_steps s <= length ep < _max_size s)%nat) eps /\
  (_size s <= Z.of_nat (_max_size s))%Z.

(** A sequence of calls on one buffer. *)
Inductive call : Type :=
| Add (dataset : list transition)
| Reset.

Fixpoint run (s : t) (calls : list call) : result t :=
  match calls with
  | [] => Ok s
  | Add dataset :: calls' => sa <- add s dataset ;; run sa.1 calls'
  | Reset :: calls' => run (reset s) calls'
  end.

(** The buffer with another unfinished episode. *)
Definition with_unfinished (s : t) (u : list transition) : t :=
  {| _initial_size := _initial_size s; _max_size := _max_size s;
     _unroll_steps := _unroll_steps s;
     _lengths := _lengths s; _size := _size s;
     _states := _states s; _actions := _actions s; _rewards := _rewards s;
     _next_states := _next_states s; _absorbing := _absorbing s;
     _last := _last s;
     unfinished_episode := u |}.

(** The outcome of a method that starts with an [assert]. *)
Inductive asserted (A : Type) : Type :=
| AssertionError
| Passed (r : result A).
Arguments AssertionError {A}.
Arguments Passed {A} r.

(** [np.random.randint(high, size=k)]: the [i]-th draw is the oracle's
    [i]-th number reduced to the range; a draw from an empty range is
    refused, unless no number is asked for. *)
Definition randint (rng : nat -> nat) (high k : nat) : result (list nat) :=
  if ((high =? 0) && negb (k =? 0))%nat then Raise ValueError
  else Ok (map (fun i => rng i mod high) (seq 0 k)).

(** [np.random.randint(0, np.array(self._lengths) - self._unroll_steps + 1)]:
    one draw per stored episode, each below its own bound; a bound that is
    not positive is refused. *)
Definition start_indices (rng : nat -> nat) (s : t) : result (list nat) :=
  if forallb (fun len => (_unroll_steps s <=? len)%nat) (_lengths s)
  then Ok (imap (fun e len => rng e mod (len - _unroll_steps s + 1))
             (_lengths s))
  else Raise ValueError.

Definition load {A : Type} (l : list A) (i : nat) : result A :=
  match l !! i with Some x => Ok x | None => Raise IndexError end.

(** [array[ep][i]], where the inner index may itself be a lookup. *)
Definition load2 {A : Type} (array : list (list A)) (ep : nat)
  (i : result nat) : result A :=
  row <- load array ep ;;
  j <- i ;;
  load row j.

(** The six reads of one sampled step, in the order of the source. *)
Definition cell (s : t) (ep : nat) (i : result nat) : result transition :=
  st <- load2 (_states s) ep i ;;
  ac <- load2 (_actions s) ep i ;;
  rw <- load2 (_rewards s) ep i ;;
  nst <- load2 (_next_states s) ep i ;;
  ab <- load2 (_absorbing s) ep i ;;
  la <- load2 (_last s) ep i ;;
  Ok (st, ac, rw, nst, ab, la).

(** A loop that appends one result per element. *)
Fixpoint collect {A B : Type} (f : A -> result B) (l : list A)
  : result (list B) :=
  match l with
  | [] => Ok []
  | x :: l' => y <- f x ;; ys <- collect f l' ;; Ok (y :: ys)
  end.

(** The six arrays a sampling method returns; the cells of a row are
    collected together and split into the six arrays here. *)
Definition arrays (rows : list (list transition))
  : list (list St) * list (list Ac) * list (list Rw) * list (list St)
    * list (list bool) * list (list bool) :=
  (map (map (fun d : transition => d.1.1.1.1.1)) rows,
   map (map (fun d : transition => d.1.1.1.1.2)) rows,
   map (map (fun d : transition => d.1.1.1.2)) rows,
   map (map (fun d : transition => d.1.1.2)) rows,
   map (map (fun d : transition => d.1.2)) rows,
   map (map (fun d : transition => d.2)) rows).

(** The loop [for _ in range(self._unroll_steps)] of [get]: one row over
    the drawn episodes, then [idx += 1]. *)
Fixpoint unroll (s : t) (eps idx : list nat) (steps : nat)
  : result (list (list transition)) :=
  match steps with
  | O => Ok []
  | S steps' =>
      row <- collect (fun ep => cell s ep (load idx ep)) eps ;;
      rows <- unroll s eps (map S idx) steps' ;;
      Ok (row :: rows)
  end.

(** [get]: [rng_ep] draws the episodes, [rng_idx] the start index of every
    stored episode.  The result is time-major: one row per step. *)
Definition get (rng_ep rng_idx : nat -> nat) (s : t) (batch_size : nat)
  : asserted (list (list St) * list (list Ac) * list (list Rw)
              * list (list St) * list (list bool) * list (list bool)) :=
  if (batch_size <=? _initial_size s)%nat
  then Passed
         (eps <- randint rng_ep (length (_states s)) batch_size ;;
          idx <- start_indices rng_idx s ;;
          rows <- unroll s eps idx (_unroll_steps s) ;;
          Ok (arrays rows))
  else AssertionError.

(** The body of the loop of [get_batch_first] for the [k]-th sample:
    [np.random.randint(0, ep_len - self._unroll_steps + 1)] refuses a bound
    that is not positive. *)
Definition window (rng_start : nat -> nat) (s : t) (kep : nat * nat)
  : result (list transition) :=
  la <- load (_last s) kep.2 ;;
  let ep_len := length la in
  if (_unroll_steps s <=? ep_len)%nat
  then
    let start := (rng_start kep.1 mod (ep_len - _unroll_steps s + 1))%nat in
    collect (fun i => cell s kep.2 (Ok i)) (seq start (_unroll_steps s))
  else Raise ValueError.

(** [get_batch_first]: [rng_ep] draws the episodes, [rng_start] the start
    of every sample.  The result is batch-major: one row per sample. *)
Definition get_batch_first (rng_ep rng_start : nat -> nat) (s : t)
  (n_samples : nat)
  : asserted (list (list St) * list (list Ac) * list (list Rw)
              * list (list St) * list (list bool) * list (list bool)) :=
  if (n_samples <=? _initial_size s)%nat
  then Passed
         (eps <- randint rng_ep (length (_states s)) n_samples ;;
          rows <- collect (window rng_start s)
                    (combine (seq 0 (length eps)) eps) ;;
          Ok (arrays rows))
  else AssertionError.

End Defs.

Arguments t : clear implicits.
Arguments transition : clear implicits.
Arguments AssertionError {A}.
Arguments Passed {A} r.

End SequentialReplayMemory.

(** ** Concrete trees and buffers used in the examples *)

Module Examples.

(** Payloads are numbered; only their position matters. *)
Definition float_tree (max_size : Z) : result (SumTree.t float nat) :=
  SumTree.init max_size.

Definition exact_tree (max_size : Z) : result (SumTree.t Qc nat) :=
  SumTree.init max_size.

(** A large priority, a small one, then the large one set to zero. *)
Definition rounding_calls : list (@SumTree.call float nat) :=
  [SumTree.Add [0%nat] [1e16%float];
   SumTree.Add [1%nat] [1%float];
   SumTree.Update [1%Z] [0%float]].

Definition exact_calls : list (@SumTree.call Qc nat) :=
  [SumTree.Add [0%nat; 1%nat] [Qc_of_Z 3; Q2Qc (1 # 2)];
   SumTree.Update [1%Z] [Qc_of_Z 0]].

(** Two leaves of priority 1 and 2, so that total_p is 3. *)
Definition two_leaves : result (SumTree.t float nat) :=
  s0 <- float_tree 2 ;;
  SumTree.add 3 s0 [0%nat; 1%nat] [1%float; 2%float].

(** Three leaf slots, the first written with priority 10. *)
Definition single_ten : result (SumTree.t float nat) :=
  s0 <- float_tree 3 ;;
  SumTree.add 5 s0 [0%nat] [10%float].

Definition single_ten_calls : list (@SumTree.call Qc nat) :=
  [SumTree.Add [0%nat] [Qc_of_Z 10]].

(** Two leaf slots, the first written with a negative priority. *)
Definition negative_leaf : result (SumTree.t float nat) :=
  s0 <- float_tree 2 ;;
  SumTree.add 3 s0 [0%nat] [(-1)%float].

(** Transitions are told apart by a number; [ab] is the absorbing flag. *)
Definition step (k : nat) (ab : bool) : nat * nat * nat * nat * bool * bool :=
  (k, k, k, k, ab, false).

Definition five_transitions : list (list (ReplayMemory.transition nat nat nat)) :=
  [[step 0 false; step 1 false]; [step 2 false; step 3 false; step 4 false]].

(** Seven steps with the boundary flag at positions 2 and 5. *)
Definition seven_steps : list (SequentialReplayMemory.transition nat nat nat) :=
  [step 0 false; step 1 false; step 2 true;
   step 3 false; step 4 false; step 5 true;
   step 6 false].

(** A leaf of tiny positive priority beside a leaf of priority 1, with
    alpha 1, beta 1 and epsilon 0.01 (its binary64 value). *)
Definition tiny_priority : result (PrioritizedReplayMemory.t float nat) :=
  s0 <- PrioritizedReplayMemory.init 0 2 1%float 1%float 0x1.47ae147ae147bp-7%float ;;
  PrioritizedReplayMemory.add 3 s0 [0%nat; 1%nat] [0x1p-1030%float; 1%float].

(** [x ** -1.0]: numpy computes it as the reciprocal of [x].  (The only use
    below is at [x = 2^-1029], where the exact power, [2^1029], is beyond the
    largest binary64 number.) *)
Definition reciprocal (x y : float) : float := PrimFloat.div 1 x.

(** Two leaves of priority 1 and 3 in exact arithmetic, beta 1. *)
Definition exact_priorities : result (PrioritizedReplayMemory.t Qc nat) :=
  s0 <- PrioritizedReplayMemory.init 0 2 (Qc_of_Z 1) (Qc_of_Z 1)
          (Q2Qc (1 # 100)) ;;
  PrioritizedReplayMemory.add 3 s0 [0%nat; 1%nat] [Qc_of_Z 1; Qc_of_Z 3].

Definition exact_reciprocal (x y : Qc) : Qc := Qcinv x.

(** Four payloads into three leaf slots, with an update in between. *)
Definition wrapping_calls : list (@SumTree.call float nat) :=
  [SumTree.Add [0%nat; 1%nat] [1%float; 2%float];
   SumTree.Update [3%Z] [5%float];
   SumTree.Add [2%nat; 3%nat] [3%float; 4%float]].

(** Three elements into a memory of two, then new errors for both leaves. *)
Definition prioritized_calls
  : list (@PrioritizedReplayMemory.call float nat) :=
  [PrioritizedReplayMemory.Add [0%nat; 1%nat; 2%nat]
     [1%float; 3%float; 2%float];
   PrioritizedReplayMemory.Update [0.5%float; 0.25%float] [1%Z; 2%Z]].

(** Two leaves of priority 1 and 3 in binary64, alpha 1 and beta 1. *)
Definition float_priorities : result (PrioritizedReplayMemory.t float nat) :=
  s0 <- PrioritizedReplayMemory.init 0 2 1%float 1%float 0x1p-7%float ;;
  PrioritizedReplayMemory.add 3 s0 [0%nat; 1%nat] [1%float; 3%float].

(** Updates only: nothing is ever inserted. *)
Definition update_only_calls
  : list (@PrioritizedReplayMemory.call float nat) :=
  [PrioritizedReplayMemory.Update [0.5%float] [1%Z]].

End Examples.

(** * Properties *)

(** ** Indexing *)

Section PyFacts.
Context {A : Type}.
Implicit Types (l : list A) (i : Z).

Lemma index_nonneg (len i : Z) :
  (0 <= i < len)%Z -> Py.index len i = Some (Z.to_nat i).
Proof.
  intros Hi. unfold Py.index.
  destruct (Z.ltb_spec i 0); [lia|].
  destruct (Z.leb_spec 0 i); [|lia].
  destruct (Z.ltb_spec i len); [|lia]. reflexivity.
Qed.

Lemma getitem_nonneg l i :
  (0 <= i < Z.of_nat (length l))%Z ->
  exists x, l !! Z.to_nat i = Some x /\ getitem l i = Ok x.
Proof.
  intros Hi. unfold getitem. rewrite index_nonneg by done.
  destruct (lookup_lt_is_Some_2 l (Z.to_nat i)) as [x Hx]; [lia|].
  exists x. by rewrite Hx.
Qed.

Lemma getitem_lookup l i x :
  (0 <= i)%Z -> l !! Z.to_nat i = Some x -> getitem l i = Ok x.
Proof.
  intros Hi Hx. pose proof (lookup_lt_Some _ _ _ Hx) as Hlt.
  unfold getitem. rewrite index_nonneg by lia. by rewrite Hx.
Qed.

Lemma setitem_nonneg l i x :
  (0 <= i < Z.of_nat (length l))%Z ->
  setitem l i x = Ok (<[Z.to_nat i:=x]> l).
Proof. intros Hi. unfold setitem. by rewrite index_nonneg. Qed.

Lemma index_neg (len i : Z) :
  (- len <= i < 0)%Z -> Py.index len i = Some (Z.to_nat (i + len)).
Proof.
  intros Hi. unfold Py.index.
  destruct (Z.ltb_spec i 0); [|lia].
  destruct (Z.leb_spec 0 (i + len)); [|lia].
  destruct (Z.ltb_spec (i + len) len); [|lia]. reflexivity.
Qed.

Lemma getitem_neg l i :
  (- Z.of_nat (length l) <= i < 0)%Z -> exists x, getitem l i = Ok x.
Proof.
  intros Hi. unfold getitem. rewrite index_neg by done.
  destruct (lookup_lt_is_Some_2 l (Z.to_nat (i + Z.of_nat (length l))))
    as [x Hx]; [lia|].
  exists x. by rewrite Hx.
Qed.

Lemma setitem_neg l i x :
  (- Z.of_nat (length l) <= i < 0)%Z ->
  exists l', setitem l i x = Ok l' /\ length l' = length l.
Proof.
  intros Hi. unfold setitem. rewrite index_neg by done.
  eexists. split; [done|]. by rewrite length_insert.
Qed.

End PyFacts.

(** ** SumTree: the recursions return *)

Section SumTreeTermination.
Context {V D : Type} `{Num V}.
Implicit Types (tree : list V) (s : SumTree.t V D).

Lemma parent_bounds (i : Z) : (1 <= i)%Z -> (0 <= (i - 1) / 2 < i)%Z.
Proof.
  intros Hi. split.
  - apply Z.div_pos; lia.
  - apply Z.div_lt_upper_bound; lia.
Qed.

Lemma propagate_returns fuel : forall tree delta i,
  (1 <= i < Z.of_nat (length tree))%Z -> (Z.to_nat i <= fuel)%nat ->
  exists tree', SumTree._propagate fuel tree delta i = Ok tree' /\
    length tree' = length tree /\
    (forall k, (Z.to_nat ((i - 1) / 2) < k)%nat -> tree' !! k = tree !! k).
Proof.
  induction fuel as [|fuel IH]; intros tree delta i Hi Hfuel; [lia|].
  pose proof (parent_bounds i ltac:(lia)) as Hp.
  simpl. set (p := ((i - 1) / 2)%Z) in *.
  destruct (getitem_nonneg tree p ltac:(lia)) as (old & Hold & ->). simpl.
  rewrite setitem_nonneg by lia. simpl.
  destruct (Z.eqb_spec p 0) as [Hp0|Hp0]; simpl.
  - eexists. split; [done|]. split; [by rewrite length_insert|].
    intros k Hk. apply list_lookup_insert_ne. lia.
  - destruct (IH (<[Z.to_nat p:=nadd old delta]> tree) delta p)
      as (tree' & Hrun & Hlen & Hframe).
    + rewrite length_insert. lia.
    + lia.
    + pose proof (parent_bounds p ltac:(lia)).
      exists tree'. split; [done|]. rewrite Hlen, length_insert.
      split; [done|]. intros k Hk. rewrite Hframe by lia.
      apply list_lookup_insert_ne. lia.
Qed.

(** A recursion started at the root steps to index [-1] and stays there. *)
Lemma propagate_from_minus_one fuel : forall tree delta,
  tree <> [] -> SumTree._propagate fuel tree delta (-1) = OutOfFuel.
Proof.
  induction fuel as [|fuel IH]; intros tree delta Hne; [done|].
  assert (0 < length tree)%nat by (destruct tree; [done|simpl; lia]).
  simpl. change ((-1 - 1) / 2)%Z with (-1)%Z.
  destruct (getitem_neg tree (-1) ltac:(lia)) as (old & ->). simpl.
  destruct (setitem_neg tree (-1) (nadd old delta) ltac:(lia))
    as (tree' & -> & Hlen). simpl.
  apply IH. intros ->. simpl in Hlen. lia.
Qed.

Lemma propagate_from_root fuel tree delta :
  tree <> [] -> SumTree._propagate fuel tree delta 0 = OutOfFuel.
Proof.
  intros Hne. destruct fuel as [|fuel]; [done|].
  assert (0 < length tree)%nat by (destruct tree; [done|simpl; lia]).
  simpl. change ((0 - 1) / 2)%Z with (-1)%Z.
  destruct (getitem_neg tree (-1) ltac:(lia)) as (old & ->). simpl.
  destruct (setitem_neg tree (-1) (nadd old delta) ltac:(lia))
    as (tree' & -> & Hlen). simpl.
  apply propagate_from_minus_one. intros ->. simpl in Hlen. lia.
Qed.

Lemma update1_returns fuel tree i p :
  (1 <= i < Z.of_nat (length tree))%Z -> (Z.to_nat i <= fuel)%nat ->
  exists old tree',
    tree !! Z.to_nat i = Some old /\
    SumTree.update1 fuel tree i p = Ok tree' /\
    SumTree._propagate fuel (<[Z.to_nat i:=p]> tree) (nsub p old) i = Ok tree' /\
    length tree' = length tree /\
    tree' !! Z.to_nat i = Some p /\
    (forall k, (Z.to_nat ((i - 1) / 2) < k)%nat -> k <> Z.to_nat i ->
               tree' !! k = tree !! k).
Proof.
  intros Hi Hfuel. unfold SumTree.update1.
  destruct (getitem_nonneg tree i ltac:(lia)) as (old & Hold & ->). simpl.
  rewrite setitem_nonneg by lia. simpl.
  destruct (propagate_returns fuel (<[Z.to_nat i:=p]> tree) (nsub p old) i)
    as (tree' & Hrun & Hlen & Hframe).
  { rewrite length_insert. lia. }
  { done. }
  pose proof (parent_bounds i ltac:(lia)).
  exists old, tree'. rewrite Hlen, length_insert.
  repeat split; try done.
  - rewrite Hframe by lia. apply list_lookup_insert_eq. lia.
  - intros k Hk Hne. rewrite Hframe by lia. apply list_lookup_insert_ne. lia.
Qed.

Lemma update_loop_returns fuel : forall (ips : list (Z * V)) tree,
  Forall (fun ip => (1 <= ip.1 < Z.of_nat (length tree))%Z) ips ->
  (length tree <= fuel)%nat ->
  exists tree', SumTree.update_loop fuel tree ips = Ok tree' /\
    length tree' = length tree.
Proof.
  induction ips as [|[i p] ips IH]; intros tree Hips Hfuel.
  - by exists tree.
  - inversion Hips as [|? ? Hi Hips']; subst. simpl in Hi. simpl.
    destruct (update1_returns fuel tree i p Hi ltac:(lia))
      as (old & tree1 & _ & -> & _ & Hlen & _). simpl.
    destruct (IH tree1) as (tree' & Hrun & Hlen').
    + by rewrite Hlen.
    + lia.
    + exists tree'. split; [done|]. congruence.
Qed.

Lemma retrieve_returns fuel : forall (rng : nat -> bool) tree (x : V) i n,
  length tree = Z.to_nat (2 * n - 1) ->
  (0 <= i < 2 * n - 1)%Z ->
  (Z.to_nat (2 * n - 1 - i) <= fuel)%nat ->
  exists j, SumTree._retrieve fuel rng tree x i = Ok j /\
    (i <= j)%Z /\ SumTree.leaf_index n j.
Proof.
  induction fuel as [|fuel IH]; intros rng tree x i n Hlen Hi Hfuel; [lia|].
  simpl. rewrite Hlen.
  destruct (Z.leb_spec (Z.of_nat (Z.to_nat (2 * n - 1))) (2 * i + 1)) as [Hleaf|Hint].
  - exists i. unfold SumTree.leaf_index. split; [done|]. lia.
  - destruct (getitem_nonneg tree (2 * i + 1) ltac:(lia)) as (l & _ & ->).
    destruct (getitem_nonneg tree (2 * i + 1 + 1) ltac:(lia)) as (r & _ & ->).
    simpl.
    assert (forall rng' x' c, (c = 2 * i + 1 \/ c = 2 * i + 1 + 1)%Z ->
      exists j, SumTree._retrieve fuel rng' tree x' c = Ok j /\
        (i <= j)%Z /\ SumTree.leaf_index n j) as Hrec.
    { intros rng' x' c Hc.
      destruct (IH rng' tree x' c n Hlen ltac:(lia) ltac:(lia))
        as (j & Hj & Hle & Hlf).
      exists j. split; [done|]. split; [lia|done]. }
    destruct (neqb l r).
    + apply Hrec. destruct (rng 0%nat); lia.
    + destruct (nleb x l); apply Hrec; lia.
Qed.

Lemma get_returns fuel (rng : nat -> bool) s (x : V) n :
  SumTree.wf n s -> (1 <= n)%Z -> (Z.to_nat (2 * n - 1) <= fuel)%nat ->
  exists j v d, SumTree.get fuel rng s x = Ok (j, v, d) /\
    SumTree.leaf_index n j /\
    SumTree._tree s !! Z.to_nat j = Some v /\
    SumTree._data s !! Z.to_nat (j - n + 1) = Some d.
Proof.
  intros (Hn & Hlen & Hdata & Hidx) Hn1 Hfuel. unfold SumTree.get.
  destruct (retrieve_returns fuel rng (SumTree._tree s) x 0 n Hlen
              ltac:(lia) ltac:(lia)) as (j & -> & _ & Hleaf).
  simpl. unfold SumTree.leaf_index in Hleaf.
  destruct (getitem_nonneg (SumTree._tree s) j ltac:(lia)) as (v & Hv & ->).
  simpl. rewrite Hn.
  destruct (getitem_nonneg (SumTree._data s) (j - n + 1) ltac:(lia))
    as (d & Hd & ->).
  simpl. by exists j, v, d.
Qed.

End SumTreeTermination.

Lemma Forall_combine_fst {A B : Type} (Q : A -> Prop) (l : list A) (k : list B) :
  Forall Q l -> Forall (fun ab => Q ab.1) (combine l k).
Proof.
  intros Hl. revert k. induction Hl as [|a l Ha Hl IH]; intros [|b k]; simpl;
    constructor; auto.
Qed.

(** ** SumTree: calls return and keep the shape of the tree

    The lemmas carry a property [I] of the flat array that one leaf update
    keeps, so that they serve for every invariant proved below. *)

Section SumTreeRuns.
Context {V D : Type} `{Num V}.
Variable n : Z.
Variable fuel : nat.
Variable I : list V -> Prop.
Variable P : Z -> Prop.
Hypothesis Hn : (2 <= n)%Z.
Hypothesis Hfuel : (Z.to_nat (2 * n - 1) <= fuel)%nat.
Hypothesis P_leaf : forall i, P i -> SumTree.leaf_index n i.
Hypothesis I_update1 : forall tree i p tree',
  length tree = Z.to_nat (2 * n - 1) -> P i -> I tree ->
  SumTree.update1 fuel tree i p = Ok tree' -> I tree'.
Hypothesis P_all : forall i, SumTree.leaf_index n i -> P i.
Implicit Types (tree : list V) (s : SumTree.t V D).

Lemma update_loop_inv : forall (ips : list (Z * V)) tree,
  Forall (fun ip => P ip.1) ips ->
  length tree = Z.to_nat (2 * n - 1) -> I tree ->
  exists tree', SumTree.update_loop fuel tree ips = Ok tree' /\
    length tree' = length tree /\ I tree'.
Proof using Hn Hfuel P_leaf I_update1.
  induction ips as [|[i p] ips IH]; intros tree Hips Hlen HI.
  - by exists tree.
  - inversion Hips as [|? ? HPi Hips']; subst. simpl in HPi. simpl.
    pose proof (P_leaf i HPi) as Hi. unfold SumTree.leaf_index in Hi.
    destruct (update1_returns fuel tree i p ltac:(lia) ltac:(lia))
      as (old & tree1 & _ & Hup & _ & Hlen1 & _).
    rewrite Hup. simpl.
    destruct (IH tree1 Hips') as (tree' & Hrun & Hlen' & HI').
    + congruence.
    + eapply I_update1; eauto.
    + exists tree'. split; [done|]. split; [congruence|done].
Qed.

Lemma update_inv s idx (ps : list V) :
  SumTree.wf n s -> Forall P idx -> I (SumTree._tree s) ->
  exists s', SumTree.update fuel s idx ps = Ok s' /\
    SumTree.wf n s' /\ I (SumTree._tree s') /\
    SumTree._idx s' = SumTree._idx s /\
    SumTree._full s' = SumTree._full s /\
    SumTree._data s' = SumTree._data s.
Proof using Hn Hfuel P_leaf I_update1.
  intros (Hmax & Hlen & Hdata & Hidx) Hvalid HI. unfold SumTree.update.
  destruct (update_loop_inv (combine idx ps) (SumTree._tree s))
    as (tree' & -> & Hlen' & HI'); [by apply Forall_combine_fst|done|done|].
  simpl. eexists. split; [done|]. unfold SumTree.wf. simpl.
  repeat split; try done; try lia; congruence.
Qed.

Lemma add1_inv s (d : D) (p : V) :
  SumTree.wf n s -> I (SumTree._tree s) ->
  exists s', SumTree.add1 fuel s d p = Ok s' /\
    SumTree.wf n s' /\ I (SumTree._tree s') /\
    SumTree.update1 fuel (SumTree._tree s) (SumTree._idx s + n - 1) p
      = Ok (SumTree._tree s') /\
    SumTree._idx s' =
      (if (SumTree._idx s + 1 =? n)%Z then 0 else SumTree._idx s + 1)%Z /\
    SumTree._full s' =
      (if (SumTree._idx s + 1 =? n)%Z then true else SumTree._full s) /\
    SumTree._data s' = <[Z.to_nat (SumTree._idx s):=Some d]> (SumTree._data s).
Proof using Hn Hfuel P_leaf I_update1 P_all.
  intros (Hmax & Hlen & Hdata & Hidx) HI. unfold SumTree.add1.
  rewrite setitem_nonneg by lia. simpl.
  unfold SumTree.update. simpl. rewrite Hmax.
  destruct (update1_returns fuel (SumTree._tree s) (SumTree._idx s + n - 1) p
              ltac:(lia) ltac:(lia))
    as (old & tree1 & _ & Hup & _ & Hlen1 & _).
  rewrite Hup. simpl.
  assert (I tree1) as HI1.
  { eapply I_update1; eauto. apply P_all. unfold SumTree.leaf_index. lia. }
  destruct (Z.eqb_spec (SumTree._idx s + 1) n) as [Heq|Hne];
    eexists; (split; [done|]); unfold SumTree.wf; simpl;
    rewrite ?length_insert; repeat split; try done; try lia; congruence.
Qed.

Lemma add_loop_inv : forall (dps : list (D * V)) s,
  SumTree.wf n s -> I (SumTree._tree s) ->
  exists s', SumTree.add_loop fuel s dps = Ok s' /\
    SumTree.wf n s' /\ I (SumTree._tree s').
Proof using Hn Hfuel P_leaf I_update1 P_all.
  induction dps as [|[d p] dps IH]; intros s Hwf HI.
  - by exists s.
  - simpl. destruct (add1_inv s d p Hwf HI) as (s1 & -> & Hwf1 & HI1 & _).
    simpl. by apply IH.
Qed.

Lemma run_inv : forall (calls : list SumTree.call) s,
  Forall (SumTree.valid_call n) calls ->
  SumTree.wf n s -> I (SumTree._tree s) ->
  exists s', SumTree.run fuel s calls = Ok s' /\
    SumTree.wf n s' /\ I (SumTree._tree s').
Proof using Hn Hfuel P_leaf I_update1 P_all.
  induction calls as [|c calls IH]; intros s Hvalid Hwf HI.
  - by exists s.
  - inversion Hvalid as [|? ? Hc Hvalid']; subst.
    destruct c as [dataset priority|idx priorities]; simpl.
    + unfold SumTree.add.
      destruct (add_loop_inv (combine dataset priority) s Hwf HI)
        as (s1 & -> & Hwf1 & HI1).
      simpl. by apply IH.
    + assert (Forall P idx) as HP.
      { eapply Forall_impl; [exact Hc|]. exact P_all. }
      destruct (update_inv s idx priorities Hwf HP HI)
        as (s1 & -> & Hwf1 & HI1 & _).
      simpl. by apply IH.
Qed.

End SumTreeRuns.

(** ** SumTree: the sums, in exact arithmetic *)

Section SumTreeExact.
Context {V D : Type} `{ExactNum V}.
Implicit Types (tree : list V) (s : SumTree.t V D).

Lemma nadd_zero_r (a : V) : nadd a nzero = a.
Proof. by rewrite nadd_comm, nadd_zero_l. Qed.

Lemma nadd_swap (a b c : V) : nadd (nadd a b) c = nadd (nadd a c) b.
Proof. by rewrite <- !nadd_assoc, (nadd_comm b c). Qed.

Lemma nadd_delta_l (old r p : V) :
  nadd (nadd old r) (nsub p old) = nadd p r.
Proof.
  rewrite nadd_swap, (nadd_comm old), nsub_add. done.
Qed.

Lemma nadd_delta_r (l old p : V) :
  nadd (nadd l old) (nsub p old) = nadd l p.
Proof. by rewrite <- nadd_assoc, (nadd_comm old), nsub_add. Qed.

Lemma nsub_zero (a : V) : nsub a nzero = a.
Proof. by rewrite <- (nadd_zero_r (nsub a nzero)), nsub_add. Qed.

Lemma array_sum_insert (l : list V) (j : nat) (old p : V) :
  l !! j = Some old ->
  array_sum (<[j:=p]> l) = nadd (array_sum l) (nsub p old).
Proof.
  revert j. induction l as [|x l IH]; intros [|j] Hj; simpl in *; try done.
  - injection Hj as ->.
    by rewrite (nadd_comm old), nadd_delta_r, nadd_comm.
  - rewrite (IH j Hj). apply nadd_assoc.
Qed.

Lemma array_sum_zeros (k : nat) : array_sum (replicate k (nzero : V)) = nzero.
Proof. induction k as [|k IH]; simpl; [done|]. by rewrite IH, nadd_zero_l. Qed.

Lemma parent_spec (j : Z) :
  (2 * ((j - 1) / 2) + 1 = j \/ 2 * ((j - 1) / 2) + 2 = j)%Z.
Proof.
  pose proof (Z.div_mod (j - 1) 2 ltac:(lia)).
  pose proof (Z.mod_pos_bound (j - 1) 2 ltac:(lia)). lia.
Qed.

Lemma node_sum_frame tree tree' (k : Z) :
  (0 <= k)%Z ->
  tree' !! Z.to_nat k = tree !! Z.to_nat k ->
  tree' !! Z.to_nat (2 * k + 1) = tree !! Z.to_nat (2 * k + 1) ->
  tree' !! Z.to_nat (2 * k + 2) = tree !! Z.to_nat (2 * k + 2) ->
  SumTree.node_sum tree k -> SumTree.node_sum tree' k.
Proof.
  intros Hk E0 E1 E2 (v & l & r & Hv & Hl & Hr & Heq).
  exists v, l, r. rewrite E0, E1, E2. done.
Qed.

Lemma propagate_sums (n : Z) fuel : forall tree delta j tree',
  length tree = Z.to_nat (2 * n - 1) ->
  (1 <= j < 2 * n - 1)%Z ->
  SumTree.pending n tree j delta ->
  SumTree._propagate fuel tree delta j = Ok tree' ->
  SumTree.nodes_ok n tree' /\
  exists v0, tree !! 0%nat = Some v0 /\ tree' !! 0%nat = Some (nadd v0 delta).
Proof.
  induction fuel as [|fuel IH]; intros tree delta j tree' Hlen Hj Hpend Hrun;
    [done|].
  simpl in Hrun. destruct Hpend as (Hothers & v & l & r & Hv & Hl & Hr & Heq).
  pose proof (parent_bounds j ltac:(lia)) as Hp.
  pose proof (parent_spec j) as Hps.
  set (p := ((j - 1) / 2)%Z) in *.
  rewrite (getitem_lookup tree p v) in Hrun by (done || lia). simpl in Hrun.
  rewrite setitem_nonneg in Hrun by lia. simpl in Hrun.
  assert (<[Z.to_nat p:=nadd v delta]> tree !! Z.to_nat p = Some (nadd v delta))
    as Hnew by (apply list_lookup_insert_eq; lia).
  destruct (Z.eqb_spec p 0) as [Hp0|Hp0]; simpl in Hrun.
  - injection Hrun as <-. split.
    + intros k Hk. destruct (decide (k = p)) as [->|Hkp].
      * exists (nadd v delta), l, r. split; [done|].
        rewrite !list_lookup_insert_ne by lia. done.
      * apply (node_sum_frame tree); [lia|..|by apply Hothers];
          apply list_lookup_insert_ne; lia.
    + exists v. rewrite Hp0 in *. done.
  - pose proof (parent_bounds p ltac:(lia)) as Hpp.
    pose proof (parent_spec p) as Hpps.
    assert (SumTree.pending n (<[Z.to_nat p:=nadd v delta]> tree) p delta)
      as Hpend1; last first.
    { destruct (IH (<[Z.to_nat p:=nadd v delta]> tree) delta p tree')
        as (Hok & v0 & Hv0 & Hv0'); [by rewrite length_insert|lia|done|done|].
      split; [done|]. exists v0. split; [|done].
      rewrite list_lookup_insert_ne in Hv0 by lia. done. }
    split.
    + intros k Hk Hkpp. destruct (decide (k = p)) as [->|Hkp].
      * exists (nadd v delta), l, r. split; [done|].
        rewrite !list_lookup_insert_ne by lia. done.
      * apply (node_sum_frame tree); [lia|..|by apply Hothers];
          apply list_lookup_insert_ne; lia.
    + destruct (Hothers ((p - 1) / 2)%Z ltac:(lia) ltac:(lia))
        as (v1 & l1 & r1 & Hv1 & Hl1 & Hr1 & Heq1).
      destruct Hpps as [Hleft|Hright].
      * exists v1, (nadd v delta), r1.
        rewrite Hleft. split; [by rewrite list_lookup_insert_ne by lia|].
        split; [done|]. split; [by rewrite list_lookup_insert_ne by lia|].
        rewrite Hleft in Hl1. assert (l1 = v) as -> by congruence.
        rewrite Heq1. apply nadd_swap.
      * exists v1, l1, (nadd v delta).
        rewrite Hright. split; [by rewrite list_lookup_insert_ne by lia|].
        split; [by rewrite list_lookup_insert_ne by lia|]. split; [done|].
        rewrite Hright in Hr1. assert (r1 = v) as -> by congruence.
        rewrite Heq1. symmetry. apply nadd_assoc.
Qed.

Lemma update1_sums (n : Z) fuel tree i p tree' :
  (2 <= n)%Z -> (Z.to_nat (2 * n - 1) <= fuel)%nat ->
  length tree = Z.to_nat (2 * n - 1) -> SumTree.leaf_index n i ->
  SumTree.nodes_ok n tree /\ SumTree.root_total n tree ->
  SumTree.update1 fuel tree i p = Ok tree' ->
  SumTree.nodes_ok n tree' /\ SumTree.root_total n tree'.
Proof.
  intros Hn Hfuel Hlen Hi [Hok Hroot] Hrun. unfold SumTree.leaf_index in Hi.
  destruct (update1_returns fuel tree i p ltac:(lia) ltac:(lia))
    as (old & tree1 & Hold & Hup & Hprop & Hlen1 & Hleaf & Hframe).
  rewrite Hup in Hrun. injection Hrun as ->.
  pose proof (parent_bounds i ltac:(lia)) as Hp.
  pose proof (parent_spec i) as Hps.
  destruct (propagate_sums n fuel (<[Z.to_nat i:=p]> tree) (nsub p old) i tree')
    as (Hok' & v0 & Hv0 & Hv0'); [by rewrite length_insert|lia| |done|].
  { split.
    - intros k Hk Hkp.
      apply (node_sum_frame tree); [lia|..|by apply Hok];
        apply list_lookup_insert_ne; lia.
    - destruct (Hok ((i - 1) / 2)%Z ltac:(lia))
        as (v & l & r & Hv & Hl & Hr & Heq).
      destruct Hps as [Hleft|Hright].
      + exists v, p, r. rewrite Hleft.
        split; [by rewrite list_lookup_insert_ne by lia|].
        split; [apply list_lookup_insert_eq; lia|].
        split; [by rewrite list_lookup_insert_ne by lia|].
        rewrite Hleft in Hl. assert (l = old) as -> by congruence.
        rewrite Heq. apply nadd_delta_l.
      + exists v, l, p. rewrite Hright.
        split; [by rewrite list_lookup_insert_ne by lia|].
        split; [by rewrite list_lookup_insert_ne by lia|].
        split; [apply list_lookup_insert_eq; lia|].
        rewrite Hright in Hr. assert (r = old) as -> by congruence.
        rewrite Heq. apply nadd_delta_r. }
  split; [done|]. unfold SumTree.root_total in *.
  rewrite list_lookup_insert_ne in Hv0 by lia.
  rewrite Hv0'. f_equal.
  assert (drop (Z.to_nat (n - 1)) tree'
          = <[Z.to_nat (i - (n - 1)):=p]> (drop (Z.to_nat (n - 1)) tree))
    as ->.
  { apply list_eq. intros k. rewrite lookup_drop.
    destruct (decide (k = Z.to_nat (i - (n - 1)))) as [->|Hk].
    - rewrite list_lookup_insert_eq by (rewrite length_drop; lia).
      replace (Z.to_nat (n - 1) + Z.to_nat (i - (n - 1)))%nat
        with (Z.to_nat i) by lia. done.
    - rewrite list_lookup_insert_ne by done. rewrite lookup_drop.
      apply Hframe; lia. }
  rewrite (array_sum_insert _ _ old).
  - congruence.
  - rewrite lookup_drop.
    replace (Z.to_nat (n - 1) + Z.to_nat (i - (n - 1)))%nat
      with (Z.to_nat i) by lia. done.
Qed.

Lemma init_returns (n : Z) :
  (1 <= n)%Z ->
  exists s : SumTree.t V D, SumTree.init n = Ok s /\ SumTree.wf n s /\
    SumTree._tree s = replicate (Z.to_nat (2 * n - 1)) nzero /\
    SumTree._idx s = 0%Z /\ SumTree._full s = false.
Proof.
  intros Hn. unfold SumTree.init.
  destruct (Z.ltb_spec (2 * n - 1) 0); [lia|].
  eexists. split; [done|]. unfold SumTree.wf. simpl.
  rewrite !length_replicate. repeat split; try done; lia.
Qed.

Lemma zeros_sums (n : Z) :
  (1 <= n)%Z ->
  SumTree.nodes_ok n (replicate (Z.to_nat (2 * n - 1)) (nzero : V)) /\
  SumTree.root_total n (replicate (Z.to_nat (2 * n - 1)) (nzero : V)).
Proof.
  intros Hn. split.
  - intros i Hi. exists nzero, nzero, nzero.
    rewrite !lookup_replicate_2 by lia. by rewrite nadd_zero_l.
  - unfold SumTree.root_total. rewrite drop_replicate, array_sum_zeros.
    apply lookup_replicate_2. lia.
Qed.

Lemma leaves_drop (n : Z) s :
  (1 <= n)%Z -> SumTree.wf n s ->
  SumTree.leaves s = drop (Z.to_nat (n - 1)) (SumTree._tree s).
Proof.
  intros Hn (Hmax & Hlen & _). unfold SumTree.leaves, slice_from.
  rewrite Hmax, Hlen. destruct (Z.ltb_spec (- n) 0); [|lia].
  f_equal. lia.
Qed.

Lemma sums_of_tree (n : Z) s :
  (1 <= n)%Z -> SumTree.wf n s ->
  SumTree.nodes_ok n (SumTree._tree s) /\ SumTree.root_total n (SumTree._tree s) ->
  SumTree.sum_invariant s /\ SumTree.root_is_total s.
Proof.
  intros Hn Hwf [Hok Hroot]. pose proof Hwf as (Hmax & Hlen & _). split.
  - unfold SumTree.sum_invariant. by rewrite Hmax.
  - unfold SumTree.root_is_total, SumTree.total_p.
    rewrite (leaves_drop n) by done.
    apply getitem_lookup; [lia|done].
Qed.

End SumTreeExact.

(** ** The rationals are exact *)

#[export] Instance ExactNum_Qc : ExactNum Qc.
Proof.
  split; simpl.
  - apply Qcplus_comm.
  - apply Qcplus_assoc.
  - apply Qcplus_0_l.
  - intros a b. unfold Qcminus. rewrite <- Qcplus_assoc, (Qcplus_comm (- b)).
    rewrite Qcplus_opp_r. apply Qcplus_0_r.
  - intros a b. split; [apply Qc_eq_bool_correct|].
    intros ->. unfold Qc_eq_bool. destruct (Qcanon.Qc_eq_dec b b); congruence.
Qed.

(** ** C1: the sum-tree invariant *)

Lemma run_sums {V D : Type} `{ExactNum V} (n : Z) (fuel : nat)
    (calls : list (@SumTree.call V D)) :
  (2 <= n)%Z -> (Z.to_nat (2 * n - 1) <= fuel)%nat ->
  Forall (SumTree.valid_call n) calls ->
  exists s0 s, SumTree.init n = Ok s0 /\ SumTree.run fuel s0 calls = Ok s /\
    SumTree.wf n s /\ SumTree.nodes_ok n (SumTree._tree s) /\
    SumTree.root_total n (SumTree._tree s).
Proof.
  intros Hn Hfuel Hvalid.
  destruct (init_returns (V:=V) (D:=D) n ltac:(lia))
    as (s0 & Hinit & Hwf0 & Htree0 & _).
  assert (forall tree i p tree',
    length tree = Z.to_nat (2 * n - 1) -> SumTree.leaf_index n i ->
    SumTree.nodes_ok n tree /\ SumTree.root_total n tree ->
    SumTree.update1 fuel tree i p = Ok tree' ->
    SumTree.nodes_ok n tree' /\ SumTree.root_total n tree') as Hkeep.
  { intros tree i p tree' Hlen Hi Hsums Hup.
    by apply (update1_sums n fuel tree i p tree'). }
  destruct (run_inv n fuel _ (SumTree.leaf_index n) Hn Hfuel
              ltac:(done) Hkeep ltac:(done) calls s0)
    as (s & Hrun & Hwf & Hok & Hroot).
  - done.
  - done.
  - rewrite Htree0. apply zeros_sums. lia.
  - by exists s0, s.
Qed.

(** C1 (as amended): in exact arithmetic, for every SumTree with
    max_size >= 2, after any sequence of add and update calls (updates on
    leaf indices) every call returns, every internal node holds the sum of
    its two children and total_p is the sum of all leaf values. *)
Theorem sum_tree_invariant_exact {V D : Type} `{ExactNum V}
    (max_size : Z) (calls : list (@SumTree.call V D)) (fuel : nat) :
  (2 <= max_size)%Z ->
  Forall (SumTree.valid_call max_size) calls ->
  (Z.to_nat (2 * max_size - 1) <= fuel)%nat ->
  exists s0 s,
    SumTree.init max_size = Ok s0 /\
    SumTree.run fuel s0 calls = Ok s /\
    SumTree.sum_invariant s /\ SumTree.root_is_total s.
Proof.
  intros Hn Hvalid Hfuel.
  destruct (run_sums max_size fuel calls Hn Hfuel Hvalid)
    as (s0 & s & Hinit & Hrun & Hwf & Hsums).
  exists s0, s. split; [done|]. split; [done|].
  apply (sums_of_tree max_size); [lia|done|done].
Qed.

Lemma sum_tree_invariant_exact_witness :
  Forall (SumTree.valid_call 2) Examples.exact_calls /\
  exists s0 s,
    Examples.exact_tree 2 = Ok s0 /\
    SumTree.run 3 s0 Examples.exact_calls = Ok s /\
    SumTree.sum_invariant s /\ SumTree.root_is_total s.
Proof.
  assert (Forall (SumTree.valid_call (V:=Qc) (D:=nat) 2) Examples.exact_calls)
    as Hvalid.
  { repeat constructor; unfold SumTree.leaf_index; lia. }
  split; [exact Hvalid|].
  apply (sum_tree_invariant_exact 2 Examples.exact_calls 3);
    [lia|exact Hvalid|simpl; lia].
Defined.

(** C1 (as stated) fails in binary64, the arithmetic of the code: after
    priorities 1e16 and 1 are added and the first is updated to 0, the root is
    0 while the leaves are 0 and 1. *)
Lemma sum_tree_invariant_float_counterexample :
  Forall (SumTree.valid_call 2) Examples.rounding_calls /\
  exists s,
    (s0 <- Examples.float_tree 2 ;; SumTree.run 3 s0 Examples.rounding_calls)
      = Ok s /\
    SumTree._tree s = [0%float; 0%float; 1%float] /\
    ~ SumTree.sum_invariant s /\ ~ SumTree.root_is_total s.
Proof.
  split.
  { repeat constructor; unfold SumTree.leaf_index; lia. }
  eexists. split; [vm_compute; reflexivity|]. split; [reflexivity|].
  assert (0%float <> 1%float) as Hne.
  { intros Heq. apply (f_equal (fun x => PrimFloat.eqb x 0)) in Heq.
    vm_compute in Heq. discriminate. }
  split.
  - intros Hinv. destruct (Hinv 0%Z ltac:(simpl; lia))
      as (v & l & r & Hv & Hl & Hr & Heq).
    vm_compute in Hv, Hl, Hr.
    apply (inj Some) in Hv, Hl, Hr. subst v l r.
    vm_compute in Heq. by apply Hne.
  - intros Hroot.
    apply (f_equal (fun r => match r with Ok x => x | _ => 0%float end))
      in Hroot.
    vm_compute in Hroot. by apply Hne.
Qed.

(** ** C10: termination of the two recursions *)

Lemma run_wf {V D : Type} `{Num V} (n : Z) (fuel : nat)
    (calls : list (@SumTree.call V D)) :
  (2 <= n)%Z -> (Z.to_nat (2 * n - 1) <= fuel)%nat ->
  Forall (SumTree.valid_call n) calls ->
  exists s0 s, SumTree.init n = Ok s0 /\ SumTree.run fuel s0 calls = Ok s /\
    SumTree.wf n s.
Proof.
  intros Hn Hfuel Hvalid.
  destruct (init_returns (V:=V) (D:=D) n ltac:(lia)) as (s0 & Hinit & Hwf0 & _).
  destruct (run_inv n fuel (fun _ => True) (SumTree.leaf_index n) Hn Hfuel
              ltac:(done) ltac:(done) ltac:(done) calls s0)
    as (s & Hrun & Hwf & _); [done..|].
  by exists s0, s.
Qed.

Lemma update_nonroot_returns {V D : Type} `{Num V} (n : Z) (fuel : nat)
    (s : SumTree.t V D) (idx : list Z) (priorities : list V) :
  SumTree.wf n s -> (Z.to_nat (2 * n - 1) <= fuel)%nat ->
  Forall (fun i => 1 <= i <= 2 * n - 2)%Z idx ->
  exists s', SumTree.update fuel s idx priorities = Ok s' /\ SumTree.wf n s'.
Proof.
  intros (Hmax & Hlen & Hdata & Hidx) Hfuel Hvalid. unfold SumTree.update.
  destruct (update_loop_returns fuel (combine idx priorities) (SumTree._tree s))
    as (tree' & -> & Hlen').
  - apply Forall_combine_fst with (Q := fun i => (1 <= i < _)%Z).
    eapply Forall_impl; [exact Hvalid|]. simpl. intros i Hi. lia.
  - lia.
  - simpl. eexists. split; [done|]. unfold SumTree.wf. simpl.
    repeat split; try done; try lia; congruence.
Qed.

(** C10 (as amended): for every SumTree constructed with max_size >= 2 and
    driven by add and leaf update calls, every update call on non-root tree
    indices 1 .. 2*max_size-2 (every leaf among them) returns, and every get
    call returns, at a leaf; a recursion budget of the array length is
    enough for both. *)
Theorem tree_recursion_terminates {V D : Type} `{Num V}
    (max_size : Z) (calls : list (@SumTree.call V D)) (fuel : nat) :
  (2 <= max_size)%Z ->
  Forall (SumTree.valid_call max_size) calls ->
  (Z.to_nat (2 * max_size - 1) <= fuel)%nat ->
  exists s0 s,
    SumTree.init max_size = Ok s0 /\
    SumTree.run fuel s0 calls = Ok s /\
    (forall idx priorities,
       Forall (fun i => 1 <= i <= 2 * max_size - 2)%Z idx ->
       exists s', SumTree.update fuel s idx priorities = Ok s') /\
    (forall rng x,
       exists j v d, SumTree.get fuel rng s x = Ok (j, v, d) /\
         (2 * max_size - 1 <= 2 * j + 1)%Z).
Proof.
  intros Hn Hvalid Hfuel.
  destruct (run_wf max_size fuel calls Hn Hfuel Hvalid)
    as (s0 & s & Hinit & Hrun & Hwf).
  exists s0, s. split; [done|]. split; [done|]. split.
  - intros idx priorities Hidx.
    destruct (update_nonroot_returns max_size fuel s idx priorities Hwf Hfuel Hidx)
      as (s' & Hup & _).
    by exists s'.
  - intros rng x.
    destruct (get_returns fuel rng s x max_size Hwf ltac:(lia) Hfuel)
      as (j & v & d & Hget & Hleaf & _).
    exists j, v, d. split; [done|]. unfold SumTree.leaf_index in Hleaf. lia.
Qed.

Lemma tree_recursion_terminates_witness :
  (2 <= 2)%Z /\
  Forall (SumTree.valid_call 2) Examples.rounding_calls /\
  exists s0 s,
    Examples.float_tree 2 = Ok s0 /\
    SumTree.run 3 s0 Examples.rounding_calls = Ok s /\
    (forall idx priorities,
       Forall (fun i => 1 <= i <= 2 * 2 - 2)%Z idx ->
       exists s', SumTree.update 3 s idx priorities = Ok s') /\
    (forall rng x,
       exists j v d, SumTree.get 3 rng s x = Ok (j, v, d) /\
         (2 * 2 - 1 <= 2 * j + 1)%Z).
Proof.
  assert (Forall (SumTree.valid_call (V:=float) (D:=nat) 2)
            Examples.rounding_calls) as Hvalid.
  { repeat constructor; unfold SumTree.leaf_index; lia. }
  split; [lia|]. split; [exact Hvalid|].
  apply (tree_recursion_terminates 2 Examples.rounding_calls 3);
    [lia|exact Hvalid|simpl; lia].
Defined.

Lemma update_root_diverges {V D : Type} `{Num V} (fuel : nat)
    (s : SumTree.t V D) (p : V) :
  SumTree._tree s <> [] -> SumTree.update fuel s [0%Z] [p] = OutOfFuel.
Proof.
  intros Hne. unfold SumTree.update. simpl. unfold SumTree.update1.
  assert (0 < length (SumTree._tree s))%nat
    by (destruct (SumTree._tree s); [done|simpl; lia]).
  destruct (getitem_nonneg (SumTree._tree s) 0 ltac:(lia)) as (old & _ & ->).
  simpl. rewrite setitem_nonneg by lia. simpl.
  rewrite propagate_from_root; [done|].
  intros Heq. apply (f_equal length) in Heq.
  rewrite length_insert in Heq. simpl in Heq. lia.
Qed.

(** C10 (as stated) fails at the root, which is a valid tree index: the
    recursion of update([0], [p]) steps from index 0 to index -1 and stays
    there, whatever the recursion budget. *)
Lemma update_root_counterexample :
  exists s0,
    Examples.float_tree 2 = Ok s0 /\
    (0 <= 0 < Z.of_nat (length (SumTree._tree s0)))%Z /\
    forall fuel, SumTree.update fuel s0 [0%Z] [1%float] = OutOfFuel.
Proof.
  eexists. split; [reflexivity|]. split; [simpl; lia|].
  intros fuel. by apply update_root_diverges.
Qed.

(** With a single leaf the leaf is the root: the first add never returns. *)
Lemma single_leaf_add_diverges {V D : Type} `{Num V} (d : D) (p : V)
    (fuel : nat) :
  (s0 <- SumTree.init 1 ;; SumTree.add fuel s0 [d] [p]) = OutOfFuel.
Proof. unfold SumTree.init. simpl.
  unfold SumTree.add. simpl. unfold SumTree.add1. cbn -[SumTree.update].
  change (0 + 1 - 1)%Z with 0%Z.
  change (setitem [None] 0 (Some d)) with (Ok [Some d]).
  cbn -[SumTree.update]. by rewrite update_root_diverges.
Qed.

(** ** C8: get does not check its argument *)

(** C8 (as amended): get performs no range check.  For every SumTree
    constructed with max_size >= 2 and every value s whatsoever, inside or
    outside [0, total_priority), get(s) returns normally the index, the
    priority and the payload of some leaf. *)
Theorem get_returns_a_leaf_for_any_value {V D : Type} `{Num V}
    (max_size : Z) (calls : list (@SumTree.call V D)) (fuel : nat)
    (rng : nat -> bool) (x : V) :
  (2 <= max_size)%Z ->
  Forall (SumTree.valid_call max_size) calls ->
  (Z.to_nat (2 * max_size - 1) <= fuel)%nat ->
  exists s0 s j v d,
    SumTree.init max_size = Ok s0 /\
    SumTree.run fuel s0 calls = Ok s /\
    SumTree.get fuel rng s x = Ok (j, v, d) /\
    SumTree.leaf_index max_size j /\
    SumTree._tree s !! Z.to_nat j = Some v /\
    SumTree._data s !! Z.to_nat (j - max_size + 1) = Some d.
Proof.
  intros Hn Hvalid Hfuel.
  destruct (run_wf max_size fuel calls Hn Hfuel Hvalid)
    as (s0 & s & Hinit & Hrun & Hwf).
  destruct (get_returns fuel rng s x max_size Hwf ltac:(lia) Hfuel)
    as (j & v & d & Hget).
  by exists s0, s, j, v, d.
Qed.

Lemma get_returns_a_leaf_for_any_value_witness :
  Forall (SumTree.valid_call 2) Examples.rounding_calls /\
  exists s0 s j v d,
    Examples.float_tree 2 = Ok s0 /\
    SumTree.run 3 s0 Examples.rounding_calls = Ok s /\
    SumTree.get 3 (fun _ => false) s 100%float = Ok (j, v, d) /\
    SumTree.leaf_index 2 j /\
    SumTree._tree s !! Z.to_nat j = Some v /\
    SumTree._data s !! Z.to_nat (j - 2 + 1) = Some d.
Proof.
  assert (Forall (SumTree.valid_call (V:=float) (D:=nat) 2)
            Examples.rounding_calls) as Hvalid.
  { repeat constructor; unfold SumTree.leaf_index; lia. }
  split; [exact Hvalid|].
  apply (get_returns_a_leaf_for_any_value 2 Examples.rounding_calls 3);
    [lia|exact Hvalid|simpl; lia].
Defined.

(** C8 (as stated) fails: with leaves 1 and 2 the total priority is 3, and
    get(100) and get(-5) both return a leaf instead of raising. *)
Lemma get_out_of_range_counterexample :
  exists s,
    Examples.two_leaves = Ok s /\
    SumTree.total_p s = Ok 3%float /\
    SumTree.get 3 (fun _ => false) s 100%float = Ok (2%Z, 2%float, Some 1%nat) /\
    SumTree.get 3 (fun _ => false) s (-5)%float = Ok (1%Z, 1%float, Some 0%nat).
Proof.
  eexists. split; [vm_compute; reflexivity|].
  split; [vm_compute; reflexivity|].
  split; vm_compute; reflexivity.
Qed.

(** ** C3: sampling a tree with a single nonzero leaf *)

Section OnPath.
Implicit Types (m k : Z).

Lemma on_path_le m k : SumTree.on_path m k -> (k <= m)%Z.
Proof.
  induction 1 as [|k Hk _ IH]; [lia|].
  pose proof (parent_bounds k Hk). lia.
Qed.

Lemma on_path_proper m k :
  SumTree.on_path m k -> k <> m -> SumTree.on_path ((m - 1) / 2) k /\ (1 <= m)%Z.
Proof.
  induction 1 as [|k Hk Hpath IH]; intros Hne; [done|].
  destruct (decide (k = m)) as [->|Hkm].
  - split; [constructor|done].
  - destruct (IH Hkm) as [Hup Hm]. split; [by constructor|done].
Qed.

Lemma on_path_chain m a b :
  SumTree.on_path m a -> SumTree.on_path m b ->
  SumTree.on_path b a \/ SumTree.on_path a b.
Proof.
  induction 1 as [|k Hk Hpath IH]; intros Hb; [by right|].
  destruct (IH Hb) as [Hbk|Hkb].
  - left. by constructor.
  - destruct (decide (b = k)) as [->|Hne].
    + left. constructor; [done|constructor].
    + right. by apply on_path_proper.
Qed.

Lemma on_path_siblings m k :
  (0 <= k)%Z -> SumTree.on_path m (2 * k + 1) -> SumTree.on_path m (2 * k + 2) ->
  False.
Proof.
  intros Hk Hl Hr. destruct (on_path_chain m _ _ Hl Hr) as [Hrl|Hlr].
  - destruct (on_path_proper _ _ Hrl ltac:(lia)) as [Hup _].
    apply on_path_le in Hup. pose proof (parent_spec (2 * k + 2)). lia.
  - apply on_path_le in Hlr. lia.
Qed.

Lemma on_path_child m k :
  SumTree.on_path m k -> k <> m ->
  SumTree.on_path m (2 * k + 1) \/ SumTree.on_path m (2 * k + 2).
Proof.
  destruct 1 as [|k Hk Hpath]; intros Hne; [done|].
  destruct (parent_spec k) as [->| ->]; auto.
Qed.

Lemma on_path_of_child m k c :
  (0 <= k)%Z -> (c = 2 * k + 1 \/ c = 2 * k + 2)%Z ->
  SumTree.on_path m c -> SumTree.on_path m k.
Proof.
  intros Hk Hc Hpath. replace k with ((c - 1) / 2)%Z.
  - constructor; [lia|done].
  - pose proof (parent_spec c). lia.
Qed.

Lemma on_path_leaf n m k :
  SumTree.leaf_index n m -> SumTree.leaf_index n k ->
  SumTree.on_path m k -> k = m.
Proof.
  unfold SumTree.leaf_index. intros Hm Hk Hpath.
  destruct Hpath as [|k' Hk' Hpath]; [done|].
  apply on_path_le in Hpath. pose proof (parent_spec k'). lia.
Qed.

End OnPath.

Section SingleLeaf.
Context {V D : Type} `{ExactNum V}.
Variables (n m : Z) (ten : V) (tree : list V).
Hypothesis Hlen : length tree = Z.to_nat (2 * n - 1).
Hypothesis Hok : SumTree.nodes_ok n tree.
Hypothesis Hm : SumTree.leaf_index n m.
Hypothesis Hten : tree !! Z.to_nat m = Some ten.
Hypothesis Hzero : forall k,
  SumTree.leaf_index n k -> k <> m -> tree !! Z.to_nat k = Some nzero.
Hypothesis Hnz : ten <> nzero.

(** Every node on the way to the written leaf holds its priority, every
    other node holds zero. *)
Lemma single_values (d : nat) : forall k,
  (0 <= k < 2 * n - 1)%Z -> (Z.to_nat (2 * n - 1 - k) <= d)%nat ->
  (SumTree.on_path m k -> tree !! Z.to_nat k = Some ten) /\
  (~ SumTree.on_path m k -> tree !! Z.to_nat k = Some nzero).
Proof.
  induction d as [|d IH]; intros k Hk Hd; [lia|].
  destruct (Z.le_gt_cases (n - 1) k) as [Hleaf|Hint].
  - assert (SumTree.leaf_index n k) as Hlf by (unfold SumTree.leaf_index; lia).
    split.
    + intros Hpath. by rewrite (on_path_leaf n m k Hm Hlf Hpath).
    + intros Hnot. apply Hzero; [done|]. intros ->. apply Hnot. constructor.
  - destruct (Hok k ltac:(lia)) as (v & l & r & Hv & Hl & Hr & Heq).
    destruct (IH (2 * k + 1)%Z ltac:(lia) ltac:(lia)) as [Hl1 Hl0].
    destruct (IH (2 * k + 2)%Z ltac:(lia) ltac:(lia)) as [Hr1 Hr0].
    rewrite Hv, Heq. split.
    + intros Hpath. unfold SumTree.leaf_index in Hm.
      destruct (on_path_child m k Hpath ltac:(lia)) as [Hc|Hc].
      * rewrite Hl1 in Hl by done. rewrite Hr0 in Hr.
        { injection Hl as <-. injection Hr as <-. by rewrite nadd_zero_r. }
        intros Hc'. apply (on_path_siblings m k); [lia|done|done].
      * rewrite Hr1 in Hr by done. rewrite Hl0 in Hl.
        { injection Hl as <-. injection Hr as <-. by rewrite nadd_zero_l. }
        intros Hc'. apply (on_path_siblings m k); [lia|done|done].
    + intros Hnot. rewrite Hl0 in Hl. rewrite Hr0 in Hr.
      * injection Hl as <-. injection Hr as <-. by rewrite nadd_zero_l.
      * intros Hc. apply Hnot. apply (on_path_of_child m k (2 * k + 2)); [lia|lia|done].
      * intros Hc. apply Hnot. apply (on_path_of_child m k (2 * k + 1)); [lia|lia|done].
Qed.

Lemma retrieve_single (fuel : nat) : forall (rng : nat -> bool) (x : V) (i : Z),
  SumTree.on_path m i -> (0 <= i)%Z ->
  nleb x nzero = false -> nleb x ten = true ->
  (Z.to_nat (2 * n - 1 - i) <= fuel)%nat ->
  SumTree._retrieve fuel rng tree x i = Ok m.
Proof.
  assert (neqb ten nzero = false) as Hne1.
  { destruct (neqb ten nzero) eqn:E; [|done]. by apply neqb_eq in E. }
  assert (neqb nzero ten = false) as Hne2.
  { destruct (neqb nzero ten) eqn:E; [|done]. by apply neqb_eq in E. }
  induction fuel as [|fuel IH]; intros rng x i Hpath Hi Hx0 Hx10 Hfuel.
  { pose proof (on_path_le _ _ Hpath). unfold SumTree.leaf_index in Hm. lia. }
  pose proof (on_path_le _ _ Hpath) as Hle. pose proof Hm as Hm'.
  unfold SumTree.leaf_index in Hm'.
  simpl. rewrite Hlen.
  destruct (Z.leb_spec (Z.of_nat (Z.to_nat (2 * n - 1))) (2 * i + 1)) as [Hleaf|Hint].
  - f_equal. apply (on_path_leaf n m i); [done| |done].
    unfold SumTree.leaf_index. lia.
  - assert (i <> m) as Him by lia.
    destruct (single_values (Z.to_nat (2 * n - 1)) (2 * i + 1)%Z
                ltac:(lia) ltac:(lia)) as [Hl1 Hl0].
    destruct (single_values (Z.to_nat (2 * n - 1)) (2 * i + 2)%Z
                ltac:(lia) ltac:(lia)) as [Hr1 Hr0].
    replace (2 * i + 1 + 1)%Z with (2 * i + 2)%Z by lia.
    destruct (on_path_child m i Hpath Him) as [Hc|Hc].
    + rewrite (getitem_lookup tree (2 * i + 1) ten) by (lia || auto).
      rewrite (getitem_lookup tree (2 * i + 2) nzero).
      2: lia.
      2:{ apply Hr0. intros Hc'. apply (on_path_siblings m i); [lia|done|done]. }
      simpl. rewrite Hne1, Hx10. apply IH; [done|lia|done|done|lia].
    + rewrite (getitem_lookup tree (2 * i + 1) nzero).
      2: lia.
      2:{ apply Hl0. intros Hc'. apply (on_path_siblings m i); [lia|done|done]. }
      rewrite (getitem_lookup tree (2 * i + 2) ten) by (lia || auto).
      simpl. rewrite Hne2, Hx0, nsub_zero. apply IH; [done|lia|done|done|lia].
Qed.

End SingleLeaf.

Lemma on_path_root (d : nat) : forall m k,
  (0 <= k)%Z -> (Z.to_nat k <= d)%nat ->
  SumTree.on_path m k -> SumTree.on_path m 0.
Proof.
  induction d as [|d IH]; intros m k Hk Hd Hpath.
  - by replace 0%Z with k by lia.
  - destruct (decide (k = 0%Z)) as [->|Hne]; [done|].
    pose proof (parent_bounds k ltac:(lia)).
    apply (IH m ((k - 1) / 2)%Z); [lia|lia|]. constructor; [lia|done].
Qed.

Lemma Qc_leb_false (x y : Qc) : (y < x)%Qc -> Qc_leb x y = false.
Proof.
  intros Hlt. unfold Qc_leb. destruct (Qle_bool x y) eqn:E; [|done].
  apply Qle_bool_iff in E. exfalso. by apply (Qlt_not_le y x).
Qed.

Lemma Qc_leb_true (x y : Qc) : (x <= y)%Qc -> Qc_leb x y = true.
Proof. intros Hle. unfold Qc_leb. by apply Qle_bool_iff. Qed.

(** C3 (as amended): in exact arithmetic, for every SumTree whose leaves
    are one leaf of value 10 and zeros elsewhere, get(s) returns that leaf
    for every s with 0 < s < 10 and every outcome of the tie-breaking
    draws. *)
Theorem get_single_nonzero_leaf {D : Type} (max_size : Z)
    (calls : list (@SumTree.call Qc D)) (fuel : nat)
    (s0 s : SumTree.t Qc D) (j : Z) (rng : nat -> bool) (x : Qc) :
  (2 <= max_size)%Z ->
  Forall (SumTree.valid_call max_size) calls ->
  (Z.to_nat (2 * max_size - 1) <= fuel)%nat ->
  SumTree.init max_size = Ok s0 ->
  SumTree.run fuel s0 calls = Ok s ->
  (0 <= j < max_size)%Z ->
  SumTree.leaves s
    = <[Z.to_nat j:=Qc_of_Z 10]> (replicate (Z.to_nat max_size) (Qc_of_Z 0)) ->
  (Qc_of_Z 0 < x)%Qc -> (x < Qc_of_Z 10)%Qc ->
  exists d,
    SumTree.get fuel rng s x = Ok ((j + max_size - 1)%Z, Qc_of_Z 10, d) /\
    SumTree._data s !! Z.to_nat j = Some d.
Proof.
  intros Hn Hvalid Hfuel Hinit Hrun Hj Hleaves Hx0 Hx10.
  destruct (run_sums max_size fuel calls Hn Hfuel Hvalid)
    as (s0' & s' & Hinit' & Hrun' & Hwf & Hok & _).
  rewrite Hinit in Hinit'. injection Hinit' as <-.
  rewrite Hrun in Hrun'. injection Hrun' as <-.
  pose proof Hwf as (Hmax & Hlen & Hdata & Hidx).
  rewrite (leaves_drop max_size) in Hleaves by (lia || done).
  set (m := (j + max_size - 1)%Z).
  assert (forall k, SumTree.leaf_index max_size k ->
    SumTree._tree s !! Z.to_nat k
    = (<[Z.to_nat j:=Qc_of_Z 10]> (replicate (Z.to_nat max_size) (Qc_of_Z 0)))
        !! Z.to_nat (k - (max_size - 1))) as Hleaf.
  { intros k Hk. unfold SumTree.leaf_index in Hk. rewrite <- Hleaves.
    rewrite lookup_drop. f_equal. lia. }
  assert (SumTree._tree s !! Z.to_nat m = Some (Qc_of_Z 10)) as Hten.
  { rewrite Hleaf by (unfold SumTree.leaf_index, m; lia).
    replace (Z.to_nat (m - (max_size - 1))) with (Z.to_nat j) by (unfold m; lia).
    apply list_lookup_insert_eq. rewrite length_replicate. lia. }
  assert (forall k, SumTree.leaf_index max_size k -> k <> m ->
    SumTree._tree s !! Z.to_nat k = Some (Qc_of_Z 0)) as Hzero.
  { intros k Hk Hne. rewrite Hleaf by done. unfold SumTree.leaf_index in Hk.
    rewrite list_lookup_insert_ne by (unfold m in Hne; lia).
    apply lookup_replicate_2. lia. }
  assert (Qc_of_Z 10 <> Qc_of_Z 0) as Hnz.
  { intros Heq. apply (f_equal this) in Heq. vm_compute in Heq. discriminate. }
  unfold SumTree.get.
  rewrite (retrieve_single max_size m (Qc_of_Z 10) (SumTree._tree s)
             Hlen Hok ltac:(unfold SumTree.leaf_index, m; lia)
             Hten Hzero Hnz fuel rng x 0).
  - simpl. rewrite (getitem_lookup _ m (Qc_of_Z 10)) by (unfold m; lia || done).
    simpl. rewrite Hmax.
    destruct (getitem_nonneg (SumTree._data s) (m - max_size + 1)
                ltac:(unfold m; lia)) as (d & Hd & ->).
    simpl. exists d. split; [done|].
    by replace (Z.to_nat j) with (Z.to_nat (m - max_size + 1)) by (unfold m; lia).
  - apply (on_path_root (Z.to_nat m) m m); [unfold m; lia|lia|constructor].
  - lia.
  - by apply Qc_leb_false.
  - apply Qc_leb_true. by apply Qclt_le_weak.
  - lia.
Qed.

Lemma get_single_nonzero_leaf_witness :
  exists s0 s,
    Examples.exact_tree 3 = Ok s0 /\
    SumTree.run 5 s0 Examples.single_ten_calls = Ok s /\
    SumTree.leaves s = [Qc_of_Z 10; Qc_of_Z 0; Qc_of_Z 0] /\
    exists d,
      SumTree.get 5 (fun _ => true) s (Q2Qc (1 # 2)) = Ok (2%Z, Qc_of_Z 10, d) /\
      SumTree._data s !! 0%nat = Some d.
Proof.
  eexists. eexists. split; [reflexivity|].
  split; [vm_compute; reflexivity|].
  split; [vm_compute; reflexivity|].
  eapply (get_single_nonzero_leaf 3 Examples.single_ten_calls 5 _ _ 0
            (fun _ => true) (Q2Qc (1 # 2))).
  - lia.
  - repeat constructor.
  - simpl. lia.
  - reflexivity.
  - vm_compute. reflexivity.
  - lia.
  - vm_compute. reflexivity.
  - reflexivity.
  - reflexivity.
Defined.

(** C3 (as stated) fails at s = 0 when the written leaf is a right child:
    with three leaf slots the first leaf is node 2, the right child of the
    root; 0 <= 0 sends the descent left, into the zero subtree, where the tie
    between nodes 3 and 4 is drawn at random. *)
Lemma get_single_nonzero_leaf_counterexample :
  exists s,
    Examples.single_ten = Ok s /\
    SumTree.leaves s = [10%float; 0%float; 0%float] /\
    SumTree.get 5 (fun _ => false) s 0%float = Ok (3%Z, 0%float, None) /\
    SumTree.get 5 (fun _ => true) s 0%float = Ok (4%Z, 0%float, None).
Proof.
  eexists. split; [vm_compute; reflexivity|].
  split; [vm_compute; reflexivity|].
  split; vm_compute; reflexivity.
Qed.

(** ** C7: max_p *)

Section MaxP.
Context {V D : Type} `{Num V}.
Variable n : Z.
Variable fuel : nat.
Hypothesis Hn : (2 <= n)%Z.
Hypothesis Hfuel : (Z.to_nat (2 * n - 1) <= fuel)%nat.
Implicit Types (s : SumTree.t V D).

Lemma update1_keeps_other_leaves (tree : list V) i p tree' (k : Z) :
  length tree = Z.to_nat (2 * n - 1) -> SumTree.leaf_index n i ->
  SumTree.update1 fuel tree i p = Ok tree' ->
  SumTree.leaf_index n k -> k <> i ->
  tree' !! Z.to_nat k = tree !! Z.to_nat k.
Proof using Hn Hfuel.
  unfold SumTree.leaf_index. intros Hlen Hi Hup Hk Hne.
  destruct (update1_returns fuel tree i p ltac:(lia) ltac:(lia))
    as (old & tree1 & _ & Hup1 & _ & _ & _ & Hframe).
  rewrite Hup in Hup1. injection Hup1 as <-.
  pose proof (parent_spec i). apply Hframe; lia.
Qed.

Lemma fresh_update s (k : Z) idx (ps : list V) :
  SumTree.fresh_from n k s ->
  Forall (fun i => n - 1 <= i < n - 1 + k)%Z idx ->
  exists s', SumTree.update fuel s idx ps = Ok s' /\ SumTree.fresh_from n k s'.
Proof using Hn Hfuel.
  intros (Hwf & Hfull & Hidx & Hzero) Hvalid.
  pose proof Hwf as (_ & _ & _ & Hk).
  destruct (update_inv (D:=D) n fuel
              (fun tree => forall i, (k <= i < n)%Z ->
                 tree !! Z.to_nat (n - 1 + i) = Some nzero)
              (fun i => n - 1 <= i < n - 1 + k)%Z Hn Hfuel)
    with (s := s) (idx := idx) (ps := ps)
    as (s' & Hup & Hwf' & Hzero' & Hidx' & Hfull' & _).
  - unfold SumTree.leaf_index. intros i Hi. lia.
  - intros tree i p tree' Hlen Hi Hz Hup j Hj.
    rewrite (update1_keeps_other_leaves tree i p tree'); try done;
      unfold SumTree.leaf_index; try lia.
    by apply Hz.
  - done.
  - done.
  - done.
  - exists s'. split; [done|]. unfold SumTree.fresh_from.
    split; [done|]. split; [congruence|]. split; [congruence|done].
Qed.

Lemma fresh_add1 s (k : Z) (d : D) (p : V) :
  SumTree.fresh_from n k s -> (k + 1 < n)%Z ->
  exists s', SumTree.add1 fuel s d p = Ok s' /\ SumTree.fresh_from n (k + 1) s'.
Proof using Hn Hfuel.
  intros (Hwf & Hfull & Hidx & Hzero) Hk.
  pose proof Hwf as (_ & Hlen & _ & Hk0).
  destruct (add1_inv n fuel (fun _ => True) (SumTree.leaf_index n) Hn Hfuel
              ltac:(done) ltac:(done) ltac:(done) s d p Hwf I)
    as (s' & Hadd & Hwf' & _ & Hup & Hidx' & Hfull' & _).
  exists s'. split; [done|]. rewrite Hidx in *.
  destruct (Z.eqb_spec (k + 1) n); [lia|].
  unfold SumTree.fresh_from.
  split; [done|]. split; [congruence|]. split; [congruence|].
  intros i Hi.
  rewrite (update1_keeps_other_leaves (SumTree._tree s) (k + n - 1) p
             (SumTree._tree s') (n - 1 + i) Hlen);
    unfold SumTree.leaf_index; try lia; try done.
  apply Hzero. lia.
Qed.

Lemma fresh_add_loop : forall (dps : list (D * V)) s (k : Z),
  SumTree.fresh_from n k s -> (k + Z.of_nat (length dps) < n)%Z ->
  exists s', SumTree.add_loop fuel s dps = Ok s' /\
    SumTree.fresh_from n (k + Z.of_nat (length dps)) s'.
Proof using Hn Hfuel.
  induction dps as [|[d p] dps IH]; intros s k Hfresh Hk.
  - exists s. split; [done|]. by rewrite Z.add_0_r.
  - simpl in Hk. simpl SumTree.add_loop.
    destruct (fresh_add1 s k d p Hfresh ltac:(lia)) as (s1 & -> & Hfresh1).
    simpl. destruct (IH s1 (k + 1)%Z Hfresh1 ltac:(lia)) as (s' & Hrun & Hfresh').
    exists s'. split; [done|].
    assert (k + Z.of_nat (S (length dps))
            = k + 1 + Z.of_nat (length dps))%Z as -> by lia.
    done.
Qed.

Lemma fresh_run : forall (calls : list SumTree.call) s (k : Z),
  SumTree.fresh_from n k s -> (0 <= k)%Z ->
  SumTree.updates_written n k calls ->
  (k + SumTree.added calls < n)%Z ->
  exists s', SumTree.run fuel s calls = Ok s' /\
    SumTree.fresh_from n (k + SumTree.added calls) s'.
Proof using Hn Hfuel.
  induction calls as [|c calls IH]; intros s k Hfresh Hk0 Hvalid Hk.
  - exists s. split; [done|]. by rewrite Z.add_0_r.
  - destruct c as [dataset priority|idx priorities]; simpl in *.
    + assert (0 <= SumTree.added calls)%Z as Hpos.
      { clear. induction calls as [|[]]; simpl; lia. }
      unfold SumTree.add.
      destruct (fresh_add_loop (combine dataset priority) s k Hfresh ltac:(lia))
        as (s1 & -> & Hfresh1).
      simpl. destruct (IH s1 _ Hfresh1 ltac:(lia) Hvalid ltac:(lia))
        as (s' & Hrun & Hfresh').
      exists s'. split; [done|]. by rewrite Z.add_assoc.
    + destruct Hvalid as [Hidx Hvalid].
      destruct (fresh_update s k idx priorities Hfresh Hidx)
        as (s1 & -> & Hfresh1).
      simpl. by apply IH.
Qed.

Lemma fresh_leaves s (k : Z) :
  SumTree.fresh_from n k s ->
  SumTree.leaves s
  = take (Z.to_nat k) (SumTree.leaves s) ++ replicate (Z.to_nat (n - k)) nzero.
Proof using Hn Hfuel.
  intros (Hwf & _ & Hidx & Hzero). pose proof Hwf as (_ & Hlen & _ & Hk).
  rewrite Hidx in Hk.
  rewrite <- (take_drop (Z.to_nat k) (SumTree.leaves s)) at 1. f_equal.
  rewrite (leaves_drop n s) by (lia || done). rewrite drop_drop.
  apply list_eq. intros i. rewrite lookup_drop.
  destruct (decide (i < Z.to_nat (n - k))%nat) as [Hi|Hi].
  - rewrite lookup_replicate_2 by done.
    replace (Z.to_nat (n - 1) + Z.to_nat k + i)%nat
      with (Z.to_nat (n - 1 + (k + Z.of_nat i))) by lia.
    apply Hzero. lia.
  - rewrite lookup_ge_None_2 by lia.
    symmetry. apply lookup_ge_None_2. rewrite length_replicate. lia.
Qed.

End MaxP.

(** C7 (as amended): max_p is the maximum over the entire leaf array, not
    over the populated leaves only.  For every SumTree with max_size >= 2
    that is not full, after add calls and updates of written leaves, the
    leaf array is the written prefix followed by zeros in the never-written
    slots, and max_p is the maximum of that whole array, zeros included. *)
Theorem max_p_ranges_over_all_leaf_slots {V D : Type} `{Num V}
    (max_size : Z) (calls : list (@SumTree.call V D)) (fuel : nat) :
  (2 <= max_size)%Z ->
  (Z.to_nat (2 * max_size - 1) <= fuel)%nat ->
  SumTree.updates_written max_size 0 calls ->
  (SumTree.added calls < max_size)%Z ->
  exists s0 s,
    SumTree.init max_size = Ok s0 /\
    SumTree.run fuel s0 calls = Ok s /\
    SumTree._full s = false /\
    SumTree._idx s = SumTree.added calls /\
    SumTree.leaves s
      = take (Z.to_nat (SumTree._idx s)) (SumTree.leaves s)
        ++ replicate (Z.to_nat (max_size - SumTree._idx s)) nzero /\
    SumTree.max_p s
      = array_max (take (Z.to_nat (SumTree._idx s)) (SumTree.leaves s)
                   ++ replicate (Z.to_nat (max_size - SumTree._idx s)) nzero).
Proof.
  intros Hn Hfuel Hvalid Hadded.
  destruct (init_returns (V:=V) (D:=D) max_size ltac:(lia))
    as (s0 & Hinit & Hwf0 & Htree0 & Hidx0 & Hfull0).
  assert (SumTree.fresh_from max_size 0 s0) as Hfresh0.
  { unfold SumTree.fresh_from. split; [done|]. split; [done|]. split; [done|].
    intros i Hi. rewrite Htree0. apply lookup_replicate_2. lia. }
  destruct (fresh_run max_size fuel Hn Hfuel calls s0 0 Hfresh0 ltac:(lia)
              Hvalid ltac:(lia)) as (s & Hrun & Hfresh).
  pose proof (fresh_leaves max_size fuel Hn Hfuel s _ Hfresh) as Hleaves.
  destruct Hfresh as (Hwf & Hfull & Hidx & _).
  rewrite Z.add_0_l in Hidx, Hleaves. rewrite <- Hidx in Hleaves.
  exists s0, s. split; [done|]. split; [done|]. split; [done|].
  split; [done|]. split; [done|].
  unfold SumTree.max_p. by rewrite <- Hleaves.
Qed.

Lemma max_p_ranges_over_all_leaf_slots_witness :
  exists s0 s,
    Examples.exact_tree 3 = Ok s0 /\
    SumTree.run 5 s0 Examples.single_ten_calls = Ok s /\
    SumTree._full s = false /\
    SumTree._idx s = SumTree.added Examples.single_ten_calls /\
    SumTree.leaves s
      = take (Z.to_nat (SumTree._idx s)) (SumTree.leaves s)
        ++ replicate (Z.to_nat (3 - SumTree._idx s)) (Qc_of_Z 0) /\
    SumTree.max_p s
      = array_max (take (Z.to_nat (SumTree._idx s)) (SumTree.leaves s)
                   ++ replicate (Z.to_nat (3 - SumTree._idx s)) (Qc_of_Z 0)).
Proof.
  assert (2 <= 3)%Z as Hn by lia.
  assert (Z.to_nat (2 * 3 - 1) <= 5)%nat as Hfuel by (simpl; lia).
  assert (SumTree.added Examples.single_ten_calls < 3)%Z as Hadded
    by (simpl; lia).
  exact (max_p_ranges_over_all_leaf_slots 3 Examples.single_ten_calls 5
           Hn Hfuel I Hadded).
Defined.

(** C7 (as stated) fails: with two leaf slots of which the first is written
    with priority -1, the tree is non-empty and not full, the maximum over
    the written prefix is -1, and max_p reports the 0 of the never-written
    slot. *)
Lemma max_p_counterexample :
  exists s,
    Examples.negative_leaf = Ok s /\
    SumTree._full s = false /\ SumTree._idx s = 1%Z /\
    SumTree.leaves s = [(-1)%float; 0%float] /\
    array_max (take (Z.to_nat (SumTree._idx s)) (SumTree.leaves s))
      = Ok (-1)%float /\
    SumTree.max_p s = Ok 0%float.
Proof.
  eexists. split; [vm_compute; reflexivity|].
  repeat split; vm_compute; reflexivity.
Qed.

(** ** C2: the ring buffer *)

Section Ring.
Context {St Ac Rw : Type}.
Implicit Types (s : ReplayMemory.t St Ac Rw)
  (d : ReplayMemory.transition St Ac Rw)
  (stream : list (ReplayMemory.transition St Ac Rw)).

Lemma load_store_eq {A : Type} (l : list A) (i : nat) (x : A) :
  (i < length l)%nat -> ReplayMemory.load (<[i:=x]> l) i = Ok x.
Proof. intros Hi. unfold ReplayMemory.load. by rewrite list_lookup_insert_eq. Qed.

Lemma load_store_ne {A : Type} (l : list A) (i j : nat) (x : A) :
  i <> j -> ReplayMemory.load (<[i:=x]> l) j = ReplayMemory.load l j.
Proof. intros Hne. unfold ReplayMemory.load. by rewrite list_lookup_insert_ne. Qed.

Lemma add1_returns s d :
  ReplayMemory.wf s -> (ReplayMemory._idx s < ReplayMemory._max_size s)%nat ->
  exists s', ReplayMemory.add1 s d = Ok s' /\
    ReplayMemory.wf s' /\
    ReplayMemory._max_size s' = ReplayMemory._max_size s /\
    ReplayMemory._initial_size s' = ReplayMemory._initial_size s /\
    ReplayMemory._idx s' =
      (if (S (ReplayMemory._idx s) =? ReplayMemory._max_size s)%nat
       then 0 else S (ReplayMemory._idx s))%nat /\
    ReplayMemory._full s' =
      (if (S (ReplayMemory._idx s) =? ReplayMemory._max_size s)%nat
       then true else ReplayMemory._full s) /\
    ReplayMemory.item s' (ReplayMemory._idx s)
      = Ok (ReplayMemory.some_transition d) /\
    forall j, j <> ReplayMemory._idx s ->
      ReplayMemory.item s' j = ReplayMemory.item s j.
Proof.
  intros (H1 & H2 & H3 & H4 & H5 & H6) Hidx.
  destruct d as [[[[[st ac] rw] nst] ab] la].
  unfold ReplayMemory.add1, ReplayMemory.store.
  rewrite H1, H2, H3, H4, H5, H6.
  destruct (Nat.ltb_spec (ReplayMemory._idx s) (ReplayMemory._max_size s));
    [|lia].
  cbn [Py.bind].
  destruct (Nat.eqb_spec (S (ReplayMemory._idx s)) (ReplayMemory._max_size s));
    (eexists; split; [reflexivity|]);
    unfold ReplayMemory.wf, ReplayMemory.item; simpl;
    rewrite !length_insert;
    (split; [done|]); (do 4 (split; [done|])); split.
  1,3: by rewrite !load_store_eq by lia.
  all: intros j Hj; by rewrite !load_store_ne by done.
Qed.

Lemma holds_add1 stream q s d :
  ReplayMemory.holds stream q s ->
  exists s' q', ReplayMemory.add1 s d = Ok s' /\
    ReplayMemory.holds (stream ++ [d]) q' s' /\
    ReplayMemory._max_size s' = ReplayMemory._max_size s /\
    ReplayMemory._initial_size s' = ReplayMemory._initial_size s.
Proof.
  intros (Hwf & Hlen & Hidx & Hfull & Hslots).
  destruct (add1_returns s d Hwf Hidx)
    as (s' & Hadd & Hwf' & Hmax & Hinit & Hidx' & Hfull' & Hnew & Hold).
  set (n := ReplayMemory._max_size s) in *.
  assert (forall j p d', (p < length stream)%nat -> j <> ReplayMemory._idx s ->
    (stream ++ [d]) !! p = Some d' -> (j < n)%nat ->
    (p = q * n + j /\ j < ReplayMemory._idx s
     \/ p + n = q * n + j /\ ReplayMemory._idx s <= j)%nat ->
    ReplayMemory.item s' j = Ok (ReplayMemory.some_transition d')) as Hkeep.
  { intros j p d' Hp Hj Hd' Hjn Hcase. rewrite Hold by done.
    rewrite lookup_app_l in Hd' by done. by apply (Hslots j p d'). }
  assert (forall p d', p = length stream -> (stream ++ [d]) !! p = Some d' ->
    ReplayMemory.item s' (ReplayMemory._idx s)
    = Ok (ReplayMemory.some_transition d')) as Hlast.
  { intros p d' -> Hd'. rewrite lookup_app_r, Nat.sub_diag in Hd' by done.
    injection Hd' as <-. done. }
  destruct (Nat.eqb_spec (S (ReplayMemory._idx s)) n) as [Hwrap|Hnowrap].
  - exists s', (S q). split; [done|]. split; [|done].
    unfold ReplayMemory.holds. rewrite Hmax, Hidx', Hfull', length_app. simpl.
    fold n. split; [done|]. split; [lia|]. split; [lia|]. split; [done|].
    intros j p d' Hj Hd' Hcase.
    destruct (decide (j = ReplayMemory._idx s)) as [->|Hne].
    + apply (Hlast p); [lia|done].
    + apply (Hkeep j p d'); try done; lia.
  - exists s', q. split; [done|]. split; [|done].
    unfold ReplayMemory.holds. rewrite Hmax, Hidx', Hfull', length_app. simpl.
    fold n. split; [done|]. split; [lia|]. split; [lia|]. split; [done|].
    intros j p d' Hj Hd' Hcase.
    destruct (decide (j = ReplayMemory._idx s)) as [->|Hne].
    + apply (Hlast p); [lia|done].
    + apply (Hkeep j p d'); try done; lia.
Qed.

Lemma holds_add : forall (dataset : list (ReplayMemory.transition St Ac Rw))
    stream q s,
  ReplayMemory.holds stream q s ->
  exists s' q', ReplayMemory.add s dataset = Ok s' /\
    ReplayMemory.holds (stream ++ dataset) q' s' /\
    ReplayMemory._max_size s' = ReplayMemory._max_size s /\
    ReplayMemory._initial_size s' = ReplayMemory._initial_size s.
Proof.
  induction dataset as [|d dataset IH]; intros stream q s Hholds.
  - exists s, q. by rewrite app_nil_r.
  - simpl. destruct (holds_add1 stream q s d Hholds)
      as (s1 & q1 & -> & Hholds1 & Hmax1 & Hinit1).
    simpl. destruct (IH _ _ _ Hholds1) as (s' & q' & Hadd & Hholds' & Hmax & Hinit).
    exists s', q'. split; [done|]. rewrite <- app_assoc in Hholds'.
    split; [done|]. split; congruence.
Qed.

Lemma holds_adds : forall (datasets : list (list (ReplayMemory.transition St Ac Rw)))
    stream q s,
  ReplayMemory.holds stream q s ->
  exists s' q', ReplayMemory.adds s datasets = Ok s' /\
    ReplayMemory.holds (stream ++ concat datasets) q' s' /\
    ReplayMemory._max_size s' = ReplayMemory._max_size s /\
    ReplayMemory._initial_size s' = ReplayMemory._initial_size s.
Proof.
  induction datasets as [|dataset datasets IH]; intros stream q s Hholds.
  - exists s, q. simpl. by rewrite app_nil_r.
  - simpl. destruct (holds_add dataset stream q s Hholds)
      as (s1 & q1 & -> & Hholds1 & Hmax1 & Hinit1).
    simpl. destruct (IH _ _ _ Hholds1) as (s' & q' & Hadd & Hholds' & Hmax & Hinit).
    exists s', q'. split; [done|]. rewrite <- app_assoc in Hholds'.
    split; [done|]. split; congruence.
Qed.

Lemma holds_init (initial_size max_size : nat) :
  (1 <= max_size)%nat ->
  ReplayMemory.holds [] 0 (ReplayMemory.init (St:=St) (Ac:=Ac) (Rw:=Rw)
                             initial_size max_size).
Proof.
  intros Hn. unfold ReplayMemory.holds, ReplayMemory.wf. simpl.
  rewrite !length_replicate. repeat split; try done; try lia.
Qed.

Lemma holds_size stream q s :
  ReplayMemory.holds stream q s ->
  ReplayMemory.size s = Nat.min (length stream) (ReplayMemory._max_size s).
Proof.
  intros (_ & Hlen & Hidx & Hfull & _). unfold ReplayMemory.size.
  rewrite Hfull, Hlen. destruct q as [|q]; simpl; lia.
Qed.

Lemma holds_slots stream q s :
  ReplayMemory.holds stream q s ->
  (ReplayMemory._max_size s <= length stream)%nat ->
  drop (ReplayMemory._idx s) (ReplayMemory.slots s)
    ++ take (ReplayMemory._idx s) (ReplayMemory.slots s)
  = map (fun d => Ok (ReplayMemory.some_transition d))
      (drop (length stream - ReplayMemory._max_size s) stream).
Proof.
  intros (_ & Hlen & Hidx & _ & Hslots) Hfull.
  set (n := ReplayMemory._max_size s) in *.
  set (idx := ReplayMemory._idx s) in *.
  assert (1 <= q)%nat as Hq by (destruct q; simpl in *; lia).
  assert (length (ReplayMemory.slots s) = n) as Hlslots.
  { unfold ReplayMemory.slots. by rewrite length_map, length_seq. }
  assert (forall j, (j < n)%nat ->
    ReplayMemory.slots s !! j = Some (ReplayMemory.item s j)) as Hslot.
  { intros j Hj. unfold ReplayMemory.slots. rewrite list_lookup_fmap.
    fold n. rewrite lookup_seq_lt by done. done. }
  apply list_eq. intros i. rewrite list_lookup_fmap, lookup_drop.
  destruct (decide (i < n)%nat) as [Hi|Hi].
  - destruct (lookup_lt_is_Some_2 stream (length stream - n + i) ltac:(lia))
      as [d Hd].
    rewrite Hd. simpl.
    destruct (decide (i < n - idx)%nat) as [Hlow|Hhigh].
    + rewrite lookup_app_l by (rewrite length_drop; lia).
      rewrite lookup_drop, Hslot by lia. f_equal.
      apply (Hslots (idx + i)%nat (length stream - n + i)%nat d); [lia|done|].
      right. lia.
    + rewrite lookup_app_r by (rewrite length_drop; lia).
      rewrite length_drop, Hlslots.
      rewrite lookup_take_lt by lia. rewrite Hslot by lia. f_equal.
      apply (Hslots (i - (n - idx))%nat (length stream - n + i)%nat d);
        [lia|done|].
      left. lia.
  - rewrite (lookup_ge_None_2 stream) by lia. simpl.
    apply lookup_ge_None_2.
    rewrite length_app, length_drop, length_take. lia.
Qed.

End Ring.

Lemma adds_zero_capacity {St Ac Rw : Type} (initial_size : nat) :
  forall (datasets : list (list (ReplayMemory.transition St Ac Rw))) s,
    ReplayMemory.adds (ReplayMemory.init initial_size 0) datasets = Ok s ->
    concat datasets = [] /\ s = ReplayMemory.init initial_size 0.
Proof.
  induction datasets as [|dataset datasets IH]; intros s Hadds.
  - simpl in Hadds. by injection Hadds as <-.
  - destruct dataset as [|[[[[[st ac] rw] nst] ab] la] dataset].
    + simpl in *. by apply IH.
    + simpl in Hadds. discriminate.
Qed.

(** C2: for every ReplayMemory and every sequence of add calls, the calls
    return when max_size >= 1, and whenever they return size() is the minimum
    of the number of inserted transitions and max_size, and once max_size
    transitions have been inserted the six arrays, read from the write cursor
    around, hold exactly the most recent max_size transitions, oldest
    first. *)
Theorem ring_invariant {St Ac Rw : Type} (initial_size max_size : nat)
    (datasets : list (list (ReplayMemory.transition St Ac Rw))) :
  ((1 <= max_size)%nat ->
   exists s,
     ReplayMemory.adds (ReplayMemory.init initial_size max_size) datasets
       = Ok s) /\
  (forall s,
     ReplayMemory.adds (ReplayMemory.init initial_size max_size) datasets
       = Ok s ->
     ReplayMemory.size s = Nat.min (length (concat datasets)) max_size /\
     ((max_size <= length (concat datasets))%nat ->
      drop (ReplayMemory._idx s) (ReplayMemory.slots s)
        ++ take (ReplayMemory._idx s) (ReplayMemory.slots s)
      = map (fun d => Ok (ReplayMemory.some_transition d))
          (drop (length (concat datasets) - max_size) (concat datasets)))).
Proof.
  destruct (decide (1 <= max_size)%nat) as [Hn|Hn].
  - destruct (holds_adds datasets [] 0 _ (holds_init initial_size max_size Hn))
      as (s & q & Hadds & Hholds & Hmax & _).
    simpl in Hholds, Hmax. split; [by exists s|].
    intros s' Hadds'. rewrite Hadds in Hadds'. injection Hadds' as <-. split.
    + rewrite (holds_size _ _ _ Hholds). by rewrite Hmax.
    + intros Hfull. rewrite <- Hmax. apply (holds_slots _ q); [done|].
      by rewrite Hmax.
  - assert (max_size = 0)%nat as -> by lia. split; [lia|].
    intros s Hadds.
    destruct (adds_zero_capacity initial_size datasets s Hadds) as [-> ->].
    done.
Qed.

Lemma ring_invariant_witness :
  exists s,
    ReplayMemory.adds (ReplayMemory.init 1 3) Examples.five_transitions = Ok s /\
    ReplayMemory.size s = 3%nat /\
    drop (ReplayMemory._idx s) (ReplayMemory.slots s)
      ++ take (ReplayMemory._idx s) (ReplayMemory.slots s)
    = map (fun d => Ok (ReplayMemory.some_transition d))
        [Examples.step 2 false; Examples.step 3 false; Examples.step 4 false].
Proof.
  destruct (ring_invariant 1 3 Examples.five_transitions) as [Hreturns Hinv].
  destruct (Hreturns ltac:(lia)) as [s Hadds].
  exists s. split; [exact Hadds|].
  destruct (Hinv s Hadds) as [Hsize Hslots].
  split; [exact Hsize|]. apply Hslots. simpl. lia.
Defined.

(** ** C5: splitting a stream into episodes *)

Section Split.
Context {St Ac Rw : Type}.
Abbreviation transition := (SequentialReplayMemory.transition St Ac Rw).
Implicit Types (d : transition) (dataset pre cur : list transition).

Lemma split_at_boundaries_concat : forall dataset cur,
  concat (SequentialReplayMemory.split_at_boundaries cur dataset).1
    ++ (SequentialReplayMemory.split_at_boundaries cur dataset).2
  = cur ++ dataset.
Proof.
  induction dataset as [|d dataset IH]; intros cur; simpl.
  - by rewrite app_nil_r.
  - destruct (SequentialReplayMemory.absorbing d); simpl.
    + rewrite <- !app_assoc. simpl. f_equal. f_equal. apply (IH []).
    + rewrite IH. by rewrite <- app_assoc.
Qed.

(** The episodes end with a flagged transition and have no other; the
    unfinished episode has none. *)
Lemma split_at_boundaries_flags : forall dataset cur,
  Forall (fun d => SequentialReplayMemory.absorbing d = false) cur ->
  Forall (fun ep => exists body d,
            ep = body ++ [d] /\ SequentialReplayMemory.absorbing d = true /\
            Forall (fun d' => SequentialReplayMemory.absorbing d' = false) body)
    (SequentialReplayMemory.split_at_boundaries cur dataset).1 /\
  Forall (fun d => SequentialReplayMemory.absorbing d = false)
    (SequentialReplayMemory.split_at_boundaries cur dataset).2.
Proof.
  induction dataset as [|d dataset IH]; intros cur Hcur; simpl.
  - split; [constructor|done].
  - destruct (SequentialReplayMemory.absorbing d) eqn:Hd; simpl.
    + destruct (IH [] ltac:(constructor)) as [Heps Hrest]. split; [|done].
      constructor; [|done]. by exists cur, d.
    + apply IH. apply Forall_app. split; [done|]. by constructor.
Qed.

Lemma split_loop : forall dataset' pre start acc,
  (start <= length pre)%nat ->
  fold_left (SequentialReplayMemory.split_step (pre ++ dataset'))
    (combine
       (start :: map S (SequentialReplayMemory.where_from (length pre)
                          (map SequentialReplayMemory.absorbing dataset')))
       (map S (SequentialReplayMemory.where_from (length pre)
                 (map SequentialReplayMemory.absorbing dataset'))))
    (acc, start)
  = (acc ++ (SequentialReplayMemory.split_at_boundaries (drop start pre) dataset').1,
     (length (pre ++ dataset')
      - length (SequentialReplayMemory.split_at_boundaries (drop start pre) dataset').2)%nat).
Proof.
  induction dataset' as [|d dataset' IH]; intros pre start acc Hstart.
  - simpl. rewrite !app_nil_r, length_drop. f_equal. lia.
  - assert (pre ++ d :: dataset' = (pre ++ [d]) ++ dataset') as Hmid
      by (by rewrite <- app_assoc).
    assert (length (pre ++ [d]) = S (length pre)) as Hlen
      by (rewrite length_app; simpl; lia).
    simpl. destruct (SequentialReplayMemory.absorbing d) eqn:Hd; simpl.
    + rewrite Hmid, <- Hlen.
      unfold SequentialReplayMemory.split_step at 2. simpl.
      rewrite (IH (pre ++ [d]) (length (pre ++ [d]))) by lia.
      rewrite drop_all, <- app_assoc. simpl. f_equal. f_equal. f_equal.
      unfold slice. rewrite drop_app_le by lia.
      rewrite take_app_le by (rewrite length_drop; lia).
      rewrite take_ge by (rewrite length_drop; lia).
      by rewrite drop_app_le by lia.
    + rewrite Hmid, <- Hlen.
      rewrite (IH (pre ++ [d]) start) by lia.
      by rewrite drop_app_le by lia.
Qed.

(** The code computes the split of the specification. *)
Lemma split_dataset_refines dataset :
  dataset <> [] ->
  SequentialReplayMemory._split_dataset dataset
  = Ok (SequentialReplayMemory.split_at_boundaries [] dataset).
Proof.
  intros Hne. unfold SequentialReplayMemory._split_dataset.
  destruct dataset as [|d0 dataset0] eqn:E; [done|]. rewrite <- E. clear E Hne.
  pose proof (split_loop dataset [] 0 [] ltac:(simpl; lia)) as Hloop.
  change ([] ++ dataset) with dataset in Hloop.
  change (length (@nil transition)) with 0%nat in Hloop.
  change (drop 0 (@nil transition)) with (@nil transition) in Hloop.
  cbv zeta. cbn [tail]. rewrite Hloop. cbn [fst snd app].
  pose proof (split_at_boundaries_concat dataset []) as Hcat. simpl in Hcat.
  destruct (SequentialReplayMemory.split_at_boundaries [] dataset)
    as [eps rest]. simpl in *.
  f_equal. f_equal. unfold slice. clear Hloop. subst dataset.
  rewrite length_app.
  replace (length (concat eps) + length rest - length rest)%nat
    with (length (concat eps)) by lia.
  rewrite drop_app_length. apply take_ge. lia.
Qed.

End Split.

(** ** C6: the episodic buffer stays within its capacity *)

Section Episodic.
Context {St Ac Rw : Type}.
Abbreviation episode := (list (SequentialReplayMemory.transition St Ac Rw)).
Implicit Types (s : SequentialReplayMemory.t St Ac Rw) (eps : list episode).

Lemma zip_with_columns {A B C E : Type} (h : B -> C -> E)
    (f : A -> B) (g : A -> C) (l : list A) :
  zip_with h (map f l) (map g l) = map (fun x => h (f x) (g x)) l.
Proof. induction l as [|x l IH]; simpl; [done|]. by rewrite IH. Qed.

Lemma zip_episode (ep : episode) :
  zip (zip (zip (zip (zip (map (fun d => d.1.1.1.1.1) ep)
                          (map (fun d => d.1.1.1.1.2) ep))
                     (map (fun d => d.1.1.1.2) ep))
                (map (fun d => d.1.1.2) ep))
           (map (fun d => d.1.2) ep))
      (map (fun d => d.2) ep)
  = ep.
Proof.
  rewrite !zip_with_columns.
  induction ep as [|[[[[[st ac] rw] nst] ab] la] ep IH]; simpl; [done|].
  by rewrite IH.
Qed.

Lemma columns_stored eps s :
  SequentialReplayMemory.columns eps s -> SequentialReplayMemory.stored s = eps.
Proof.
  intros (H1 & H2 & H3 & H4 & H5 & H6 & _).
  unfold SequentialReplayMemory.stored. rewrite H1, H2, H3, H4, H5, H6.
  rewrite !zip_with_columns. clear.
  induction eps as [|ep eps IH]; simpl; [done|].
  by rewrite zip_episode, IH.
Qed.

Lemma evict_returns : forall (front : list episode) s (newest : episode),
  SequentialReplayMemory.columns (front ++ [newest]) s ->
  (length newest < SequentialReplayMemory._max_size s)%nat ->
  exists s' k,
    SequentialReplayMemory.evict (SequentialReplayMemory._states s) s = Ok s' /\
    (k <= length front)%nat /\
    SequentialReplayMemory.columns (drop k (front ++ [newest])) s' /\
    (SequentialReplayMemory._size s'
     <= Z.of_nat (SequentialReplayMemory._max_size s'))%Z /\
    SequentialReplayMemory.same_parameters s s' /\
    SequentialReplayMemory.unfinished_episode s'
    = SequentialReplayMemory.unfinished_episode s.
Proof.
  induction front as [|oldest front IH]; intros s newest Hcols Hnew;
    pose proof Hcols as (H1 & H2 & H3 & H4 & H5 & H6 & H7 & H8);
    rewrite H1; simpl;
    destruct (Z.ltb_spec (Z.of_nat (SequentialReplayMemory._max_size s))
                (SequentialReplayMemory._size s)) as [Hover|Hfits].
  - simpl in H8. lia.
  - exists s, 0%nat. by rewrite drop_0.
  - rewrite H2, H3, H4, H5, H6, H7. simpl.
    match goal with |- context [SequentialReplayMemory.evict _ ?s1] =>
      destruct (IH s1 newest) as (s' & k & Hev & Hk & Hcols' & Hsize' & Hpar & Hunf)
    end.
    + unfold SequentialReplayMemory.columns. simpl.
      repeat split; try done. rewrite H8, length_map. simpl. lia.
    + done.
    + simpl in Hev. exists s', (S k). split; [done|]. split; [simpl; lia|].
      by simpl.
  - exists s, 0%nat. rewrite drop_0. split; [done|]. split; [lia|]. done.
Qed.

Lemma add_episode_returns eps s (ep : episode) :
  SequentialReplayMemory.columns eps s ->
  SequentialReplayMemory.within_capacity eps s ->
  exists s' k,
    SequentialReplayMemory.add_episode s ep
      = Ok (s', SequentialReplayMemory.storable s ep) /\
    (k <= length eps)%nat /\
    SequentialReplayMemory.columns
      (drop k (eps ++ filter (SequentialReplayMemory.storable s) [ep])) s' /\
    SequentialReplayMemory.within_capacity
      (drop k (eps ++ filter (SequentialReplayMemory.storable s) [ep])) s' /\
    SequentialReplayMemory.same_parameters s s' /\
    SequentialReplayMemory.unfinished_episode s'
    = SequentialReplayMemory.unfinished_episode s.
Proof.
  intros Hcols [Hrange Hsize].
  pose proof Hcols as (H1 & H2 & H3 & H4 & H5 & H6 & H7 & H8).
  unfold SequentialReplayMemory.add_episode. rewrite filter_cons, filter_nil.
  destruct (SequentialReplayMemory.storable s ep) eqn:Hstorable.
  - rewrite decide_True by done.
    apply andb_true_iff in Hstorable as [Hlow Hhigh].
    apply Nat.leb_le in Hlow. apply Nat.ltb_lt in Hhigh. cbv zeta.
    match goal with |- context [SequentialReplayMemory.evict _ ?s1] =>
      destruct (evict_returns eps s1 ep) as (s' & k & Hev & Hk & Hcols' & Hsize' & Hpar & Hunf)
    end.
    + unfold SequentialReplayMemory.columns. simpl.
      rewrite H1, H2, H3, H4, H5, H6, H7, H8, !map_app, sum_list_with_app. simpl.
      repeat split; try done. lia.
    + done.
    + rewrite Hev. simpl. exists s', k.
      split; [done|]. split; [done|]. split; [done|]. split; [|done].
      destruct Hpar as (_ & Hmax & Hunroll). simpl in Hmax, Hunroll.
      split; [|done]. rewrite Hmax, Hunroll. apply Forall_drop.
      apply Forall_app. split; [done|]. constructor; [lia|constructor].
  - rewrite decide_False by (intros []).
    exists s, 0%nat. rewrite drop_0, app_nil_r.
    split; [done|]. split; [lia|]. by repeat split.
Qed.

Lemma storable_same s s' (ep : episode) :
  SequentialReplayMemory.same_parameters s s' ->
  SequentialReplayMemory.storable s' ep = SequentialReplayMemory.storable s ep.
Proof.
  intros (_ & Hmax & Hunroll). unfold SequentialReplayMemory.storable.
  by rewrite Hmax, Hunroll.
Qed.

Lemma add_episodes_returns : forall (episodes : list episode) eps s (added : nat),
  SequentialReplayMemory.columns eps s ->
  SequentialReplayMemory.within_capacity eps s ->
  exists s' k,
    SequentialReplayMemory.add_episodes s added episodes
      = Ok (s', (added + length (filter (SequentialReplayMemory.storable s)
                                   episodes))%nat) /\
    SequentialReplayMemory.columns
      (drop k (eps ++ filter (SequentialReplayMemory.storable s) episodes)) s' /\
    SequentialReplayMemory.within_capacity
      (drop k (eps ++ filter (SequentialReplayMemory.storable s) episodes)) s' /\
    SequentialReplayMemory.same_parameters s s' /\
    SequentialReplayMemory.unfinished_episode s'
    = SequentialReplayMemory.unfinished_episode s.
Proof.
  induction episodes as [|ep episodes IH]; intros eps s added Hcols Hcap.
  - exists s, 0%nat. simpl. rewrite drop_0, app_nil_r, Nat.add_0_r.
    split; [done|]. split; [done|]. split; [done|]. by repeat split.
  - simpl SequentialReplayMemory.add_episodes.
    destruct (add_episode_returns eps s ep Hcols Hcap)
      as (s1 & k1 & -> & Hk1 & Hcols1 & Hcap1 & Hpar1 & Hunf1).
    cbn [Py.bind fst snd].
    destruct (IH _ s1 (if SequentialReplayMemory.storable s ep
                       then S added else added) Hcols1 Hcap1)
      as (s' & k2 & Hrun & Hcols' & Hcap' & Hpar' & Hunf').
    assert (filter (SequentialReplayMemory.storable s1) episodes
            = filter (SequentialReplayMemory.storable s) episodes) as Hfilter.
    { apply list_filter_iff. intros x. by rewrite (storable_same s s1). }
    rewrite Hfilter in *.
    assert (drop k2
              (drop k1 (eps ++ filter (SequentialReplayMemory.storable s) [ep])
               ++ filter (SequentialReplayMemory.storable s) episodes)
            = drop (k1 + k2)
                (eps ++ filter (SequentialReplayMemory.storable s) (ep :: episodes)))
      as Hdrop.
    { rewrite <- drop_drop. f_equal.
      change (ep :: episodes) with ([ep] ++ episodes).
      rewrite filter_app, app_assoc.
      by rewrite (drop_app_le (eps ++ filter (SequentialReplayMemory.storable s) [ep]))
        by (rewrite length_app; lia). }
    rewrite Hdrop in *.
    exists s', (k1 + k2)%nat. split.
    + rewrite Hrun. f_equal. f_equal. rewrite filter_cons.
      destruct (SequentialReplayMemory.storable s ep) eqn:E.
      * rewrite decide_True by done. simpl. lia.
      * rewrite decide_False by (intros []). lia.
    + split; [done|]. split; [done|]. split; [|congruence].
      destruct Hpar1 as (? & ? & ?), Hpar' as (? & ? & ?).
      unfold SequentialReplayMemory.same_parameters. repeat split; congruence.
Qed.

Lemma add_returns eps s (dataset : episode) :
  SequentialReplayMemory.columns eps s ->
  SequentialReplayMemory.within_capacity eps s ->
  SequentialReplayMemory.unfinished_episode s ++ dataset <> [] ->
  exists s' k,
    SequentialReplayMemory.add s dataset
      = Ok (s', length (filter (SequentialReplayMemory.storable s)
                          (SequentialReplayMemory.split_at_boundaries []
                             (SequentialReplayMemory.unfinished_episode s
                              ++ dataset)).1)) /\
    SequentialReplayMemory.columns
      (drop k (eps ++ filter (SequentialReplayMemory.storable s)
                        (SequentialReplayMemory.split_at_boundaries []
                           (SequentialReplayMemory.unfinished_episode s
                            ++ dataset)).1)) s' /\
    SequentialReplayMemory.within_capacity
      (drop k (eps ++ filter (SequentialReplayMemory.storable s)
                        (SequentialReplayMemory.split_at_boundaries []
                           (SequentialReplayMemory.unfinished_episode s
                            ++ dataset)).1)) s' /\
    SequentialReplayMemory.same_parameters s s' /\
    SequentialReplayMemory.unfinished_episode s'
    = (SequentialReplayMemory.split_at_boundaries []
         (SequentialReplayMemory.unfinished_episode s ++ dataset)).2.
Proof.
  intros Hcols Hcap Hne. unfold SequentialReplayMemory.add.
  rewrite (split_dataset_refines _ Hne). cbn [Py.bind].
  set (sp := SequentialReplayMemory.split_at_boundaries []
               (SequentialReplayMemory.unfinished_episode s ++ dataset)).
  match goal with |- context [SequentialReplayMemory.add_episodes ?s0 _ _] =>
    destruct (add_episodes_returns sp.1 eps s0 0) as (s' & k & Hrun & Hcols' & Hcap' & Hpar & Hunf)
  end; [done|done|].
  exists s', k. split; [exact Hrun|]. split; [exact Hcols'|].
  split; [exact Hcap'|]. split; [exact Hpar|]. exact Hunf.
Qed.

Lemma add_empty_raises s :
  SequentialReplayMemory.unfinished_episode s = [] ->
  SequentialReplayMemory.add s [] = Raise IndexError.
Proof. intros Hunf. unfold SequentialReplayMemory.add. by rewrite Hunf. Qed.

Lemma run_keeps : forall (calls : list SequentialReplayMemory.call) s s',
  SequentialReplayMemory.run s calls = Ok s' ->
  (exists eps, SequentialReplayMemory.columns eps s /\
               SequentialReplayMemory.within_capacity eps s) ->
  (exists eps', SequentialReplayMemory.columns eps' s' /\
                SequentialReplayMemory.within_capacity eps' s') /\
  SequentialReplayMemory.same_parameters s s'.
Proof.
  induction calls as [|c calls IH]; intros s s' Hrun (eps & Hcols & Hcap).
  - simpl in Hrun. injection Hrun as <-. split; [by exists eps|done].
  - destruct c as [dataset|]; simpl in Hrun.
    + destruct (decide (SequentialReplayMemory.unfinished_episode s ++ dataset = []))
        as [Hempty|Hne].
      * apply app_eq_nil in Hempty as [Hunf ->].
        by rewrite (add_empty_raises s Hunf) in Hrun.
      * destruct (add_returns eps s dataset Hcols Hcap Hne)
          as (s1 & k & Hadd & Hcols1 & Hcap1 & Hpar1 & _).
        rewrite Hadd in Hrun. simpl in Hrun.
        destruct (IH s1 s' Hrun) as [Hinv Hpar]; [by eexists|].
        split; [done|]. destruct Hpar1 as (? & ? & ?), Hpar as (? & ? & ?).
        unfold SequentialReplayMemory.same_parameters. repeat split; congruence.
    + destruct (IH (SequentialReplayMemory.reset s) s' Hrun) as [Hinv Hpar].
      * exists []. destruct Hcap as [_ Hsize]. unfold SequentialReplayMemory.columns,
          SequentialReplayMemory.within_capacity. simpl.
        repeat split; try done. lia.
      * split; [done|]. exact Hpar.
Qed.

Lemma init_columns (initial_size max_size unroll_steps : nat) :
  exists eps : list episode,
    SequentialReplayMemory.columns eps
      (SequentialReplayMemory.init initial_size max_size unroll_steps) /\
    SequentialReplayMemory.within_capacity eps
      (SequentialReplayMemory.init initial_size max_size unroll_steps).
Proof.
  exists []. unfold SequentialReplayMemory.columns,
    SequentialReplayMemory.within_capacity. simpl.
  repeat split; try done. lia.
Qed.

End Episodic.

(** C6: after every add call of a SequentialReplayMemory (started by the
    constructor and driven by add and reset calls), the six lists are the
    columns of whole episodes, each of them of a length with
    unroll_steps <= length < max_size; _lengths lists their lengths and _size
    is their sum, at most max_size; and the stored episodes are what is left
    of the episodes stored before followed by the storable new ones after
    dropping some of the oldest.  The call returns unless it is given nothing
    to split. *)
Theorem episodic_capacity {St Ac Rw : Type}
    (initial_size max_size unroll_steps : nat)
    (calls : list (@SequentialReplayMemory.call St Ac Rw))
    (s : SequentialReplayMemory.t St Ac Rw)
    (dataset : list (SequentialReplayMemory.transition St Ac Rw)) :
  SequentialReplayMemory.run
    (SequentialReplayMemory.init initial_size max_size unroll_steps) calls
    = Ok s ->
  (SequentialReplayMemory.unfinished_episode s ++ dataset <> [] ->
   exists sa, SequentialReplayMemory.add s dataset = Ok sa) /\
  (forall s' added,
     SequentialReplayMemory.add s dataset = Ok (s', added) ->
     Forall (fun ep => (unroll_steps <= length ep < max_size)%nat)
       (SequentialReplayMemory.stored s') /\
     SequentialReplayMemory.columns (SequentialReplayMemory.stored s') s' /\
     (SequentialReplayMemory._size s' <= Z.of_nat max_size)%Z /\
     exists k,
       SequentialReplayMemory.stored s'
       = drop k (SequentialReplayMemory.stored s
                 ++ filter (SequentialReplayMemory.storable s)
                      (SequentialReplayMemory.split_at_boundaries []
                         (SequentialReplayMemory.unfinished_episode s
                          ++ dataset)).1) /\
       added = length (filter (SequentialReplayMemory.storable s)
                         (SequentialReplayMemory.split_at_boundaries []
                            (SequentialReplayMemory.unfinished_episode s
                             ++ dataset)).1)).
Proof.
  intros Hrun.
  destruct (run_keeps calls _ s Hrun) as [(eps & Hcols & Hcap) Hpar];
    [apply init_columns|].
  destruct Hpar as (_ & Hmax & Hunroll). simpl in Hmax, Hunroll.
  pose proof (columns_stored eps s Hcols) as Hstored.
  split.
  - intros Hne.
    destruct (add_returns eps s dataset Hcols Hcap Hne) as (s' & k & Hadd & _).
    by eexists.
  - intros s' added Hadd.
    destruct (decide (SequentialReplayMemory.unfinished_episode s ++ dataset = []))
      as [Hempty|Hne].
    { apply app_eq_nil in Hempty as [Hunf ->].
      by rewrite (add_empty_raises s Hunf) in Hadd. }
    destruct (add_returns eps s dataset Hcols Hcap Hne)
      as (s1 & k & Hadd1 & Hcols1 & [Hrange1 Hsize1] & Hpar1 & _).
    rewrite Hadd in Hadd1. injection Hadd1 as <- ->.
    destruct Hpar1 as (_ & Hmax1 & Hunroll1).
    rewrite (columns_stored _ s' Hcols1), Hstored.
    rewrite Hmax1, Hunroll1, Hmax, Hunroll in *.
    split; [done|]. split; [done|]. split; [done|]. by exists k.
Qed.

Lemma episodic_capacity_witness :
  exists s' added,
    SequentialReplayMemory.add (SequentialReplayMemory.init 1 5 2)
      Examples.seven_steps = Ok (s', added) /\
    Forall (fun ep => (2 <= length ep < 5)%nat) (SequentialReplayMemory.stored s') /\
    (SequentialReplayMemory._size s' <= 5)%Z.
Proof.
  destruct (episodic_capacity 1 5 2 [] (SequentialReplayMemory.init 1 5 2)
              Examples.seven_steps eq_refl) as [Hreturns Hinv].
  destruct (Hreturns ltac:(done)) as [[s' added] Hadd].
  exists s', added. split; [exact Hadd|].
  destruct (Hinv s' added Hadd) as (Hrange & _ & Hsize & _).
  split; [exact Hrange|exact Hsize].
Defined.

(** ** C5: add splits the stream at the boundary flags *)

(** C5: SequentialReplayMemory.add prepends the carried-over
    unfinished_episode to the incoming stream, cuts the concatenation after
    every transition whose boundary flag is set and keeps the tail as the new
    unfinished_episode; a 7-step stream flagged at positions 2 and 5 gives
    episodes of length 3 and 3 and 1 unfinished transition. *)
Theorem episode_split :
  (forall (St Ac Rw : Type) (initial_size max_size unroll_steps : nat)
          (calls : list (@SequentialReplayMemory.call St Ac Rw))
          (s : SequentialReplayMemory.t St Ac Rw)
          (dataset : list (SequentialReplayMemory.transition St Ac Rw)),
     SequentialReplayMemory.run
       (SequentialReplayMemory.init initial_size max_size unroll_steps) calls
       = Ok s ->
     SequentialReplayMemory.unfinished_episode s ++ dataset <> [] ->
     exists episodes rest s' added,
       SequentialReplayMemory._split_dataset
         (SequentialReplayMemory.unfinished_episode s ++ dataset)
         = Ok (episodes, rest) /\
       concat episodes ++ rest
         = SequentialReplayMemory.unfinished_episode s ++ dataset /\
       Forall (fun ep => exists body d,
                 ep = body ++ [d] /\
                 SequentialReplayMemory.absorbing d = true /\
                 Forall (fun d' => SequentialReplayMemory.absorbing d' = false)
                   body) episodes /\
       Forall (fun d => SequentialReplayMemory.absorbing d = false) rest /\
       SequentialReplayMemory.add s dataset = Ok (s', added) /\
       SequentialReplayMemory.unfinished_episode s' = rest) /\
  (exists e1 e2 rest s',
     SequentialReplayMemory._split_dataset Examples.seven_steps
       = Ok ([e1; e2], rest) /\
     length e1 = 3%nat /\ length e2 = 3%nat /\ length rest = 1%nat /\
     SequentialReplayMemory.add (SequentialReplayMemory.init 1 10 1)
       Examples.seven_steps = Ok (s', 2%nat) /\
     SequentialReplayMemory._lengths s' = [3%nat; 3%nat] /\
     SequentialReplayMemory.unfinished_episode s' = rest).
Proof.
  split.
  - intros St Ac Rw initial_size max_size unroll_steps calls s dataset Hrun Hne.
    destruct (run_keeps calls _ s Hrun) as [(eps & Hcols & Hcap) _];
      [apply init_columns|].
    destruct (add_returns eps s dataset Hcols Hcap Hne)
      as (s' & k & Hadd & _ & _ & _ & Hunf).
    pose proof (split_dataset_refines _ Hne) as Hsplit.
    pose proof (split_at_boundaries_concat
                  (SequentialReplayMemory.unfinished_episode s ++ dataset) [])
      as Hcat.
    destruct (split_at_boundaries_flags
                (SequentialReplayMemory.unfinished_episode s ++ dataset) []
                ltac:(constructor)) as [Hflags Hrest].
    destruct (SequentialReplayMemory.split_at_boundaries []
                (SequentialReplayMemory.unfinished_episode s ++ dataset))
      as [episodes rest].
    eexists episodes, rest, s', _. simpl in *.
    split; [done|]. split; [done|]. split; [done|]. split; [done|].
    split; [exact Hadd|done].
  - do 4 eexists. split; [vm_compute; reflexivity|].
    repeat split; vm_compute; reflexivity.
Qed.

Lemma episode_split_witness :
  exists episodes rest s' added,
    SequentialReplayMemory._split_dataset ([] ++ Examples.seven_steps)
      = Ok (episodes, rest) /\
    concat episodes ++ rest = [] ++ Examples.seven_steps /\
    SequentialReplayMemory.add (SequentialReplayMemory.init 1 10 1)
      Examples.seven_steps = Ok (s', added) /\
    SequentialReplayMemory.unfinished_episode s' = rest.
Proof.
  destruct (proj1 episode_split nat nat nat 1 10 1 []
              (SequentialReplayMemory.init 1 10 1) Examples.seven_steps
              eq_refl ltac:(done))
    as (episodes & rest & s' & added & Hsplit & Hcat & _ & _ & Hadd & Hunf).
  by exists episodes, rest, s', added.
Defined.

(** ** C9: reset *)

Lemma replay_memory_reset {St Ac Rw : Type} (s : ReplayMemory.t St Ac Rw) :
  ReplayMemory.reset s
  = ReplayMemory.init (ReplayMemory._initial_size s) (ReplayMemory._max_size s) /\
  ReplayMemory.size (ReplayMemory.reset s) = 0%nat.
Proof. done. Qed.

Lemma sequential_reset {St Ac Rw : Type} (s : SequentialReplayMemory.t St Ac Rw) :
  SequentialReplayMemory.size (SequentialReplayMemory.reset s) = 0%Z /\
  SequentialReplayMemory.stored (SequentialReplayMemory.reset s) = [] /\
  SequentialReplayMemory.unfinished_episode (SequentialReplayMemory.reset s)
  = SequentialReplayMemory.unfinished_episode s.
Proof. done. Qed.

(** C9 fails on the code: SequentialReplayMemory.reset does not clear
    unfinished_episode.  A transition received before reset() opens the
    first episode stored after it, where a freshly constructed buffer stores
    the episode of the new transition alone. *)
Theorem sequential_reset_keeps_unfinished_episode :
  exists s_reset s_fresh,
    SequentialReplayMemory.run (SequentialReplayMemory.init 1 10 1)
      [SequentialReplayMemory.Add [Examples.step 0 false];
       SequentialReplayMemory.Reset;
       SequentialReplayMemory.Add [Examples.step 1 true]] = Ok s_reset /\
    SequentialReplayMemory.run (SequentialReplayMemory.init 1 10 1)
      [SequentialReplayMemory.Add [Examples.step 1 true]] = Ok s_fresh /\
    SequentialReplayMemory.stored s_reset
      = [[Examples.step 0 false; Examples.step 1 true]] /\
    SequentialReplayMemory.stored s_fresh = [[Examples.step 1 true]] /\
    SequentialReplayMemory.size s_reset = 2%Z /\
    SequentialReplayMemory.size s_fresh = 1%Z.
Proof.
  do 2 eexists. split; [vm_compute; reflexivity|].
  split; [vm_compute; reflexivity|].
  repeat split; vm_compute; reflexivity.
Qed.

(** ** C4: importance-sampling weights *)

Section Weights.
Open Scope Qc_scope.

Lemma Qc_leb_le (a b : Qc) : Qc_leb a b = true <-> a <= b.
Proof. unfold Qc_leb. apply Qle_bool_iff. Qed.

Lemma Qc_of_Z_pos (z : Z) : (0 < z)%Z -> 0 < Qc_of_Z z.
Proof.
  intros Hz. unfold Qclt. change (0 < Qred (inject_Z z))%Q.
  rewrite Qred_correct. unfold Qlt. simpl. lia.
Qed.

Lemma nmax_Qc (x y : Qc) : nmax x y = if Qc_leb x y then y else x.
Proof. reflexivity. Qed.

Lemma fold_max_elem (l : list Qc) : forall x : Qc,
  fold_left nmax l x ∈ x :: l.
Proof.
  induction l as [|y l IH]; intros x; cbn [fold_left].
  - apply list_elem_of_here.
  - rewrite nmax_Qc. destruct (Qc_leb x y).
    + apply list_elem_of_further, IH.
    + specialize (IH x). apply elem_of_cons in IH as [Heq|Hin].
      * rewrite Heq. apply list_elem_of_here.
      * by do 2 apply list_elem_of_further.
Qed.

Lemma fold_max_upper (l : list Qc) : forall x z : Qc,
  z ∈ x :: l -> z <= fold_left nmax l x.
Proof.
  induction l as [|y l IH]; intros x z Hz; cbn [fold_left].
  - apply list_elem_of_singleton in Hz as ->. apply Qcle_refl.
  - assert (x <= nmax x y /\ y <= nmax x y) as [Hx Hy].
    { rewrite nmax_Qc. destruct (Qc_leb x y) eqn:E.
      - apply Qc_leb_le in E. split; [done|apply Qcle_refl].
      - split; [apply Qcle_refl|]. apply Qclt_le_weak, Qcnot_le_lt.
        intros Hle. apply Qc_leb_le in Hle. congruence. }
    apply elem_of_cons in Hz as [->|Hz].
    + eapply Qcle_trans; [exact Hx|]. apply IH, list_elem_of_here.
    + apply elem_of_cons in Hz as [->|Hz].
      * eapply Qcle_trans; [exact Hy|]. apply IH, list_elem_of_here.
      * apply IH. by apply list_elem_of_further.
Qed.

Lemma array_max_spec (l : list Qc) :
  l <> [] ->
  exists M, array_max l = Ok M /\ M ∈ l /\ forall z, z ∈ l -> z <= M.
Proof.
  destruct l as [|x l]; [done|]. intros _. exists (fold_left nmax l x).
  split; [done|]. split; [apply fold_max_elem|apply fold_max_upper].
Qed.

Lemma importance_weights_spec (power : Qc -> Qc -> Qc) (size : Z)
    (total beta : Qc) (priorities : list Qc) (ws : list Qc) :
  (forall x y, 0 < x -> 0 < power x y) ->
  0 < total -> (1 <= size)%Z ->
  Forall (fun p => 0 < p) priorities ->
  PrioritizedReplayMemory.importance_weights power size total beta priorities
    = Ok ws ->
  exists M,
    array_max (map (fun p => power (Qc_of_Z size * (p / total)) (- beta))
                 priorities) = Ok M /\
    ws = map (fun p => power (Qc_of_Z size * (p / total)) (- beta) / M)
           priorities /\
    array_max ws = Ok 1 /\
    Forall (fun w => 0 <= w) ws.
Proof.
  intros Hpower Htotal Hsize Hpos Hrun.
  unfold PrioritizedReplayMemory.importance_weights in Hrun.
  cbv zeta in Hrun. rewrite map_map in Hrun.
  set (raw := fun p => power (Qc_of_Z size * (p / total)) (- beta)).
  change (map _ priorities) with (map raw priorities) in Hrun.
  assert (forall p, p ∈ priorities -> 0 < raw p) as Hraw.
  { intros p Hp. apply Hpower. apply Qcmult_pos_pos.
    - apply Qc_of_Z_pos. lia.
    - apply Qcmult_pos_pos; [|by apply Qcinv_pos].
      rewrite Forall_forall in Hpos. by apply Hpos. }
  destruct (decide (priorities = [])) as [->|Hne]; [discriminate|].
  destruct (array_max_spec (map raw priorities)) as (M & HM & Hin & Hupper).
  { intros Hnil. apply Hne. by destruct priorities. }
  rewrite HM in Hrun. cbn [Py.bind] in Hrun. injection Hrun as <-.
  change (fun w : Qc => ndiv w M) with (fun w : Qc => w / M).
  assert (0 < M) as HMpos.
  { apply list_elem_of_fmap in Hin as (p & -> & Hp). by apply Hraw. }
  assert (M <> 0) as HMnz by (intros ->; by apply (Qclt_not_eq 0 0)).
  exists M. split; [done|]. split; [by rewrite map_map|].
  assert (forall w, w ∈ map (fun w => w / M) (map raw priorities) ->
            0 <= w /\ w <= 1) as Hbounds.
  { intros w Hw. apply list_elem_of_fmap in Hw as (r & -> & Hr).
    pose proof (Hupper r Hr) as HrM.
    apply list_elem_of_fmap in Hr as (p & -> & Hp).
    pose proof (Hraw p Hp) as Hrp. pose proof (Qcinv_pos M HMpos) as Hinv.
    split.
    - apply Qclt_le_weak. by apply Qcmult_pos_pos.
    - rewrite <- (Qcmult_inv_r M HMnz).
      apply Qcmult_le_mono_nonneg_r; [by apply Qclt_le_weak|done]. }
  split.
  - destruct (array_max_spec (map (fun w => w / M) (map raw priorities)))
      as (M' & HM' & Hin' & Hupper').
    { intros Hnil. apply Hne. by destruct priorities. }
    rewrite HM'. f_equal. apply Qcle_antisym.
    + by apply Hbounds.
    + apply Hupper'. apply list_elem_of_fmap. exists M. split; [|done].
      unfold Qcdiv. by rewrite Qcmult_inv_r.
  - apply Forall_forall. intros w Hw. by apply Hbounds.
Qed.

Lemma get_loop_priorities {D : Type} (fuel : nat) (rng : nat -> nat -> bool)
    (tree : SumTree.t Qc D) : forall (samples : list Qc) (i : nat) datas idxs ps,
  PrioritizedReplayMemory.get_loop fuel rng tree i samples
    = Ok (datas, idxs, ps) ->
  Forall2 (fun idx p => getitem (SumTree._tree tree) idx = Ok p) idxs ps.
Proof.
  induction samples as [|x samples IH]; intros i datas idxs ps Hrun.
  - simpl in Hrun. injection Hrun as <- <- <-. constructor.
  - simpl in Hrun.
    destruct (SumTree.get fuel (rng i) tree x) as [[[idx v] d]| |] eqn:Hget;
      try discriminate.
    simpl in Hrun. destruct d as [d|]; [|discriminate].
    destruct (PrioritizedReplayMemory.get_loop fuel rng tree (S i) samples)
      as [[[datas' idxs'] ps']| |] eqn:Hrest; try discriminate.
    simpl in Hrun. injection Hrun as <- <- <-.
    constructor; [|by eapply IH].
    unfold SumTree.get in Hget.
    destruct (SumTree._retrieve fuel (rng i) (SumTree._tree tree) x 0)
      as [j| |]; try discriminate.
    simpl in Hget.
    destruct (getitem (SumTree._tree tree) j) as [v'| |] eqn:Hv;
      try discriminate.
    simpl in Hget.
    destruct (getitem (SumTree._data tree) (j - SumTree._max_size tree + 1))
      as [d'| |]; try discriminate.
    simpl in Hget. injection Hget as <- <- _. exact Hv.
Qed.

End Weights.

(** What a [get] that returns has gone through. *)
Lemma get_inversion {V D : Type} `{Num V} (fuel : nat) (power : V -> V -> V)
    (uniform : nat -> V -> V -> V) (rng : nat -> nat -> bool)
    (s : PrioritizedReplayMemory.t V D) (n_samples : nat)
    (datas : list D) (idxs : list Z) (ws : list V) :
  PrioritizedReplayMemory.get fuel power uniform rng s n_samples
    = Ok (datas, idxs, ws) ->
  exists total ps,
    SumTree.total_p (PrioritizedReplayMemory._tree s) = Ok total /\
    PrioritizedReplayMemory.drawable
      (PrioritizedReplayMemory.bounds total n_samples) = true /\
    PrioritizedReplayMemory.get_loop fuel rng (PrioritizedReplayMemory._tree s)
      0 (map (fun iab : nat * (V * V) => uniform iab.1 iab.2.1 iab.2.2)
           (combine (seq 0 n_samples)
              (PrioritizedReplayMemory.bounds total n_samples)))
      = Ok (datas, idxs, ps) /\
    PrioritizedReplayMemory.importance_weights power
      (SumTree.size (PrioritizedReplayMemory._tree s)) total
      (PrioritizedReplayMemory._beta s) ps = Ok ws.
Proof.
  intros Hget. unfold PrioritizedReplayMemory.get in Hget.
  destruct (SumTree.total_p (PrioritizedReplayMemory._tree s))
    as [total| |]; try discriminate.
  cbn [Py.bind] in Hget. cbv zeta in Hget.
  destruct (PrioritizedReplayMemory.drawable
              (PrioritizedReplayMemory.bounds total n_samples)) eqn:Hdraw;
    [|discriminate].
  match type of Hget with
  | context [PrioritizedReplayMemory.get_loop ?f ?r ?t ?i ?l] =>
      destruct (PrioritizedReplayMemory.get_loop f r t i l)
        as [[[datas' idxs'] ps]| |] eqn:Hloop; try discriminate
  end.
  cbn [Py.bind fst snd] in Hget.
  destruct (PrioritizedReplayMemory.importance_weights power
              (SumTree.size (PrioritizedReplayMemory._tree s)) total
              (PrioritizedReplayMemory._beta s) ps) as [ws'| |] eqn:Hw;
    try discriminate.
  cbn [Py.bind] in Hget. injection Hget as <- <- <-.
  by exists total, ps.
Qed.

Lemma Forall2_getitem_unique {A : Type} (tree : list A) :
  forall (idxs : list Z) (ps qs : list A),
    Forall2 (fun idx p => getitem tree idx = Ok p) idxs ps ->
    Forall2 (fun idx p => getitem tree idx = Ok p) idxs qs ->
    ps = qs.
Proof.
  induction idxs as [|idx idxs IH]; intros ps qs Hps Hqs;
    inversion Hps as [|? p ? ps' Hp Hps']; subst;
    inversion Hqs as [|? q ? qs' Hq Hqs']; subst; [done|].
  rewrite Hp in Hq. injection Hq as <-. f_equal. by apply IH.
Qed.

(** The weights in exact arithmetic, with a power that is positive on
    positive bases: for every PrioritizedReplayMemory.get(n_samples) call
    that returns on a buffer with total_priority > 0 and size >= 1 and whose
    sampled priorities are all positive, each returned weight is
    (size * priority_i / total_priority)^(-beta) divided by the batch maximum
    of those values, the maximum of the returned weights is exactly 1 and
    every weight is >= 0. *)
Lemma importance_weights_exact {D : Type} (power : Qc -> Qc -> Qc)
    (fuel : nat) (uniform : nat -> Qc -> Qc -> Qc) (rng : nat -> nat -> bool)
    (s : PrioritizedReplayMemory.t Qc D) (n_samples : nat)
    (datas : list D) (idxs : list Z) (ws : list Qc) (total : Qc) :
  (forall x y, (0 < x)%Qc -> (0 < power x y)%Qc) ->
  PrioritizedReplayMemory.get fuel power uniform rng s n_samples
    = Ok (datas, idxs, ws) ->
  SumTree.total_p (PrioritizedReplayMemory._tree s) = Ok total ->
  (0 < total)%Qc ->
  (1 <= SumTree.size (PrioritizedReplayMemory._tree s))%Z ->
  (exists priorities,
     Forall2 (fun idx p =>
                getitem (SumTree._tree (PrioritizedReplayMemory._tree s)) idx
                = Ok p) idxs priorities) /\
  (forall priorities,
     Forall2 (fun idx p =>
                getitem (SumTree._tree (PrioritizedReplayMemory._tree s)) idx
                = Ok p) idxs priorities ->
     Forall (fun p => (0 < p)%Qc) priorities ->
     exists M,
       array_max
         (map (fun p =>
                 power (Qc_of_Z (SumTree.size (PrioritizedReplayMemory._tree s))
                        * (p / total))%Qc
                   (- PrioritizedReplayMemory._beta s)%Qc) priorities) = Ok M /\
       ws = map (fun p =>
                   (power (Qc_of_Z (SumTree.size (PrioritizedReplayMemory._tree s))
                           * (p / total))
                      (- PrioritizedReplayMemory._beta s) / M)%Qc) priorities /\
       array_max ws = Ok 1%Qc /\
       Forall (fun w => (0 <= w)%Qc) ws).
Proof.
  intros Hpower Hget Htotal Hpos Hsize.
  destruct (get_inversion _ _ _ _ _ _ _ _ _ Hget)
    as (total' & ps & Htotal' & _ & Hloop & Hw).
  rewrite Htotal in Htotal'. injection Htotal' as <-.
  pose proof (get_loop_priorities _ _ _ _ _ _ _ _ Hloop) as Hps.
  split; [by exists ps|].
  intros priorities Hpriorities Hpositive.
  rewrite (Forall2_getitem_unique _ _ _ _ Hpriorities Hps) in *.
  by apply (importance_weights_spec power _ total _ ps ws).
Qed.

Lemma importance_weights_exact_witness :
  exists s datas idxs ws,
    Examples.exact_priorities = Ok s /\
    PrioritizedReplayMemory.get 3 Examples.exact_reciprocal
      (fun _ a _ => a) (fun _ _ => false) s 2 = Ok (datas, idxs, ws) /\
    idxs = [1%Z; 2%Z] /\
    array_max ws = Ok 1%Qc /\
    Forall (fun w => (0 <= w)%Qc) ws.
Proof.
  do 4 eexists. split; [vm_compute; reflexivity|].
  match goal with
  | |- PrioritizedReplayMemory.get _ _ _ _ ?s0 _ = _ /\ _ => set (s := s0)
  end.
  split; [vm_compute; reflexivity|]. split; [reflexivity|].
  edestruct (importance_weights_exact (D:=nat) Examples.exact_reciprocal 3
               (fun _ a _ => a) (fun _ _ => false) s 2) as [_ Hweights].
  - intros x y Hx. by apply Qcinv_pos.
  - vm_compute. reflexivity.
  - vm_compute. reflexivity.
  - reflexivity.
  - by vm_compute.
  - destruct (Hweights [Qc_of_Z 1; Qc_of_Z 3]) as (M & _ & _ & Hmax & Hnonneg).
    + repeat constructor.
    + repeat constructor.
    + split; [exact Hmax|exact Hnonneg].
Defined.

(** ** binary64: rounding a quotient

    The facts of IEEE 754 division the normalisation of the weights rests
    on, from the specification of the primitive floats. *)

Section Rounding.
Local Open Scope Z_scope.

Lemma fexp64 (e : Z) : fexp prec emax e = Z.max (e - 53) (-1074).
Proof. reflexivity. Qed.

Lemma digits2_pos_bounds (p : positive) :
  2 ^ (Z.pos (digits2_pos p) - 1) <= Z.pos p < 2 ^ Z.pos (digits2_pos p).
Proof.
  induction p as [p IH|p IH|]; simpl digits2_pos.
  - rewrite Pos2Z.inj_succ.
    replace (Z.succ (Z.pos (digits2_pos p)) - 1)
      with (Z.succ (Z.pos (digits2_pos p) - 1)) by lia.
    rewrite !Z.pow_succ_r by lia. lia.
  - rewrite Pos2Z.inj_succ.
    replace (Z.succ (Z.pos (digits2_pos p)) - 1)
      with (Z.succ (Z.pos (digits2_pos p) - 1)) by lia.
    rewrite !Z.pow_succ_r by lia. lia.
  - simpl. lia.
Qed.

(** An upper bound on a number bounds its number of digits. *)
Lemma Zdigits2_le (m k : Z) : 0 <= m -> 0 <= k -> m < 2 ^ k -> Zdigits2 m <= k.
Proof.
  intros Hm Hk Hlt. destruct m as [|p|p]; simpl; [lia| |lia].
  pose proof (digits2_pos_bounds p) as [Hlow _].
  destruct (Z_lt_le_dec k (Z.pos (digits2_pos p))) as [Hgt|]; [|lia].
  assert (2 ^ k <= 2 ^ (Z.pos (digits2_pos p) - 1))
    by (apply Z.pow_le_mono_r; lia).
  lia.
Qed.

Lemma shr_1_m (mrs : shr_record) :
  0 <= shr_m mrs -> shr_m (shr_1 mrs) = shr_m mrs / 2.
Proof.
  destruct mrs as [[|[p|p|]|p] r s]; simpl; intros Hm.
  - reflexivity.
  - replace (Z.pos p~1) with (2 * Z.pos p + 1) by lia.
    apply (Z.div_unique _ _ _ 1); lia.
  - replace (Z.pos p~0) with (2 * Z.pos p) by lia.
    apply (Z.div_unique _ _ _ 0); lia.
  - reflexivity.
  - lia.
Qed.

Lemma iter_shr_1_m (p : positive) : forall mrs : shr_record,
  0 <= shr_m mrs ->
  shr_m (SpecFloat.iter_pos shr_1 p mrs) = shr_m mrs / 2 ^ Z.pos p.
Proof.
  induction p as [p IH|p IH|]; intros mrs Hm; simpl SpecFloat.iter_pos.
  - assert (0 <= shr_m (shr_1 mrs)) as H1
      by (rewrite shr_1_m by done; apply Z.div_pos; lia).
    assert (0 <= shr_m (SpecFloat.iter_pos shr_1 p (shr_1 mrs))) as H2
      by (rewrite IH by done; apply Z.div_pos; lia).
    rewrite IH, IH, shr_1_m by done.
    assert (0 < 2 ^ Z.pos p) by (apply Z.pow_pos_nonneg; lia).
    rewrite !Z.div_div by lia. f_equal.
    replace (Z.pos p~1) with (1 + (Z.pos p + Z.pos p)) by lia.
    rewrite !Z.pow_add_r by lia. lia.
  - assert (0 <= shr_m (SpecFloat.iter_pos shr_1 p mrs)) as H2
      by (rewrite IH by done; apply Z.div_pos; lia).
    rewrite IH, IH by done.
    assert (0 < 2 ^ Z.pos p) by (apply Z.pow_pos_nonneg; lia).
    rewrite !Z.div_div by lia. f_equal.
    replace (Z.pos p~0) with (Z.pos p + Z.pos p) by lia.
    rewrite !Z.pow_add_r by lia. lia.
  - by rewrite shr_1_m.
Qed.

(** [shr_fexp] moves the exponent up to [fexp] and drops the low bits. *)
Lemma shr_fexp_m (m e : Z) (l : location) :
  0 <= m ->
  exists mrs,
    shr_fexp prec emax m e l
    = (mrs, Z.max e (fexp prec emax (Zdigits2 m + e))) /\
    shr_m mrs = m / 2 ^ (Z.max e (fexp prec emax (Zdigits2 m + e)) - e).
Proof.
  intros Hm. unfold shr_fexp, shr.
  assert (shr_m (shr_record_of_loc m l) = m) as Hrec
    by (by destruct l as [|[]]).
  destruct (fexp prec emax (Zdigits2 m + e) - e) as [|n|n] eqn:Hn.
  - eexists. split; [f_equal; lia|].
    rewrite Hrec. replace (Z.max _ _ - e) with 0 by lia.
    by rewrite Z.div_1_r.
  - eexists. split; [f_equal; lia|].
    rewrite iter_shr_1_m by lia. rewrite Hrec. do 2 f_equal. lia.
  - eexists. split; [f_equal; lia|].
    rewrite Hrec. replace (Z.max _ _ - e) with 0 by lia.
    by rewrite Z.div_1_r.
Qed.

Lemma round_nearest_even_bounds (m : Z) (l : location) :
  m <= round_nearest_even m l <= m + 1.
Proof. destruct l as [|[]]; simpl; try lia. destruct (Z.even m); lia. Qed.

(** Rounding a value below one gives at most one. *)
Lemma binary_round_aux_le_one (q e : Z) (l : location) :
  0 <= q < 2 ^ (- e) -> e <= -53 ->
  SFleb (binary_round_aux prec emax false q e l) Binary64.SFone = true /\
  SFleb (S754_zero false) (binary_round_aux prec emax false q e l) = true.
Proof.
  intros [Hq0 Hq] He. unfold binary_round_aux.
  destruct (shr_fexp_m q e l Hq0) as (mrs1 & -> & Hm1).
  set (e1 := Z.max e (fexp prec emax (Zdigits2 q + e))) in *.
  pose proof (Zdigits2_le q (- e) Hq0 ltac:(lia) Hq) as Hdq.
  assert (e <= e1 <= -53) as He1 by (unfold e1; rewrite fexp64; lia).
  assert (0 <= shr_m mrs1 < 2 ^ (- e1)) as Hm1b.
  { rewrite Hm1. split; [apply Z.div_pos; [lia|apply Z.pow_pos_nonneg; lia]|].
    apply Z.div_lt_upper_bound; [apply Z.pow_pos_nonneg; lia|].
    rewrite <- Z.pow_add_r by lia. by replace (e1 - e + - e1) with (- e) by lia. }
  pose proof (round_nearest_even_bounds (shr_m mrs1) (loc_of_shr_record mrs1))
    as Hm2.
  set (m2 := round_nearest_even (shr_m mrs1) (loc_of_shr_record mrs1)) in *.
  destruct (shr_fexp_m m2 e1 loc_Exact ltac:(lia)) as (mrs2 & -> & Hm3).
  set (e2 := Z.max e1 (fexp prec emax (Zdigits2 m2 + e1))) in *.
  assert (2 ^ (- e1) < 2 ^ (- e1 + 1)) as Hpow
    by (apply Z.pow_lt_mono_r; lia).
  pose proof (Zdigits2_le m2 (- e1 + 1) ltac:(lia) ltac:(lia) ltac:(lia))
    as Hdm2.
  assert (e1 <= e2 <= -52) as He2 by (unfold e2; rewrite fexp64; lia).
  destruct (shr_m mrs2) as [|m3|m3] eqn:Hm3'.
  - done.
  - destruct (Z.leb_spec e2 (emax - prec)) as [_|Hover];
      [|unfold emax, prec in Hover; lia].
    split; [|done]. unfold SFleb, SFcompare, Binary64.SFone.
    destruct (Z.compare_spec e2 (-52)) as [Heq|Hlt|Hgt]; [|done|lia].
    (* the exponent of one: the rounded mantissa is a power of two *)
    assert (Zdigits2 m2 = - e1 + 1) as Hd
      by (unfold e2 in Heq; rewrite fexp64 in Heq; lia).
    assert (m2 = 2 ^ (- e1)) as Hm2eq.
    { destruct m2 as [|p|p]; simpl in Hd; [lia| |lia].
      pose proof (digits2_pos_bounds p) as [Hlow _].
      rewrite Hd in Hlow. replace (- e1 + 1 - 1) with (- e1) in Hlow by lia.
      lia. }
    rewrite Hm2eq, Heq in Hm3.
    replace (- e1) with ((-52 - e1) + 52) in Hm3 at 1 by lia.
    rewrite Z.pow_add_r in Hm3 by lia.
    rewrite Z.mul_comm, Z.div_mul in Hm3
      by (apply Z.pow_nonzero; lia).
    change (2 ^ 52) with (Z.pos 4503599627370496) in Hm3.
    injection Hm3 as ->. by rewrite Pos.compare_cont_refl.
  - exfalso. assert (0 <= Z.neg m3); [|lia].
    rewrite Hm3. apply Z.div_pos; [lia|].
    apply Z.pow_pos_nonneg; lia.
Qed.


Lemma bounded_facts (m : positive) (e : Z) :
  bounded prec emax m e = true ->
  -1074 <= e <= 971 /\ Z.pos (digits2_pos m) <= 53 /\
  (Z.pos (digits2_pos m) = 53 \/ e = -1074).
Proof.
  unfold bounded, canonical_mantissa. intros Hb.
  apply andb_true_iff in Hb as [Hc He].
  apply Z.eqb_eq in Hc. apply Z.leb_le in He.
  rewrite fexp64 in Hc. unfold emax, prec in He. lia.
Qed.

(** The order of two positive finite numbers, read off their fields. *)
Lemma SFleb_finite (m1 m2 : positive) (e1 e2 : Z) :
  SFleb (S754_finite false m1 e1) (S754_finite false m2 e2) = true <->
  e1 < e2 \/ e1 = e2 /\ (m1 <= m2)%positive.
Proof.
  unfold SFleb, SFcompare. rewrite Pos.compare_cont_spec. simpl Pos.switch_Eq.
  destruct (Z.compare_spec e1 e2) as [Heq|Hlt|Hgt].
  - destruct (Pos.compare_spec m1 m2) as [Hm|Hm|Hm]; split; try done;
      try lia.
  - split; [lia|done].
  - split; [done|lia].
Qed.

(** A quotient of two positive finite numbers, the smaller over the
    larger, is between zero and one. *)
Lemma SFdiv_lt_le_one (mx my : positive) (ex ey : Z) :
  bounded prec emax mx ex = true -> bounded prec emax my ey = true ->
  ex < ey \/ ex = ey /\ (mx < my)%positive ->
  SFleb (SFdiv prec emax (S754_finite false mx ex) (S754_finite false my ey))
    Binary64.SFone = true /\
  SFleb (S754_zero false)
    (SFdiv prec emax (S754_finite false mx ex) (S754_finite false my ey))
  = true.
Proof.
  intros Hx Hy Hlt.
  apply bounded_facts in Hx as (Hex & Hdx & Hnx).
  apply bounded_facts in Hy as (Hey & Hdy & Hny).
  pose proof (digits2_pos_bounds mx) as [Hmx0 Hmx1].
  pose proof (digits2_pos_bounds my) as [Hmy0 Hmy1].
  unfold SFdiv, SFdiv_core_binary. simpl Zdigits2. simpl xorb.
  set (e' := Z.min (fexp prec emax (Z.pos (digits2_pos mx) + ex
                                    - (Z.pos (digits2_pos my) + ey)))
               (ex - ey)).
  set (m' := match ex - ey - e' with
             | 0 => Z.pos mx
             | Z.pos _ => Z.shiftl (Z.pos mx) (ex - ey - e')
             | Z.neg _ => 0
             end).
  assert (Z.pos (digits2_pos mx) + ex <= Z.pos (digits2_pos my) + ey) as Hd.
  { destruct Hlt as [Hlt|[-> Hlt]]; [lia|].
    assert (2 ^ (Z.pos (digits2_pos mx) - 1) < 2 ^ Z.pos (digits2_pos my))
      as Hpow by lia.
    apply Z.pow_lt_mono_r_iff in Hpow; lia. }
  assert (e' <= ex - ey /\ e' <= -53) as [He'1 He'2]
    by (unfold e'; rewrite fexp64; lia).
  assert (m' = Z.pos mx * 2 ^ (ex - ey - e')) as Hm'.
  { unfold m'. destruct (ex - ey - e') as [|s|s] eqn:Hs; [simpl; lia| |lia].
    apply Z.shiftl_mul_pow2. lia. }
  clearbody m'.
  destruct (Z.div_eucl m' (Z.pos my)) as [q r] eqn:Hdiv.
  assert (q = m' / Z.pos my) as ->
    by (unfold Z.div; by rewrite Hdiv).
  apply binary_round_aux_le_one; [|done]. split.
  - apply Z.div_pos; [|lia]. rewrite Hm'.
    apply Z.mul_nonneg_nonneg; [lia|]. apply Z.pow_nonneg. lia.
  - apply Z.div_lt_upper_bound; [lia|]. rewrite Hm'.
    replace (- e') with ((ey - ex) + (ex - ey - e')) by lia.
    rewrite Z.pow_add_r by lia.
    assert (0 < 2 ^ (ex - ey - e')) by (apply Z.pow_pos_nonneg; lia).
    assert (Z.pos mx < Z.pos my * 2 ^ (ey - ex)) as Hval.
    { destruct Hlt as [Hlt|[-> Hlt]].
      - assert (2 ^ 1 <= 2 ^ (ey - ex)) by (apply Z.pow_le_mono_r; lia).
        assert (Z.pos mx < 2 ^ 53).
        { eapply Z.lt_le_trans; [exact Hmx1|]. apply Z.pow_le_mono_r; lia. }
        assert (2 ^ 52 <= Z.pos my).
        { destruct Hny as [Hny|Hny]; [|lia].
          rewrite Hny in Hmy0. exact Hmy0. }
        change (2 ^ 1) with 2 in *. change (2 ^ 53) with (2 ^ 52 * 2) in *.
        nia.
      - rewrite Z.sub_diag. simpl. lia. }
    nia.
Qed.

(** A finite number divided by itself is one. *)
Lemma SFdiv_self (s : bool) (m : positive) (e : Z) :
  SFdiv prec emax (S754_finite s m e) (S754_finite s m e) = Binary64.SFone.
Proof.
  unfold SFdiv, SFdiv_core_binary.
  replace (Zdigits2 (Z.pos m) + e - (Zdigits2 (Z.pos m) + e)) with 0 by lia.
  replace (e - e) with 0 by lia.
  change (Z.min (fexp prec emax 0) 0) with (-53).
  change (0 - -53) with 53.
  cbv beta iota zeta.
  rewrite Z.shiftl_mul_pow2 by lia.
  assert (Z.div_eucl (Z.pos m * 2 ^ 53) (Z.pos m) = (2 ^ 53, 0)) as ->.
  { pose proof (Z.div_eucl_eq (Z.pos m * 2 ^ 53) (Z.pos m) ltac:(lia)) as Heq.
    pose proof (Z.mod_pos_bound (Z.pos m * 2 ^ 53) (Z.pos m) ltac:(lia)) as Hr.
    unfold Z.modulo in Hr.
    destruct (Z.div_eucl (Z.pos m * 2 ^ 53) (Z.pos m)) as [q r].
    assert (r = 0).
    { assert (r = Z.pos m * (2 ^ 53 - q)) as Hr' by lia.
      assert (2 ^ 53 - q = 0) by nia. lia. }
    f_equal; nia. }
  assert (new_location (Z.pos m) 0 = loc_Exact) as ->
    by (unfold new_location; by destruct (Z.even (Z.pos m))).
  by destruct s.
Qed.

End Rounding.

Section FloatOrder.
Local Open Scope float_scope.

Lemma Prim2SF_zero : Prim2SF 0 = S754_zero false.
Proof. reflexivity. Qed.

Lemma Prim2SF_one : Prim2SF 1 = Binary64.SFone.
Proof. reflexivity. Qed.

Lemma Prim2SF_infinity : Prim2SF infinity = S754_infinity false.
Proof. reflexivity. Qed.

Lemma regular_finite (x : float) :
  Binary64.regular x = true ->
  exists m e, Prim2SF x = S754_finite false m e /\
    bounded prec emax m e = true.
Proof.
  unfold Binary64.regular. intros Hx. apply andb_true_iff in Hx as [Hpos Hfin].
  rewrite FloatAxioms.ltb_spec, Prim2SF_zero in Hpos.
  rewrite FloatAxioms.ltb_spec, Prim2SF_infinity in Hfin.
  pose proof (Prim2SF_valid x) as Hvalid.
  destruct (Prim2SF x) as [s|s| |s m e]; try done.
  - by destruct s.
  - destruct s; [done|]. by exists m, e.
Qed.

Lemma regular_not_nan (x : float) : Binary64.regular x = true -> is_nan x = false.
Proof.
  intros Hx. destruct (regular_finite x Hx) as (m & e & Hsf & _).
  unfold is_nan. rewrite FloatAxioms.eqb_spec, Hsf. unfold SFeqb, SFcompare.
  by rewrite Z.compare_refl, Pos.compare_cont_refl.
Qed.

Lemma regular_leb_refl (x : float) : Binary64.regular x = true -> (x <=? x) = true.
Proof.
  intros Hx. destruct (regular_finite x Hx) as (m & e & Hsf & _).
  rewrite FloatAxioms.leb_spec, Hsf. apply SFleb_finite. right. split; [done|lia].
Qed.

Lemma regular_leb_total (x y : float) :
  Binary64.regular x = true -> Binary64.regular y = true ->
  (x <=? y) = false -> (y <=? x) = true.
Proof.
  intros Hx Hy Hle.
  destruct (regular_finite x Hx) as (mx & ex & Hsx & _).
  destruct (regular_finite y Hy) as (my & ey & Hsy & _).
  rewrite FloatAxioms.leb_spec, Hsx, Hsy in *. apply SFleb_finite.
  destruct (Z_lt_le_dec ey ex) as [|Hge]; [by left|].
  destruct (Pos.leb_spec my mx) as [Hm|Hm].
  - destruct (decide (ex = ey)) as [->|]; [by right|].
    assert (SFleb (S754_finite false mx ex) (S754_finite false my ey) = true)
      by (apply SFleb_finite; left; lia).
    congruence.
  - assert (SFleb (S754_finite false mx ex) (S754_finite false my ey) = true).
    { apply SFleb_finite.
      destruct (decide (ex = ey)) as [->|]; [right; split; [done|lia]|].
      left. lia. }
    congruence.
Qed.

Lemma regular_leb_trans (x y z : float) :
  Binary64.regular x = true -> Binary64.regular y = true -> Binary64.regular z = true ->
  (x <=? y) = true -> (y <=? z) = true -> (x <=? z) = true.
Proof.
  intros Hx Hy Hz.
  destruct (regular_finite x Hx) as (mx & ex & Hsx & _).
  destruct (regular_finite y Hy) as (my & ey & Hsy & _).
  destruct (regular_finite z Hz) as (mz & ez & Hsz & _).
  rewrite !FloatAxioms.leb_spec, Hsx, Hsy, Hsz, !SFleb_finite. lia.
Qed.

(** The smaller of two finite positive numbers over the larger. *)
Lemma div_unit_weight (x y : float) :
  Binary64.regular x = true -> Binary64.regular y = true -> (x <=? y) = true ->
  Binary64.unit_weight (x / y) = true.
Proof.
  intros Hx Hy Hle.
  destruct (regular_finite x Hx) as (mx & ex & Hsx & Hbx).
  destruct (regular_finite y Hy) as (my & ey & Hsy & Hby).
  rewrite FloatAxioms.leb_spec, Hsx, Hsy in Hle. apply SFleb_finite in Hle.
  unfold Binary64.unit_weight.
  rewrite !FloatAxioms.leb_spec, FloatAxioms.div_spec, Hsx, Hsy, Prim2SF_zero,
    Prim2SF_one.
  destruct (decide (ex = ey /\ mx = my)) as [[-> ->]|Hne].
  - unfold SF64div. by rewrite SFdiv_self.
  - destruct (SFdiv_lt_le_one mx my ex ey Hbx Hby) as [Hone Hzero].
    { destruct Hle as [Hlt|[-> Hm]]; [by left|]. right. split; [done|].
      destruct (Pos.eq_dec mx my) as [->|]; [by destruct Hne|lia]. }
    unfold SF64div. by rewrite Hone, Hzero.
Qed.

Lemma div_self_one (x : float) : Binary64.regular x = true -> x / x = 1.
Proof.
  intros Hx. destruct (regular_finite x Hx) as (m & e & Hsx & _).
  apply Prim2SF_inj.
  rewrite FloatAxioms.div_spec, Hsx, Prim2SF_one. apply SFdiv_self.
Qed.

Lemma unit_weight_not_nan (w : float) :
  Binary64.unit_weight w = true -> is_nan w = false.
Proof.
  unfold Binary64.unit_weight. intros Hw. apply andb_true_iff in Hw as [Hw _].
  rewrite FloatAxioms.leb_spec, Prim2SF_zero in Hw.
  unfold is_nan. rewrite FloatAxioms.eqb_spec. unfold SFeqb, SFcompare.
  destruct (Prim2SF w) as [s|s| |s m e]; try done.
  - by destruct s.
  - destruct s; [done|].
    by rewrite Z.compare_refl, Pos.compare_cont_refl.
Qed.

Lemma unit_weight_one (w : float) :
  Binary64.unit_weight w = true -> (1 <=? w) = true -> w = 1.
Proof.
  unfold Binary64.unit_weight. intros Hw Hone. apply andb_true_iff in Hw as [_ Hw].
  apply Prim2SF_inj. rewrite Prim2SF_one.
  rewrite FloatAxioms.leb_spec, Prim2SF_one in Hw, Hone.
  destruct (Prim2SF w) as [s|s| |s m e]; try done.
  - by destruct s.
  - destruct s; [done|]. unfold Binary64.SFone in *.
    apply SFleb_finite in Hw, Hone.
    destruct Hw as [Hlt|[He Hm]]; destruct Hone as [Hgt|[He' Hm']].
    + exfalso. clear -Hlt Hgt. lia.
    + exfalso. clear -Hlt He'. lia.
    + exfalso. clear -He Hgt. lia.
    + by rewrite He, (Pos.le_antisym _ _ Hm Hm').
Qed.

End FloatOrder.

(** ** binary64: the maximum of a batch *)

Section FloatMax.
Local Open Scope float_scope.

Lemma nmax_regular (a b : float) :
  Binary64.regular a = true -> Binary64.regular b = true ->
  nmax a b = if a <=? b then b else a.
Proof.
  intros Ha Hb. cbn [nmax Num_float].
  by rewrite (regular_not_nan a Ha), (regular_not_nan b Hb).
Qed.

(** The batch maximum of finite positive numbers is one of them and is
    not below any of them. *)
Lemma fold_max_regular : forall (rs : list float) (r0 : float),
  Binary64.regular r0 = true -> Forall (fun r => Binary64.regular r = true) rs ->
  Binary64.regular (fold_left nmax rs r0) = true /\
  Forall (fun r => (r <=? fold_left nmax rs r0) = true) (r0 :: rs) /\
  fold_left nmax rs r0 ∈ r0 :: rs.
Proof.
  induction rs as [|r rs IH]; intros r0 Hr0 Hrs.
  - simpl. split; [done|]. split; [|apply list_elem_of_here].
    constructor; [|constructor]. by apply regular_leb_refl.
  - apply Forall_cons in Hrs as [Hr Hrs]. cbn [fold_left].
    rewrite (nmax_regular r0 r Hr0 Hr).
    destruct (r0 <=? r) eqn:Hle.
    + destruct (IH r Hr Hrs) as (HM & Hall & Hin).
      split; [done|]. split.
      * apply Forall_cons in Hall as [HrM Hall].
        constructor; [|by constructor].
        by apply (regular_leb_trans r0 r).
      * by apply list_elem_of_further.
    + destruct (IH r0 Hr0 Hrs) as (HM & Hall & Hin).
      split; [done|]. split.
      * apply Forall_cons in Hall as [Hr0M Hall].
        constructor; [done|]. constructor; [|done].
        apply (regular_leb_trans r r0); try done.
        by apply regular_leb_total.
      * apply elem_of_cons in Hin as [->|Hin]; [apply list_elem_of_here|].
        by do 2 apply list_elem_of_further.
Qed.

Lemma unit_weight_one_is : Binary64.unit_weight 1 = true.
Proof. reflexivity. Qed.

Lemma nmax_unit_weight (a b : float) :
  Binary64.unit_weight a = true -> Binary64.unit_weight b = true ->
  Binary64.unit_weight (nmax a b) = true /\ (a = 1 \/ b = 1 -> nmax a b = 1).
Proof.
  intros Ha Hb. cbn [nmax Num_float].
  rewrite (unit_weight_not_nan a Ha), (unit_weight_not_nan b Hb).
  destruct (a <=? b) eqn:Hle.
  - split; [done|]. intros [Ha1|Hone]; [|done]. subst a. by apply unit_weight_one.
  - split; [done|]. intros [Ha1|Hone]; [done|]. subst b.
    unfold Binary64.unit_weight in Ha. apply andb_true_iff in Ha as [_ Ha]. congruence.
Qed.

(** The maximum of weights between zero and one, one of which is one. *)
Lemma fold_max_unit_weight : forall (ws : list float) (w0 : float),
  Binary64.unit_weight w0 = true -> Forall (fun w => Binary64.unit_weight w = true) ws ->
  w0 = 1 \/ 1 ∈ ws ->
  fold_left nmax ws w0 = 1.
Proof.
  induction ws as [|w ws IH]; intros w0 Hw0 Hws Hone.
  - simpl. destruct Hone as [->|Hin]; [done|]. by apply elem_of_nil in Hin.
  - apply Forall_cons in Hws as [Hw Hws]. cbn [fold_left].
    destruct (nmax_unit_weight w0 w Hw0 Hw) as [Hunit Hmax].
    apply IH; [done|done|].
    destruct Hone as [->|Hin]; [left; apply Hmax; by left|].
    apply elem_of_cons in Hin as [<-|Hin]; [|by right].
    left. apply Hmax. by right.
Qed.

(** Dividing a batch of finite positive numbers by its maximum. *)
Lemma normalised_batch (rs : list float) (M : float) (ws : list float) :
  Forall (fun r => Binary64.regular r = true) rs ->
  array_max rs = Ok M ->
  ws = map (fun r => r / M) rs ->
  array_max ws = Ok 1 /\ Forall (fun w => Binary64.unit_weight w = true) ws.
Proof.
  intros Hrs HM ->. destruct rs as [|r0 rs]; [done|].
  apply Forall_cons in Hrs as [Hr0 Hrs].
  cbn [array_max] in HM.
  apply (f_equal (fun r => match r with Ok a => a | _ => M end)) in HM.
  cbn beta iota in HM. subst M.
  destruct (fold_max_regular rs r0 Hr0 Hrs) as (HM & Hall & Hin).
  set (M := fold_left nmax rs r0) in *.
  assert (Forall (fun w => Binary64.unit_weight w = true)
            (map (fun r => r / M) (r0 :: rs))) as Hunit.
  { apply Forall_fmap. apply Forall_forall. intros r Hr.
    assert (Binary64.regular r = true) as Hreg.
    { apply elem_of_cons in Hr as [->|Hr]; [done|].
      rewrite Forall_forall in Hrs. by apply Hrs. }
    rewrite Forall_forall in Hall.
    apply div_unit_weight; [done|done|by apply Hall]. }
  split; [|done]. cbn [map array_max]. f_equal.
  cbn [map] in Hunit. apply Forall_cons in Hunit as [Hu0 Hus].
  apply fold_max_unit_weight; [done|done|].
  apply elem_of_cons in Hin as [HMr0|Hin].
  - left. rewrite <- HMr0. by apply div_self_one.
  - right. apply list_elem_of_fmap. exists M. split; [|done].
    symmetry. by apply div_self_one.
Qed.

End FloatMax.

(** The priorities a [get] that returns has read, in any arithmetic. *)
Lemma get_loop_getitem {V D : Type} `{Num V} (fuel : nat)
    (rng : nat -> nat -> bool) (tree : SumTree.t V D) :
  forall (samples : list V) (i : nat) datas idxs ps,
    PrioritizedReplayMemory.get_loop fuel rng tree i samples
      = Ok (datas, idxs, ps) ->
    Forall2 (fun idx p => getitem (SumTree._tree tree) idx = Ok p) idxs ps.
Proof.
  induction samples as [|x samples IH]; intros i datas idxs ps Hrun.
  - simpl in Hrun. injection Hrun as <- <- <-. constructor.
  - simpl in Hrun.
    destruct (SumTree.get fuel (rng i) tree x) as [[[idx v] d]| |] eqn:Hget;
      try discriminate.
    simpl in Hrun. destruct d as [d|]; [|discriminate].
    destruct (PrioritizedReplayMemory.get_loop fuel rng tree (S i) samples)
      as [[[datas' idxs'] ps']| |] eqn:Hrest; try discriminate.
    simpl in Hrun. injection Hrun as <- <- <-.
    constructor; [|by eapply IH].
    unfold SumTree.get in Hget.
    destruct (SumTree._retrieve fuel (rng i) (SumTree._tree tree) x 0)
      as [j| |]; try discriminate.
    simpl in Hget.
    destruct (getitem (SumTree._tree tree) j) as [v'| |] eqn:Hv;
      try discriminate.
    simpl in Hget.
    destruct (getitem (SumTree._data tree) (j - SumTree._max_size tree + 1))
      as [d'| |]; try discriminate.
    simpl in Hget. injection Hget as <- <- _. exact Hv.
Qed.

(** C4 (as amended): in binary64, for every
    PrioritizedReplayMemory.get(n_samples) call that returns and whose raw
    weights (size * priority_i / total_priority) ** (-beta) are all finite
    and positive, each returned weight is its raw weight divided by the batch
    maximum of the raw weights, the maximum of the returned weights is
    exactly 1.0 and every weight is >= 0 (and <= 1).  The power x ** y is
    numpy's and can be any function. *)
Theorem importance_weights_normalised {D : Type}
    (power : float -> float -> float) (fuel : nat)
    (uniform : nat -> float -> float -> float) (rng : nat -> nat -> bool)
    (s : PrioritizedReplayMemory.t float D) (n_samples : nat)
    (datas : list D) (idxs : list Z) (ws : list float) (total : float) :
  PrioritizedReplayMemory.get fuel power uniform rng s n_samples
    = Ok (datas, idxs, ws) ->
  SumTree.total_p (PrioritizedReplayMemory._tree s) = Ok total ->
  (exists priorities,
     Forall2 (fun idx p =>
                getitem (SumTree._tree (PrioritizedReplayMemory._tree s)) idx
                = Ok p) idxs priorities) /\
  (forall priorities,
     Forall2 (fun idx p =>
                getitem (SumTree._tree (PrioritizedReplayMemory._tree s)) idx
                = Ok p) idxs priorities ->
     Forall (fun p =>
               Binary64.regular
                 (power
                    (nmul (nof_Z (SumTree.size (PrioritizedReplayMemory._tree s)))
                       (ndiv p total))
                    (nopp (PrioritizedReplayMemory._beta s))) = true)
       priorities ->
     exists M,
       array_max
         (map (fun p =>
                 power
                   (nmul (nof_Z (SumTree.size (PrioritizedReplayMemory._tree s)))
                      (ndiv p total))
                   (nopp (PrioritizedReplayMemory._beta s))) priorities)
       = Ok M /\
       ws = map (fun p =>
                   ndiv
                     (power
                        (nmul
                           (nof_Z (SumTree.size (PrioritizedReplayMemory._tree s)))
                           (ndiv p total))
                        (nopp (PrioritizedReplayMemory._beta s))) M)
              priorities /\
       array_max ws = Ok 1%float /\
       Forall (fun w => PrimFloat.leb 0 w = true /\ PrimFloat.leb w 1 = true)
         ws).
Proof.
  intros Hget Htotal.
  destruct (get_inversion _ _ _ _ _ _ _ _ _ Hget)
    as (total' & ps & Htotal' & _ & Hloop & Hw).
  rewrite Htotal in Htotal'.
  apply (f_equal (fun r => match r with Ok a => a | _ => total end))
    in Htotal'.
  cbn beta iota in Htotal'. subst total'.
  pose proof (get_loop_getitem _ _ _ _ _ _ _ _ Hloop) as Hps.
  split; [by exists ps|].
  intros priorities Hpriorities Hregular.
  rewrite (Forall2_getitem_unique _ _ _ _ Hpriorities Hps) in *.
  clear Hpriorities.
  unfold PrioritizedReplayMemory.importance_weights in Hw.
  rewrite map_map in Hw.
  match type of Hw with
  | context [array_max ?l] => set (rs := l) in *
  end.
  destruct (array_max rs) as [M| |] eqn:HM; try discriminate.
  cbn [Py.bind] in Hw.
  apply (f_equal (fun r => match r with Ok a => a | _ => ws end)) in Hw.
  cbn beta iota in Hw. symmetry in Hw.
  assert (Forall (fun r => Binary64.regular r = true) rs) as Hrs
    by (unfold rs; by apply Forall_fmap).
  destruct (normalised_batch rs M ws Hrs HM Hw) as [Hmax Hunit].
  exists M. split; [done|]. split.
  { rewrite Hw. unfold rs. by rewrite map_map. }
  split; [done|].
  eapply Forall_impl; [exact Hunit|].
  intros w Hw'. unfold Binary64.unit_weight in Hw'.
  by apply andb_true_iff in Hw'.
Qed.

Lemma importance_weights_normalised_witness :
  exists s datas idxs ws,
    Examples.float_priorities = Ok s /\
    PrioritizedReplayMemory.get 3 Examples.reciprocal
      (fun _ a _ => a) (fun _ _ => false) s 2 = Ok (datas, idxs, ws) /\
    idxs = [1%Z; 2%Z] /\
    array_max ws = Ok 1%float /\
    Forall (fun w => PrimFloat.leb 0 w = true /\ PrimFloat.leb w 1 = true) ws.
Proof.
  do 4 eexists. split; [vm_compute; reflexivity|].
  match goal with
  | |- PrioritizedReplayMemory.get _ _ _ _ ?s0 _ = _ /\ _ => set (s := s0)
  end.
  split; [vm_compute; reflexivity|]. split; [reflexivity|].
  edestruct (importance_weights_normalised (D:=nat) Examples.reciprocal 3
               (fun _ a _ => a) (fun _ _ => false) s 2) as [_ Hweights].
  - vm_compute. reflexivity.
  - vm_compute. reflexivity.
  - destruct (Hweights [1%float; 3%float]) as (M & _ & _ & Hmax & Hunit).
    + repeat constructor.
    + repeat constructor.
    + split; [exact Hmax|exact Hunit].
Defined.

(** C4 (as stated) fails in binary64: with a leaf of priority 2^-1030
    beside a leaf of priority 1 and beta = 1, a sample value of 0 retrieves
    the tiny leaf, whose priority is positive; size * priority / total is
    2^-1029, its power -1 overflows to infinity, and infinity divided by the
    batch maximum, infinity, is NaN: the maximum weight is not 1 and the
    weight is not >= 0. *)
Lemma importance_weights_counterexample :
  exists s,
    Examples.tiny_priority = Ok s /\
    PrioritizedReplayMemory.get 3 Examples.reciprocal
      (fun _ a _ => a) (fun _ _ => false) s 1 = Ok ([0%nat], [1%Z], [nan]) /\
    getitem (SumTree._tree (PrioritizedReplayMemory._tree s)) 1
      = Ok 0x1p-1030%float /\
    PrimFloat.ltb 0 0x1p-1030 = true /\
    array_max [nan] = Ok nan /\
    PrimFloat.eqb nan 1 = false /\
    PrimFloat.leb 0 nan = false.
Proof.
  eexists. split; [vm_compute; reflexivity|].
  repeat split; vm_compute; reflexivity.
Qed.

(** * Further properties *)

(** ** ReplayMemory: sampling, readiness and reset *)

Section Sampling.
Context {St Ac Rw : Type}.
Implicit Types (s : ReplayMemory.t St Ac Rw).
Implicit Types (stream : list (ReplayMemory.transition St Ac Rw)).

(** Every slot below [size] holds one of the most recent transitions. *)
Lemma holds_item stream q s j :
  ReplayMemory.holds stream q s ->
  (j < ReplayMemory.size s)%nat ->
  exists d,
    ReplayMemory.item s j = Ok (ReplayMemory.some_transition d) /\
    d ∈ drop (length stream - ReplayMemory._max_size s) stream.
Proof.
  intros (_ & Hlen & Hidx & Hfull & Hslots) Hj.
  unfold ReplayMemory.size in Hj. rewrite Hfull in Hj.
  set (n := ReplayMemory._max_size s) in *.
  set (idx := ReplayMemory._idx s) in *.
  assert (exists p, (p < length stream)%nat /\
            (length stream - n <= p)%nat /\ (j < n)%nat /\
            (p = q * n + j /\ j < idx \/ p + n = q * n + j /\ idx <= j)%nat)
    as (p & Hp & Hrecent & Hjn & Hcase).
  { destruct q as [|q]; simpl in Hj.
    - exists j. lia.
    - destruct (decide (j < idx)%nat).
      + exists (S q * n + j)%nat. lia.
      + exists (q * n + j)%nat. lia. }
  destruct (lookup_lt_is_Some_2 stream p Hp) as [d Hd].
  exists d. split; [by apply (Hslots j p d)|].
  apply list_elem_of_lookup. exists (p - (length stream - n))%nat.
  rewrite lookup_drop. rewrite <- Hd. f_equal. lia.
Qed.

Lemma get_draws (rng : nat -> nat) stream q s :
  ReplayMemory.holds stream q s ->
  (0 < ReplayMemory.size s)%nat ->
  forall ks, exists items,
    fold_right
      (fun k acc =>
         x <- ReplayMemory.item s (rng k mod ReplayMemory.size s) ;;
         xs <- acc ;; Ok (x :: xs))
      (Ok []) ks = Ok items /\
    length items = length ks /\
    Forall (fun x => exists d,
              x = ReplayMemory.some_transition d /\
              d ∈ drop (length stream - ReplayMemory._max_size s) stream)
      items.
Proof.
  intros Hholds Hsize. induction ks as [|k ks (items & Hks & Hlen & Hall)].
  - exists []. by repeat split.
  - assert (rng k mod ReplayMemory.size s < ReplayMemory.size s)%nat as Hk
      by (apply Nat.mod_upper_bound; lia).
    destruct (holds_item stream q s _ Hholds Hk) as (d & Hitem & Hd).
    exists (ReplayMemory.some_transition d :: items).
    cbn [fold_right]. rewrite Hks, Hitem. cbn [Py.bind].
    split; [done|]. split; [simpl; lia|].
    constructor; [by exists d|done].
Qed.

End Sampling.

(** X1: in a ReplayMemory of capacity max_size >= 1 filled by any sequence of
    add calls, get(n_samples) with n_samples >= 1 raises ValueError when no
    transition was ever inserted; otherwise it returns exactly n_samples
    items, whatever numbers are drawn, and each of them is one of the most
    recent min(inserted, max_size) transitions: an unwritten (None) slot is
    never returned. *)
Theorem get_returns_recent_transitions {St Ac Rw : Type}
    (initial_size max_size : nat)
    (datasets : list (list (ReplayMemory.transition St Ac Rw)))
    (rng : nat -> nat) (n_samples : nat) (s : ReplayMemory.t St Ac Rw) :
  (1 <= max_size)%nat ->
  (1 <= n_samples)%nat ->
  ReplayMemory.adds (ReplayMemory.init initial_size max_size) datasets = Ok s ->
  (concat datasets = [] ->
   ReplayMemory.get rng s n_samples = Raise ValueError) /\
  (concat datasets <> [] ->
   exists items,
     ReplayMemory.get rng s n_samples = Ok items /\
     length items = n_samples /\
     Forall (fun x => exists d,
               x = ReplayMemory.some_transition d /\
               d ∈ drop (length (concat datasets) - max_size)
                     (concat datasets))
       items).
Proof.
  intros Hn Hsamples Hadds.
  destruct (holds_adds datasets [] 0 _ (holds_init initial_size max_size Hn))
    as (s' & q & Hadds' & Hholds & Hmax & _).
  rewrite Hadds in Hadds'. injection Hadds' as <-.
  simpl in Hholds, Hmax.
  pose proof (holds_size _ _ _ Hholds) as Hsize. rewrite Hmax in Hsize.
  unfold ReplayMemory.get. split.
  - intros Hempty. rewrite Hempty in Hsize. simpl in Hsize.
    rewrite Hsize. by destruct n_samples; [lia|].
  - intros Hsome.
    assert (0 < length (concat datasets))%nat
      by (destruct (concat datasets); [done|simpl; lia]).
    destruct (Nat.eqb_spec (ReplayMemory.size s) 0) as [|_]; [lia|].
    cbn [andb].
    destruct (get_draws rng _ q s Hholds ltac:(lia) (seq 0 n_samples))
      as (items & Hget & Hlen & Hall).
    exists items. split; [done|].
    rewrite length_seq in Hlen. split; [done|]. by rewrite <- Hmax.
Qed.

Lemma get_returns_recent_transitions_witness :
  exists s items,
    ReplayMemory.adds (ReplayMemory.init 1 3) Examples.five_transitions = Ok s /\
    ReplayMemory.get (fun k => (7 * k + 2)%nat) s 4 = Ok items /\
    length items = 4%nat /\
    Forall (fun x => exists d,
              x = ReplayMemory.some_transition d /\
              d ∈ [Examples.step 2 false; Examples.step 3 false;
                   Examples.step 4 false])
      items.
Proof.
  eexists. 
  destruct (get_returns_recent_transitions 1 3 Examples.five_transitions
              (fun k => (7 * k + 2)%nat) 4 _ ltac:(lia) ltac:(lia)
              ltac:(vm_compute; reflexivity)) as [_ Hsome].
  destruct (Hsome ltac:(discriminate)) as (items & Hget & Hlen & Hall).
  exists items. split; [vm_compute; reflexivity|].
  split; [exact Hget|]. split; [exact Hlen|exact Hall].
Defined.

(** X2: after any sequence of add calls on a ReplayMemory of capacity
    max_size >= 1, initialized is true exactly when more than initial_size
    transitions were inserted and initial_size is below max_size; with
    initial_size >= max_size the memory never becomes initialized. *)
Theorem initialized_iff {St Ac Rw : Type} (initial_size max_size : nat)
    (datasets : list (list (ReplayMemory.transition St Ac Rw)))
    (s : ReplayMemory.t St Ac Rw) :
  (1 <= max_size)%nat ->
  ReplayMemory.adds (ReplayMemory.init initial_size max_size) datasets = Ok s ->
  ReplayMemory.initialized s = true <->
  (initial_size < length (concat datasets))%nat /\
  (initial_size < max_size)%nat.
Proof.
  intros Hn Hadds.
  destruct (holds_adds datasets [] 0 _ (holds_init initial_size max_size Hn))
    as (s' & q & Hadds' & Hholds & Hmax & Hinit).
  rewrite Hadds in Hadds'. injection Hadds' as <-.
  simpl in Hholds, Hmax, Hinit.
  unfold ReplayMemory.initialized.
  rewrite (holds_size _ _ _ Hholds), Hmax, Hinit.
  rewrite Nat.ltb_lt. lia.
Qed.

Lemma initialized_iff_witness :
  exists s,
    ReplayMemory.adds (ReplayMemory.init 1 3) Examples.five_transitions = Ok s /\
    (ReplayMemory.initialized s = true <-> (1 < 5)%nat /\ (1 < 3)%nat).
Proof.
  eexists. split; [vm_compute; reflexivity|].
  apply (initialized_iff 1 3 Examples.five_transitions); [lia|].
  vm_compute; reflexivity.
Defined.

(** X3: reset undoes every add: after any sequence of add calls that
    returns, reset gives back the state the constructor built, with the same
    initial_size and max_size, the cursor at 0, the full flag cleared and all
    six arrays None. *)
Theorem reset_restores_initial_state {St Ac Rw : Type}
    (initial_size max_size : nat)
    (datasets : list (list (ReplayMemory.transition St Ac Rw)))
    (s : ReplayMemory.t St Ac Rw) :
  ReplayMemory.adds (ReplayMemory.init initial_size max_size) datasets = Ok s ->
  ReplayMemory.reset s = ReplayMemory.init initial_size max_size.
Proof.
  intros Hadds.
  destruct (decide (1 <= max_size)%nat) as [Hn|Hn].
  - destruct (holds_adds datasets [] 0 _ (holds_init initial_size max_size Hn))
      as (s' & q & Hadds' & _ & Hmax & Hinit).
    rewrite Hadds in Hadds'. injection Hadds' as <-.
    simpl in Hmax, Hinit.
    unfold ReplayMemory.init, ReplayMemory.reset. simpl.
    by rewrite Hmax, Hinit.
  - assert (max_size = 0)%nat as -> by lia.
    by destruct (adds_zero_capacity initial_size datasets s Hadds) as [_ ->].
Qed.

Lemma reset_restores_initial_state_witness :
  exists s,
    ReplayMemory.adds (ReplayMemory.init 1 3) Examples.five_transitions = Ok s /\
    ReplayMemory.reset s = ReplayMemory.init 1 3.
Proof.
  eexists. split; [vm_compute; reflexivity|].
  apply (reset_restores_initial_state 1 3 Examples.five_transitions).
  vm_compute; reflexivity.
Defined.

(** ** SumTree: the payload ring and the size *)

Section Payloads.
Context {V D : Type} `{Num V}.
Variable n : Z.
Variable fuel : nat.
Hypothesis Hn : (2 <= n)%Z.
Hypothesis Hfuel : (Z.to_nat (2 * n - 1) <= fuel)%nat.
Implicit Types (s : SumTree.t V D) (stream : list D).

Lemma stores_update stream q s idx (ps : list V) :
  SumTree.stores n stream q s -> Forall (SumTree.leaf_index n) idx ->
  exists s', SumTree.update fuel s idx ps = Ok s' /\
    SumTree.stores n stream q s'.
Proof using Hn Hfuel.
  intros (Hwf & Hlen & Hfull & Hslots & Hnone) Hvalid.
  destruct (update_inv (D:=D) n fuel (fun _ => True) (SumTree.leaf_index n)
              Hn Hfuel ltac:(done) ltac:(done) s idx ps Hwf Hvalid I)
    as (s' & Hup & Hwf' & _ & Hidx' & Hfull' & Hdata').
  exists s'. split; [done|]. unfold SumTree.stores.
  rewrite Hidx', Hfull', Hdata'. done.
Qed.

Lemma stores_add1 stream q s (d : D) (p : V) :
  SumTree.stores n stream q s ->
  exists s' q', SumTree.add1 fuel s d p = Ok s' /\
    SumTree.stores n (stream ++ [d]) q' s'.
Proof using Hn Hfuel.
  intros (Hwf & Hlen & Hfull & Hslots & Hnone).
  pose proof Hwf as (_ & _ & Hldata & Hidx).
  destruct (add1_inv n fuel (fun _ => True) (SumTree.leaf_index n) Hn Hfuel
              ltac:(done) ltac:(done) ltac:(done) s d p Hwf I)
    as (s' & Hadd & Hwf' & _ & _ & Hidx' & Hfull' & Hdata').
  set (N := Z.to_nat n) in *. set (i := Z.to_nat (SumTree._idx s)) in *.
  assert (i < N)%nat as HiN by lia.
  assert (forall j p' d', (p' < length stream)%nat -> j <> i ->
    (stream ++ [d]) !! p' = Some d' -> (j < N)%nat ->
    (p' = q * N + j /\ j < i \/ p' + N = q * N + j /\ i <= j)%nat ->
    SumTree._data s' !! j = Some (Some d')) as Hkeep.
  { intros j p' d' Hp Hj Hd' HjN Hcase. rewrite Hdata'.
    rewrite list_lookup_insert_ne by done.
    rewrite lookup_app_l in Hd' by done. by apply (Hslots j p' d'). }
  assert (forall p' d', p' = length stream -> (stream ++ [d]) !! p' = Some d' ->
    SumTree._data s' !! i = Some (Some d')) as Hlast.
  { intros p' d' -> Hd'. rewrite lookup_app_r in Hd' by done.
    rewrite Nat.sub_diag in Hd'. injection Hd' as <-.
    rewrite Hdata'. apply list_lookup_insert_eq. lia. }
  destruct (Z.eqb_spec (SumTree._idx s + 1) n) as [Hwrap|Hstep].
  - exists s', (S q). split; [done|]. unfold SumTree.stores.
    rewrite Hidx', Hfull'. fold N. change (Z.to_nat 0) with 0%nat.
    split; [done|]. split; [rewrite length_app; simpl; lia|].
    split; [done|]. split; [|done].
    intros j p' d' HjN Hd' Hcase.
    assert (p' < length (stream ++ [d]))%nat as Hp
      by (apply lookup_lt_is_Some; by exists d').
    rewrite length_app in Hp. simpl in Hp.
    destruct (decide (j = i)) as [->|Hne].
    + apply (Hlast p'); [lia|done].
    + apply (Hkeep j p' d'); try done; lia.
  - exists s', q. split; [done|]. unfold SumTree.stores.
    rewrite Hidx', Hfull'. fold N.
    replace (Z.to_nat (SumTree._idx s + 1)) with (S i) by lia.
    split; [done|]. split; [rewrite length_app; simpl; lia|].
    split; [done|]. split.
    + intros j p' d' HjN Hd' Hcase.
      assert (p' < length (stream ++ [d]))%nat as Hp
        by (apply lookup_lt_is_Some; by exists d').
      rewrite length_app in Hp. simpl in Hp.
      destruct (decide (j = i)) as [->|Hne].
      * apply (Hlast p'); [lia|done].
      * apply (Hkeep j p' d'); try done; lia.
    + intros Hq j Hj. rewrite Hdata'.
      rewrite list_lookup_insert_ne by lia. apply Hnone; [done|lia].
Qed.

Lemma stores_add_loop : forall (dps : list (D * V)) stream q s,
  SumTree.stores n stream q s ->
  exists s' q', SumTree.add_loop fuel s dps = Ok s' /\
    SumTree.stores n (stream ++ dps.*1) q' s'.
Proof using Hn Hfuel.
  induction dps as [|[d p] dps IH]; intros stream q s Hstores.
  - exists s, q. simpl. by rewrite app_nil_r.
  - simpl. destruct (stores_add1 stream q s d p Hstores)
      as (s1 & q1 & -> & Hstores1).
    simpl. destruct (IH _ _ _ Hstores1) as (s' & q' & Hrun & Hstores').
    exists s', q'. split; [done|]. by rewrite <- app_assoc in Hstores'.
Qed.

Lemma stores_run : forall (calls : list SumTree.call) stream q s,
  Forall (SumTree.valid_call n) calls ->
  SumTree.stores n stream q s ->
  exists s' q', SumTree.run fuel s calls = Ok s' /\
    SumTree.stores n (stream ++ SumTree.payloads calls) q' s'.
Proof using Hn Hfuel.
  induction calls as [|c calls IH]; intros stream q s Hvalid Hstores.
  - exists s, q. simpl. by rewrite app_nil_r.
  - inversion Hvalid as [|? ? Hc Hvalid']; subst.
    destruct c as [dataset priority|idx priorities]; simpl.
    + unfold SumTree.add.
      destruct (stores_add_loop (combine dataset priority) stream q s Hstores)
        as (s1 & q1 & -> & Hstores1).
      simpl. destruct (IH _ _ _ Hvalid' Hstores1)
        as (s' & q' & Hrun & Hstores').
      exists s', q'. split; [done|]. by rewrite <- app_assoc in Hstores'.
    + destruct (stores_update stream q s idx priorities Hstores Hc)
        as (s1 & -> & Hstores1).
      simpl. by apply (IH stream q).
Qed.

Lemma stores_size stream q s :
  SumTree.stores n stream q s ->
  SumTree.size s = Z.min (Z.of_nat (length stream)) n.
Proof using Hn Hfuel.
  intros ((Hmax & _ & _ & Hidx) & Hlen & Hfull & _). unfold SumTree.size.
  rewrite Hfull, Hlen, Hmax. destruct q as [|q]; simpl; nia.
Qed.

Lemma stores_first_round stream q s :
  SumTree.stores n stream q s ->
  (Z.of_nat (length stream) < n)%Z ->
  SumTree._data s
  = map Some stream ++ replicate (Z.to_nat n - length stream) None.
Proof using Hn Hfuel.
  intros ((Hmax & _ & Hldata & Hidx) & Hlen & _ & Hslots & Hnone) Hfew.
  assert (q = 0)%nat as -> by nia. simpl in Hlen.
  apply list_eq. intros j.
  destruct (decide (j < length stream)%nat) as [Hj|Hj].
  - rewrite lookup_app_l by (by rewrite length_map).
    rewrite list_lookup_fmap.
    destruct (lookup_lt_is_Some_2 stream j Hj) as [d Hd]. rewrite Hd. simpl.
    apply (Hslots j j d); [lia|done|lia].
  - rewrite lookup_app_r by (rewrite length_map; lia). rewrite length_map.
    destruct (decide (j < Z.to_nat n)%nat) as [HjN|HjN].
    + rewrite lookup_replicate_2 by lia. apply Hnone; [done|lia].
    + rewrite lookup_ge_None_2 by lia. symmetry. apply lookup_ge_None_2.
      rewrite length_replicate. lia.
Qed.

Lemma stores_ring stream q s :
  SumTree.stores n stream q s ->
  (n <= Z.of_nat (length stream))%Z ->
  drop (Z.to_nat (SumTree._idx s)) (SumTree._data s)
    ++ take (Z.to_nat (SumTree._idx s)) (SumTree._data s)
  = map Some (drop (length stream - Z.to_nat n) stream).
Proof using Hn Hfuel.
  intros ((Hmax & _ & Hldata & Hidx) & Hlen & _ & Hslots & _) Hmany.
  set (N := Z.to_nat n) in *. set (i := Z.to_nat (SumTree._idx s)) in *.
  assert (i < N)%nat as HiN by lia.
  assert (1 <= q)%nat as Hq by (destruct q; simpl in *; lia).
  apply list_eq. intros k. rewrite list_lookup_fmap, lookup_drop.
  destruct (decide (k < N)%nat) as [Hk|Hk].
  - destruct (lookup_lt_is_Some_2 stream (length stream - N + k) ltac:(lia))
      as [d Hd].
    rewrite Hd. simpl.
    destruct (decide (k < N - i)%nat) as [Hlow|Hhigh].
    + rewrite lookup_app_l by (rewrite length_drop; lia).
      rewrite lookup_drop.
      apply (Hslots (i + k)%nat (length stream - N + k)%nat d); [lia|done|].
      right. lia.
    + rewrite lookup_app_r by (rewrite length_drop; lia).
      rewrite length_drop, Hldata. fold N.
      rewrite lookup_take_lt by lia.
      apply (Hslots (k - (N - i))%nat (length stream - N + k)%nat d);
        [lia|done|].
      left. lia.
  - rewrite (lookup_ge_None_2 stream) by lia. simpl.
    apply lookup_ge_None_2.
    rewrite length_app, length_drop, length_take. lia.
Qed.

End Payloads.

Lemma stores_init {V D : Type} `{Num V} (n : Z) (s0 : SumTree.t V D) :
  (1 <= n)%Z -> SumTree.init n = Ok s0 -> SumTree.stores n [] 0 s0.
Proof.
  intros Hn Hinit. unfold SumTree.init in Hinit.
  destruct (Z.ltb_spec (2 * n - 1) 0); [lia|]. injection Hinit as <-.
  unfold SumTree.stores, SumTree.wf. simpl. rewrite !length_replicate.
  split; [repeat split; lia|]. split; [done|]. split; [done|]. split.
  - intros j p d _ Hd. by rewrite lookup_nil in Hd.
  - intros _ j Hj. apply lookup_replicate_2. lia.
Qed.

Lemma added_payloads {V D : Type} (calls : list (@SumTree.call V D)) :
  SumTree.added calls = Z.of_nat (length (SumTree.payloads calls)).
Proof.
  induction calls as [|[dataset priority|idx priorities] calls IH]; simpl.
  - done.
  - rewrite length_app, length_fmap. lia.
  - done.
Qed.

(** X4: for every SumTree with max_size >= 2, in any arithmetic, after any
    sequence of add and update calls (updates on leaf indices) size is the
    minimum of the number of inserted payloads and max_size, the write
    cursor is that number modulo max_size, and the payload array holds the
    inserted payloads followed by None while fewer than max_size were
    inserted and, read from the cursor around, exactly the most recent
    max_size payloads, oldest first, from then on; update never touches a
    payload. *)
Theorem payloads_form_a_ring {V D : Type} `{Num V}
    (max_size : Z) (calls : list (@SumTree.call V D)) (fuel : nat) :
  (2 <= max_size)%Z ->
  Forall (SumTree.valid_call max_size) calls ->
  (Z.to_nat (2 * max_size - 1) <= fuel)%nat ->
  exists s0 s,
    SumTree.init max_size = Ok s0 /\
    SumTree.run fuel s0 calls = Ok s /\
    SumTree.size s = Z.min (SumTree.added calls) max_size /\
    SumTree._idx s = (SumTree.added calls mod max_size)%Z /\
    ((SumTree.added calls < max_size)%Z ->
     SumTree._data s
     = map Some (SumTree.payloads calls)
         ++ replicate (Z.to_nat (max_size - SumTree.added calls)) None) /\
    ((max_size <= SumTree.added calls)%Z ->
     drop (Z.to_nat (SumTree._idx s)) (SumTree._data s)
       ++ take (Z.to_nat (SumTree._idx s)) (SumTree._data s)
     = map Some (drop (Z.to_nat (SumTree.added calls - max_size))
                   (SumTree.payloads calls))).
Proof.
  intros Hn Hvalid Hfuel.
  destruct (SumTree.init (V:=V) (D:=D) max_size) as [s0| |] eqn:Hinit.
  2,3: unfold SumTree.init in Hinit;
       destruct (Z.ltb_spec (2 * max_size - 1) 0); [lia|discriminate].
  destruct (stores_run max_size fuel Hn Hfuel calls [] 0 s0 Hvalid
              (stores_init max_size s0 ltac:(lia) Hinit))
    as (s & q & Hrun & Hstores).
  simpl in Hstores. exists s0, s. split; [done|]. split; [done|].
  rewrite added_payloads.
  split; [apply (stores_size max_size fuel Hn Hfuel _ q); done|].
  split.
  - destruct Hstores as ((_ & _ & _ & Hidx) & Hlen & _).
    apply (Z.mod_unique_pos _ _ (Z.of_nat q)); [lia|]. rewrite Hlen. nia.
  - split.
    + intros Hfew.
      rewrite (stores_first_round max_size fuel Hn Hfuel _ q s Hstores Hfew).
      do 2 f_equal. lia.
    + intros Hmany.
      rewrite (stores_ring max_size fuel Hn Hfuel _ q s Hstores Hmany).
      do 2 f_equal. lia.
Qed.

Lemma payloads_form_a_ring_witness :
  exists s0 s,
    Examples.float_tree 3 = Ok s0 /\
    SumTree.run 5 s0 Examples.wrapping_calls = Ok s /\
    SumTree.size s = 3%Z /\
    SumTree._idx s = 1%Z /\
    drop (Z.to_nat (SumTree._idx s)) (SumTree._data s)
      ++ take (Z.to_nat (SumTree._idx s)) (SumTree._data s)
    = [Some 1%nat; Some 2%nat; Some 3%nat].
Proof.
  assert (Forall (SumTree.valid_call (V:=float) (D:=nat) 3)
            Examples.wrapping_calls) as Hvalid.
  { repeat constructor; unfold SumTree.leaf_index; lia. }
  destruct (payloads_form_a_ring 3 Examples.wrapping_calls 5
              ltac:(lia) Hvalid ltac:(simpl; lia))
    as (s0 & s & Hinit & Hrun & Hsize & Hidx & _ & Hring).
  exists s0, s. split; [exact Hinit|]. split; [exact Hrun|].
  split; [exact Hsize|]. split; [exact Hidx|].
  apply Hring. simpl. lia.
Defined.

(** ** SumTree: what one update changes *)

Section UpdatePath.
Context {V D : Type} `{Num V}.
Implicit Types (tree : list V) (s : SumTree.t V D) (m k : Z).

Lemma on_path_nonneg m k : SumTree.on_path m k -> (0 <= m)%Z -> (0 <= k)%Z.
Proof.
  induction 1 as [|k Hk _ _]; intros Hm; [done|].
  pose proof (parent_bounds k Hk). lia.
Qed.

Lemma on_path_trans m a b :
  SumTree.on_path m a -> SumTree.on_path a b -> SumTree.on_path m b.
Proof.
  intros Ha. induction 1 as [|k Hk _ IH]; [done|]. by constructor.
Qed.

(** [_propagate] adds [delta] to every proper ancestor of [i] and leaves
    the rest of the array as it is. *)
Lemma propagate_spec fuel : forall tree (delta : V) i,
  (1 <= i < Z.of_nat (length tree))%Z -> (Z.to_nat i <= fuel)%nat ->
  exists tree', SumTree._propagate fuel tree delta i = Ok tree' /\
    length tree' = length tree /\
    (forall k, SumTree.on_path i k -> k <> i ->
       tree' !! Z.to_nat k
       = (fun v => nadd v delta) <$> tree !! Z.to_nat k) /\
    (forall k, (0 <= k)%Z -> ~ SumTree.on_path i k \/ k = i ->
       tree' !! Z.to_nat k = tree !! Z.to_nat k).
Proof.
  induction fuel as [|fuel IH]; intros tree delta i Hi Hfuel; [lia|].
  pose proof (parent_bounds i ltac:(lia)) as Hp.
  assert (SumTree.on_path i ((i - 1) / 2)) as Hparent
    by (constructor; [lia|constructor]).
  simpl. set (p := ((i - 1) / 2)%Z) in *.
  destruct (getitem_nonneg tree p ltac:(lia)) as (old & Hold & ->). simpl.
  rewrite setitem_nonneg by lia. simpl.
  assert (forall k, (0 <= k)%Z -> ~ SumTree.on_path i k \/ k = i ->
            Z.to_nat k <> Z.to_nat p) as Hoff.
  { intros k Hk [Hno| ->] Heq; [|lia].
    apply Hno. by replace k with p by lia. }
  destruct (Z.eqb_spec p 0) as [Hp0|Hp0]; simpl.
  - eexists. split; [done|]. split; [by rewrite length_insert|]. split.
    + intros k Hpath Hne.
      destruct (on_path_proper _ _ Hpath Hne) as [Hup _]. fold p in Hup.
      pose proof (on_path_le _ _ Hup).
      pose proof (on_path_nonneg _ _ Hpath ltac:(lia)).
      assert (k = p) as -> by lia.
      rewrite Hold. simpl. apply list_lookup_insert_eq. lia.
    + intros k Hk Hcase. apply list_lookup_insert_ne.
      intros Heq. by apply (Hoff k Hk Hcase).
  - destruct (IH (<[Z.to_nat p:=nadd old delta]> tree) delta p)
      as (tree' & Hrun & Hlen & Hon & Hoff').
    + rewrite length_insert. lia.
    + lia.
    + exists tree'. split; [done|]. rewrite Hlen, length_insert.
      split; [done|]. split.
      * intros k Hpath Hne.
        destruct (on_path_proper _ _ Hpath Hne) as [Hup _]. fold p in Hup.
        destruct (decide (k = p)) as [->|Hkp].
        -- rewrite Hoff' by (lia || by right).
           rewrite Hold. simpl. apply list_lookup_insert_eq. lia.
        -- rewrite (Hon k Hup Hkp). f_equal.
           pose proof (on_path_nonneg _ _ Hpath ltac:(lia)).
           apply list_lookup_insert_ne. lia.
      * intros k Hk Hcase. rewrite Hoff'.
        -- apply list_lookup_insert_ne. intros Heq.
           by apply (Hoff k Hk Hcase).
        -- done.
        -- left. intros Hup. destruct Hcase as [Hno| ->].
           ++ apply Hno. by apply (on_path_trans i p k).
           ++ apply on_path_le in Hup. lia.
Qed.

Lemma update1_spec fuel tree i (p : V) :
  (1 <= i < Z.of_nat (length tree))%Z -> (Z.to_nat i <= fuel)%nat ->
  exists old tree',
    tree !! Z.to_nat i = Some old /\
    SumTree.update1 fuel tree i p = Ok tree' /\
    length tree' = length tree /\
    tree' !! Z.to_nat i = Some p /\
    (forall k, SumTree.on_path i k -> k <> i ->
       tree' !! Z.to_nat k
       = (fun v => nadd v (nsub p old)) <$> tree !! Z.to_nat k) /\
    (forall k, (0 <= k)%Z -> ~ SumTree.on_path i k ->
       tree' !! Z.to_nat k = tree !! Z.to_nat k).
Proof.
  intros Hi Hfuel. unfold SumTree.update1.
  destruct (getitem_nonneg tree i ltac:(lia)) as (old & Hold & ->). simpl.
  rewrite setitem_nonneg by lia. simpl.
  destruct (propagate_spec fuel (<[Z.to_nat i:=p]> tree) (nsub p old) i)
    as (tree' & Hrun & Hlen & Hon & Hoff).
  { rewrite length_insert. lia. }
  { done. }
  exists old, tree'. rewrite Hlen, length_insert.
  split; [done|]. split; [done|]. split; [done|]. split.
  - rewrite Hoff by (lia || by right). apply list_lookup_insert_eq. lia.
  - split.
    + intros k Hpath Hne. rewrite (Hon k Hpath Hne). f_equal.
      pose proof (on_path_nonneg _ _ Hpath ltac:(lia)).
      apply list_lookup_insert_ne. lia.
    + intros k Hk Hno. rewrite Hoff by (done || by left).
      apply list_lookup_insert_ne. intros Heq. apply Hno.
      replace k with i by lia. constructor.
Qed.

End UpdatePath.

(** X5: in any arithmetic (binary64 included), update([i], [p]) on a leaf
    index i of a well-shaped SumTree with max_size >= 2 returns, stores p in
    leaf i, adds the same difference p - old to every ancestor of the leaf,
    the root included, and changes nothing else: no other leaf, no node off
    the path to the root, no payload, neither the cursor nor the full
    flag. *)
Theorem update_changes_leaf_and_ancestors {V D : Type} `{Num V}
    (n : Z) (fuel : nat) (s : SumTree.t V D) (i : Z) (p : V) :
  SumTree.wf n s ->
  (2 <= n)%Z ->
  (Z.to_nat (2 * n - 1) <= fuel)%nat ->
  SumTree.leaf_index n i ->
  exists old root s',
    SumTree._tree s !! Z.to_nat i = Some old /\
    SumTree.total_p s = Ok root /\
    SumTree.update fuel s [i] [p] = Ok s' /\
    SumTree.total_p s' = Ok (nadd root (nsub p old)) /\
    SumTree._tree s' !! Z.to_nat i = Some p /\
    (forall k, SumTree.on_path i k -> k <> i ->
       SumTree._tree s' !! Z.to_nat k
       = (fun v => nadd v (nsub p old)) <$> SumTree._tree s !! Z.to_nat k) /\
    (forall k, (0 <= k)%Z -> ~ SumTree.on_path i k ->
       SumTree._tree s' !! Z.to_nat k = SumTree._tree s !! Z.to_nat k) /\
    length (SumTree._tree s') = length (SumTree._tree s) /\
    SumTree._data s' = SumTree._data s /\
    SumTree._idx s' = SumTree._idx s /\
    SumTree._full s' = SumTree._full s /\
    SumTree._max_size s' = SumTree._max_size s.
Proof.
  intros (Hmax & Hlen & Hdata & Hidx) Hn Hfuel Hi.
  unfold SumTree.leaf_index in Hi.
  destruct (update1_spec fuel (SumTree._tree s) i p ltac:(lia) ltac:(lia))
    as (old & tree' & Hold & Hup & Hlen' & Hleaf & Hon & Hoff).
  destruct (getitem_nonneg (SumTree._tree s) 0 ltac:(lia))
    as (root & Hroot & Hget).
  exists old, root, (SumTree.with_tree s tree').
  split; [done|]. split; [done|]. split.
  { unfold SumTree.update. simpl. by rewrite Hup. }
  split.
  { unfold SumTree.total_p. simpl.
    assert (SumTree.on_path i 0) as Hpath.
    { apply (on_path_root (Z.to_nat i) i i); [lia|lia|constructor]. }
    specialize (Hon 0%Z Hpath ltac:(lia)).
    change (Z.to_nat 0) with 0%nat in Hon, Hroot. rewrite Hroot in Hon.
    destruct (getitem_nonneg tree' 0 ltac:(lia)) as (root' & Hroot' & ->).
    change (Z.to_nat 0) with 0%nat in Hroot'. rewrite Hroot' in Hon.
    simpl in Hon. apply (inj Some) in Hon. by rewrite Hon. }
  done.
Qed.

Lemma update_changes_leaf_and_ancestors_witness :
  exists s s',
    Examples.two_leaves = Ok s /\
    SumTree.update 3 s [1%Z] [5%float] = Ok s' /\
    SumTree.total_p s' = Ok 7%float /\
    SumTree._tree s' !! 2%nat = Some 2%float.
Proof.
  eexists.
  match goal with
  | |- exists s', Examples.two_leaves = Ok ?s0 /\ _ => set (s := s0)
  end.
  assert (Examples.two_leaves = Ok s) as Htree by (vm_compute; reflexivity).
  assert (SumTree.wf 2 s) as Hwf.
  { unfold SumTree.wf. repeat split; vm_compute; congruence. }
  destruct (update_changes_leaf_and_ancestors 2 3 s 1 5%float Hwf
              ltac:(lia) ltac:(simpl; lia)
              ltac:(unfold SumTree.leaf_index; lia))
    as (old & root & s' & Hold & Hroot & Hup & Htotal & _ & _ & Hoff & _).
  exists s'. split; [exact Htree|]. split; [exact Hup|]. split.
  - rewrite Htotal. vm_compute in Hold, Hroot.
    apply (inj Some) in Hold.
    apply (f_equal (fun r => match r with Ok x => x | _ => root end)) in Hroot.
    simpl in Hroot. subst old root. vm_compute. reflexivity.
  - assert (~ SumTree.on_path 1 2) as Hno.
    { intros Hpath. apply on_path_le in Hpath. lia. }
    pose proof (Hoff 2%Z ltac:(lia) Hno) as Hkeep.
    change (Z.to_nat 2) with 2%nat in Hkeep. rewrite Hkeep.
    vm_compute. reflexivity.
Defined.

(** ** PrioritizedReplayMemory: sampling and updating *)

Section Prioritized.
Context {V D : Type} `{Num V}.
Variable n : Z.
Variable fuel : nat.
Hypothesis Hn : (2 <= n)%Z.
Hypothesis Hfuel : (Z.to_nat (2 * n - 1) <= fuel)%nat.
Implicit Types (s : PrioritizedReplayMemory.t V D) (tree : SumTree.t V D).
Implicit Types (stream : list D).

(** A slot is either still unwritten or holds one of the most recent
    payloads. *)
Lemma stores_slot stream q tree j :
  SumTree.stores n stream q tree -> (j < Z.to_nat n)%nat ->
  SumTree._data tree !! j = Some None /\ (length stream <= j)%nat
  \/ exists d, SumTree._data tree !! j = Some (Some d) /\
       d ∈ drop (length stream - Z.to_nat n) stream.
Proof using Hn Hfuel.
  intros ((_ & _ & _ & Hidx) & Hlen & _ & Hslots & Hnone) Hj.
  set (N := Z.to_nat n) in *.
  set (i := Z.to_nat (SumTree._idx tree)) in *.
  assert (i < N)%nat as HiN by lia.
  destruct (decide (q = 0%nat /\ i <= j)%nat) as [[-> Hij]|Hwritten].
  - left. split; [apply Hnone; [done|lia]|]. simpl in Hlen. lia.
  - right.
    assert (exists p, (p < length stream)%nat /\ (length stream - N <= p)%nat /\
              (p = q * N + j /\ j < i \/ p + N = q * N + j /\ i <= j)%nat)
      as (p & Hp & Hrecent & Hcase).
    { destruct (decide (j < i)%nat).
      - exists (q * N + j)%nat. lia.
      - destruct q as [|q]; [lia|]. exists (q * N + j)%nat. lia. }
    destruct (lookup_lt_is_Some_2 stream p Hp) as [d Hd].
    exists d. split; [by apply (Hslots j p d)|].
    apply list_elem_of_lookup. exists (p - (length stream - N))%nat.
    rewrite lookup_drop. rewrite <- Hd. f_equal. lia.
Qed.

(** What a [get] that returns has read. *)
Lemma get_loop_reads (rng : nat -> nat -> bool) stream q tree :
  SumTree.stores n stream q tree ->
  forall (samples : list V) (i : nat) datas idxs ps,
    PrioritizedReplayMemory.get_loop fuel rng tree i samples
      = Ok (datas, idxs, ps) ->
    length idxs = length samples /\ length ps = length samples /\
    Forall (SumTree.leaf_index n) idxs /\
    Forall2 (fun d idx =>
               SumTree._data tree !! Z.to_nat (idx - n + 1) = Some (Some d))
      datas idxs /\
    Forall (fun d => d ∈ drop (length stream - Z.to_nat n) stream) datas.
Proof using Hn Hfuel.
  intros Hstores. pose proof Hstores as (Hwf & _).
  induction samples as [|x samples IH]; intros i datas idxs ps Hrun.
  - simpl in Hrun.
    apply (f_equal (fun r => match r with Ok a => a | _ => ([], [], []) end))
      in Hrun.
    simpl in Hrun. injection Hrun as <- <- <-. by repeat split.
  - simpl in Hrun.
    destruct (get_returns fuel (rng i) tree x n Hwf ltac:(lia) Hfuel)
      as (j & v & d & Hget & Hleaf & _ & Hd).
    rewrite Hget in Hrun. simpl in Hrun.
    destruct d as [d|]; [|discriminate].
    destruct (PrioritizedReplayMemory.get_loop fuel rng tree (S i) samples)
      as [[[datas' idxs'] ps']| |] eqn:Hrest; try discriminate.
    destruct (IH (S i) datas' idxs' ps' Hrest)
      as (Hlidx & Hlps & Hleaves & Hpairs & Hrecent).
    simpl in Hrun.
    assert (datas = d :: datas' /\ idxs = j :: idxs' /\ ps = v :: ps')
      as (-> & -> & ->).
    { apply (f_equal (fun r => match r with Ok a => a | _ => ([], [], []) end))
        in Hrun.
      simpl in Hrun. by injection Hrun as <- <- <-. }
    simpl. split; [lia|]. split; [lia|]. split; [by constructor|].
    split; [by constructor|]. constructor; [|done].
    unfold SumTree.leaf_index in Hleaf.
    destruct (stores_slot stream q tree (Z.to_nat (j - n + 1)) Hstores
                ltac:(lia)) as [[Hnone _]|(d' & Hd' & Hin)]; [congruence|].
    by replace d with d' by congruence.
Qed.

(** On a full tree every lookup finds a payload. *)
Lemma get_loop_returns (rng : nat -> nat -> bool) stream q tree :
  SumTree.stores n stream q tree ->
  (Z.to_nat n <= length stream)%nat ->
  forall (samples : list V) (i : nat),
    exists r, PrioritizedReplayMemory.get_loop fuel rng tree i samples = Ok r.
Proof using Hn Hfuel.
  intros Hstores Hfull. pose proof Hstores as (Hwf & _).
  induction samples as [|x samples IH]; intros i; [by eexists|].
  simpl.
  destruct (get_returns fuel (rng i) tree x n Hwf ltac:(lia) Hfuel)
    as (j & v & d & -> & Hleaf & _ & Hd).
  simpl. unfold SumTree.leaf_index in Hleaf.
  destruct (stores_slot stream q tree (Z.to_nat (j - n + 1)) Hstores
              ltac:(lia)) as [[_ Hfew]|(d' & Hd' & _)]; [lia|].
  rewrite Hd in Hd'. apply (inj Some) in Hd'. subst d.
  destruct (IH (S i)) as [r ->]. simpl. by eexists.
Qed.

End Prioritized.

Lemma prioritized_run_tree {V D : Type} `{Num V} (fuel : nat)
    (power : V -> V -> V) :
  forall (calls : list (@PrioritizedReplayMemory.call V D)) s,
    PrioritizedReplayMemory.run fuel power s calls
    = (tree <- SumTree.run fuel (PrioritizedReplayMemory._tree s)
                 (map (PrioritizedReplayMemory.tree_call power s) calls) ;;
       Ok (PrioritizedReplayMemory.with_tree s tree)).
Proof.
  induction calls as [|c calls IH]; intros s.
  - simpl. by destruct s.
  - destruct c as [dataset p|error idx]; simpl.
    + unfold PrioritizedReplayMemory.add.
      destruct (SumTree.add fuel (PrioritizedReplayMemory._tree s) dataset p)
        as [tree| |]; simpl; [|done|done].
      by rewrite IH.
    + unfold PrioritizedReplayMemory.update.
      destruct (SumTree.update fuel (PrioritizedReplayMemory._tree s) idx
                  (map (PrioritizedReplayMemory._get_priority power s) error))
        as [tree| |]; simpl; [|done|done].
      by rewrite IH.
Qed.

Lemma prioritized_payloads {V D : Type} `{Num V} (power : V -> V -> V)
    (s : PrioritizedReplayMemory.t V D) :
  forall calls : list (@PrioritizedReplayMemory.call V D),
    SumTree.payloads (map (PrioritizedReplayMemory.tree_call power s) calls)
    = PrioritizedReplayMemory.inserted calls.
Proof.
  induction calls as [|[dataset p|error idx] calls IH]; simpl; congruence.
Qed.

Lemma prioritized_valid {V D : Type} `{Num V} (power : V -> V -> V)
    (s : PrioritizedReplayMemory.t V D) (n : Z) :
  forall calls : list (@PrioritizedReplayMemory.call V D),
    Forall (PrioritizedReplayMemory.valid_call n) calls ->
    Forall (SumTree.valid_call n)
      (map (PrioritizedReplayMemory.tree_call power s) calls).
Proof.
  induction 1 as [|[dataset p|error idx] calls Hc _ IH]; simpl;
    constructor; done.
Qed.

(** The calls of a memory return, and its tree stores what they insert. *)
Lemma prioritized_run_stores {V D : Type} `{Num V}
    (initial_size max_size : Z) (alpha beta epsilon : V)
    (power : V -> V -> V) (fuel : nat)
    (calls : list (@PrioritizedReplayMemory.call V D)) :
  (2 <= max_size)%Z ->
  (Z.to_nat (2 * max_size - 1) <= fuel)%nat ->
  Forall (PrioritizedReplayMemory.valid_call max_size) calls ->
  exists s0 s q,
    PrioritizedReplayMemory.init initial_size max_size alpha beta epsilon
      = Ok s0 /\
    PrioritizedReplayMemory.run fuel power s0 calls = Ok s /\
    SumTree.stores max_size (PrioritizedReplayMemory.inserted calls) q
      (PrioritizedReplayMemory._tree s) /\
    PrioritizedReplayMemory._initial_size s = initial_size /\
    PrioritizedReplayMemory._alpha s = alpha /\
    PrioritizedReplayMemory._beta s = beta /\
    PrioritizedReplayMemory._epsilon s = epsilon.
Proof.
  intros Hn Hfuel Hvalid. unfold PrioritizedReplayMemory.init.
  destruct (SumTree.init (V:=V) (D:=D) max_size) as [t0| |] eqn:Hinit.
  2,3: unfold SumTree.init in Hinit;
       destruct (Z.ltb_spec (2 * max_size - 1) 0); [lia|discriminate].
  simpl. eexists. 
  match goal with |- exists s q, Ok ?s1 = _ /\ _ => set (s0 := s1) end.
  destruct (stores_run max_size fuel Hn Hfuel
              (map (PrioritizedReplayMemory.tree_call power s0) calls)
              [] 0 t0 (prioritized_valid power s0 max_size calls Hvalid)
              (stores_init max_size t0 ltac:(lia) Hinit))
    as (t & q & Hrun & Hstores).
  simpl in Hstores. rewrite prioritized_payloads in Hstores.
  exists (PrioritizedReplayMemory.with_tree s0 t), q.
  split; [done|]. split.
  { rewrite prioritized_run_tree. subst s0.
    cbn [PrioritizedReplayMemory._tree] in *. by rewrite Hrun. }
  done.
Qed.

Lemma samples_length {V : Type} `{Num V} (uniform : nat -> V -> V -> V)
    (total : V) (k : nat) :
  length
    (map (fun iab : nat * (V * V) => uniform iab.1 iab.2.1 iab.2.2)
       (combine (seq 0 k) (PrioritizedReplayMemory.bounds total k)))
  = k.
Proof.
  unfold PrioritizedReplayMemory.bounds.
  rewrite length_map, !length_combine, !length_map, !length_seq. lia.
Qed.

Lemma importance_weights_returns {V : Type} `{Num V} (power : V -> V -> V)
    (size : Z) (total beta : V) (ps : list V) :
  ps <> [] ->
  exists ws,
    PrioritizedReplayMemory.importance_weights power size total beta ps
      = Ok ws /\
    length ws = length ps.
Proof.
  intros Hps. unfold PrioritizedReplayMemory.importance_weights.
  destruct ps as [|p ps]; [done|]. simpl.
  eexists. split; [done|]. simpl. by rewrite !length_map.
Qed.

Lemma importance_weights_length {V : Type} `{Num V} (power : V -> V -> V)
    (size : Z) (total beta : V) (ps ws : list V) :
  PrioritizedReplayMemory.importance_weights power size total beta ps = Ok ws ->
  length ws = length ps.
Proof.
  intros Hws. destruct ps as [|p ps]; [done|].
  destruct (importance_weights_returns power size total beta (p :: ps)
              ltac:(done)) as (ws' & Hws' & Hlen).
  rewrite Hws in Hws'.
  apply (f_equal (fun r => match r with Ok a => a | _ => [] end)) in Hws'.
  simpl in Hws'. by subst ws'.
Qed.

(** X6: for every PrioritizedReplayMemory with max_size >= 2, in any
    arithmetic, once max_size elements have been added (after any sequence of
    add and update calls, updates on leaf indices), get(n_samples) with
    n_samples >= 1 has two outcomes only.  When the width of one of the
    n_samples segments of [0, total_p) is not finite, the draw is refused:
    OverflowError.  Otherwise it returns for every outcome of the random
    draws: it gives n_samples elements, n_samples leaf indices and n_samples
    weights, each element is the payload stored in the slot of its index,
    and each is one of the most recent max_size elements added. *)
Theorem get_on_full_memory {V D : Type} `{Num V}
    (initial_size max_size : Z) (alpha beta epsilon : V)
    (power : V -> V -> V) (fuel : nat)
    (calls : list (@PrioritizedReplayMemory.call V D))
    (uniform : nat -> V -> V -> V) (rng : nat -> nat -> bool)
    (n_samples : nat) :
  (2 <= max_size)%Z ->
  (Z.to_nat (2 * max_size - 1) <= fuel)%nat ->
  Forall (PrioritizedReplayMemory.valid_call max_size) calls ->
  (Z.to_nat max_size <= length (PrioritizedReplayMemory.inserted calls))%nat ->
  (1 <= n_samples)%nat ->
  exists s0 s total,
    PrioritizedReplayMemory.init initial_size max_size alpha beta epsilon
      = Ok s0 /\
    PrioritizedReplayMemory.run fuel power s0 calls = Ok s /\
    SumTree.total_p (PrioritizedReplayMemory._tree s) = Ok total /\
    (PrioritizedReplayMemory.drawable
       (PrioritizedReplayMemory.bounds total n_samples) = false ->
     PrioritizedReplayMemory.get fuel power uniform rng s n_samples
       = Raise OverflowError) /\
    (PrioritizedReplayMemory.drawable
       (PrioritizedReplayMemory.bounds total n_samples) = true ->
     exists datas idxs ws,
       PrioritizedReplayMemory.get fuel power uniform rng s n_samples
         = Ok (datas, idxs, ws) /\
       length datas = n_samples /\ length idxs = n_samples /\
       length ws = n_samples /\
       Forall (SumTree.leaf_index max_size) idxs /\
       Forall2 (fun d idx =>
                  SumTree._data (PrioritizedReplayMemory._tree s)
                    !! Z.to_nat (idx - max_size + 1) = Some (Some d))
         datas idxs /\
       Forall (fun d =>
                 d ∈ drop (length (PrioritizedReplayMemory.inserted calls)
                           - Z.to_nat max_size)
                       (PrioritizedReplayMemory.inserted calls))
         datas).
Proof.
  intros Hn Hfuel Hvalid Hfull Hsamples.
  destruct (prioritized_run_stores initial_size max_size alpha beta epsilon
              power fuel calls Hn Hfuel Hvalid)
    as (s0 & s & q & Hinit & Hrun & Hstores & _).
  pose proof Hstores as ((_ & Hlen & _) & _).
  destruct (getitem_nonneg
              (SumTree._tree (PrioritizedReplayMemory._tree s)) 0 ltac:(lia))
    as (total & _ & Htotal).
  exists s0, s, total. split; [done|]. split; [done|]. split; [done|].
  unfold PrioritizedReplayMemory.get, SumTree.total_p. rewrite Htotal.
  cbn [Py.bind]. cbv zeta. split; intros ->; [done|].
  match goal with
  | |- context [PrioritizedReplayMemory.get_loop _ _ _ _ ?l] =>
      assert (length l = n_samples) as Hl by apply samples_length;
      set (samples := l) in *
  end.
  destruct (get_loop_returns max_size fuel Hn Hfuel rng _ q _ Hstores Hfull
              samples 0) as [[[datas idxs] ps] Hloop].
  destruct (get_loop_reads max_size fuel Hn Hfuel rng _ q _ Hstores
              samples 0 datas idxs ps Hloop)
    as (Hlidx & Hlps & Hleaves & Hpairs & Hrecent).
  rewrite Hloop. cbn [Py.bind fst snd].
  destruct (importance_weights_returns power
              (SumTree.size (PrioritizedReplayMemory._tree s)) total
              (PrioritizedReplayMemory._beta s) ps) as (ws & -> & Hlws).
  { intros ->. simpl in Hlps. lia. }
  cbn [Py.bind]. exists datas, idxs, ws.
  split; [done|].
  split; [apply Forall2_length in Hpairs; lia|].
  split; [lia|]. split; [lia|]. done.
Qed.

Lemma get_on_full_memory_witness :
  exists s0 s datas idxs ws,
    PrioritizedReplayMemory.init 0 2 1%float 1%float 0x1p-7%float = Ok s0 /\
    PrioritizedReplayMemory.run 3 Examples.reciprocal s0
      Examples.prioritized_calls = Ok s /\
    PrioritizedReplayMemory.get 3 Examples.reciprocal (fun _ a _ => a)
      (fun _ _ => false) s 2 = Ok (datas, idxs, ws) /\
    length datas = 2%nat /\ length idxs = 2%nat /\ length ws = 2%nat /\
    Forall (SumTree.leaf_index 2) idxs /\
    Forall (fun d => d ∈ [1%nat; 2%nat]) datas.
Proof.
  destruct (get_on_full_memory 0 2 1%float 1%float 0x1p-7%float
              Examples.reciprocal 3 Examples.prioritized_calls
              (fun _ a _ => a) (fun _ _ => false) 2
              ltac:(lia) ltac:(simpl; lia)
              ltac:(repeat constructor; unfold SumTree.leaf_index; lia)
              ltac:(simpl; lia) ltac:(lia))
    as (s0 & s & total & Hinit & Hrun & Htotal & _ & Hreturns).
  assert (PrioritizedReplayMemory.init 0 2 1%float 1%float 0x1p-7%float
          = Ok s0 /\
          PrioritizedReplayMemory.run 3 Examples.reciprocal s0
            Examples.prioritized_calls = Ok s /\
          SumTree.total_p (PrioritizedReplayMemory._tree s) = Ok total)
    as Hstate by (split; [exact Hinit|split; [exact Hrun|exact Htotal]]).
  assert (PrioritizedReplayMemory.drawable
            (PrioritizedReplayMemory.bounds total 2) = true) as Hdraw.
  { clear Hreturns Hinit Hrun Htotal. destruct Hstate as (Hinit & Hrun & Htotal).
    vm_compute in Hinit.
    apply (f_equal (fun r => match r with Ok a => a | _ => s0 end)) in Hinit.
    subst s0. vm_compute in Hrun.
    apply (f_equal (fun r => match r with Ok a => a | _ => s end)) in Hrun.
    subst s. vm_compute in Htotal.
    apply (f_equal (fun r => match r with Ok a => a | _ => total end))
      in Htotal.
    subst total. vm_compute. reflexivity. }
  destruct (Hreturns Hdraw)
    as (datas & idxs & ws & Hget & Hld & Hli & Hlw & Hleaves & _ & Hrecent).
  exists s0, s, datas, idxs, ws.
  split; [exact Hinit|]. split; [exact Hrun|]. split; [exact Hget|].
  split; [exact Hld|]. split; [exact Hli|]. split; [exact Hlw|].
  split; [exact Hleaves|exact Hrecent].
Defined.

(** X7: get and update compose.  On a PrioritizedReplayMemory with
    max_size >= 2 reached by any sequence of add and update calls (updates on
    leaf indices), in any arithmetic, whenever get(n_samples) returns, the
    indices it returns are n_samples leaf indices, and update(error, idxs)
    with them returns for any errors and leaves the stored elements, the
    cursor and the size as they were. *)
Theorem get_then_update {V D : Type} `{Num V}
    (initial_size max_size : Z) (alpha beta epsilon : V)
    (power : V -> V -> V) (fuel : nat)
    (calls : list (@PrioritizedReplayMemory.call V D))
    (uniform : nat -> V -> V -> V) (rng : nat -> nat -> bool)
    (n_samples : nat) (s0 s : PrioritizedReplayMemory.t V D)
    (datas : list D) (idxs : list Z) (ws error : list V) :
  (2 <= max_size)%Z ->
  (Z.to_nat (2 * max_size - 1) <= fuel)%nat ->
  Forall (PrioritizedReplayMemory.valid_call max_size) calls ->
  PrioritizedReplayMemory.init initial_size max_size alpha beta epsilon
    = Ok s0 ->
  PrioritizedReplayMemory.run fuel power s0 calls = Ok s ->
  PrioritizedReplayMemory.get fuel power uniform rng s n_samples
    = Ok (datas, idxs, ws) ->
  length datas = n_samples /\ length idxs = n_samples /\
  length ws = n_samples /\
  Forall (SumTree.leaf_index max_size) idxs /\
  exists s',
    PrioritizedReplayMemory.update fuel power s error idxs = Ok s' /\
    SumTree._data (PrioritizedReplayMemory._tree s')
      = SumTree._data (PrioritizedReplayMemory._tree s) /\
    SumTree._idx (PrioritizedReplayMemory._tree s')
      = SumTree._idx (PrioritizedReplayMemory._tree s) /\
    SumTree.size (PrioritizedReplayMemory._tree s')
      = SumTree.size (PrioritizedReplayMemory._tree s).
Proof.
  intros Hn Hfuel Hvalid Hinit Hrun Hget.
  destruct (prioritized_run_stores initial_size max_size alpha beta epsilon
              power fuel calls Hn Hfuel Hvalid)
    as (s0' & s' & q & Hinit' & Hrun' & Hstores & _).
  rewrite Hinit in Hinit'.
  apply (f_equal (fun r => match r with Ok a => a | _ => s0 end)) in Hinit'.
  simpl in Hinit'. subst s0'.
  rewrite Hrun in Hrun'.
  apply (f_equal (fun r => match r with Ok a => a | _ => s end)) in Hrun'.
  simpl in Hrun'. subst s'.
  destruct (get_inversion _ _ _ _ _ _ _ _ _ Hget)
    as (total & ps & _ & _ & Hloop & Hws).
  pose proof (samples_length uniform total n_samples) as Hl.
  destruct (get_loop_reads max_size fuel Hn Hfuel rng _ q _ Hstores
              _ 0 datas idxs ps Hloop)
    as (Hlidx & Hlps & Hleaves & Hpairs & _).
  apply importance_weights_length in Hws.
  split; [apply Forall2_length in Hpairs; lia|].
  split; [lia|]. split; [lia|]. split; [done|].
  destruct Hstores as (Hwf & _).
  destruct (update_inv (D:=D) max_size fuel (fun _ => True)
              (SumTree.leaf_index max_size) Hn Hfuel ltac:(done) ltac:(done)
              (PrioritizedReplayMemory._tree s) idxs
              (map (PrioritizedReplayMemory._get_priority power s) error)
              Hwf Hleaves I)
    as (tree' & Hup & (Hmax' & _) & _ & Hidx' & Hfull' & Hdata').
  exists (PrioritizedReplayMemory.with_tree s tree').
  unfold PrioritizedReplayMemory.update. rewrite Hup. simpl.
  split; [done|]. split; [done|]. split; [done|].
  unfold SumTree.size. destruct Hwf as (Hmax & _).
  by rewrite Hidx', Hfull', Hmax', Hmax.
Qed.

Lemma get_then_update_witness :
  exists s0 s datas idxs ws s',
    PrioritizedReplayMemory.init 0 2 1%float 1%float 0x1p-7%float = Ok s0 /\
    PrioritizedReplayMemory.run 3 Examples.reciprocal s0
      Examples.prioritized_calls = Ok s /\
    PrioritizedReplayMemory.get 3 Examples.reciprocal (fun _ a _ => a)
      (fun _ _ => false) s 2 = Ok (datas, idxs, ws) /\
    PrioritizedReplayMemory.update 3 Examples.reciprocal s
      [2%float; 4%float] idxs = Ok s' /\
    SumTree._data (PrioritizedReplayMemory._tree s')
      = SumTree._data (PrioritizedReplayMemory._tree s) /\
    SumTree.size (PrioritizedReplayMemory._tree s') = 2%Z.
Proof.
  do 5 eexists.
  match goal with
  | |- exists s', ?i = Ok ?a /\ ?r = Ok ?b /\ ?g = Ok ?c /\ _ =>
      assert (i = Ok a) as Hinit by (vm_compute; reflexivity);
      assert (r = Ok b) as Hrun by (vm_compute; reflexivity);
      assert (g = Ok c) as Hget by (vm_compute; reflexivity)
  end.
  destruct (get_then_update 0 2 1%float 1%float 0x1p-7%float
              Examples.reciprocal 3 Examples.prioritized_calls
              (fun _ a _ => a) (fun _ _ => false) 2 _ _ _ _ _
              [2%float; 4%float] ltac:(lia) ltac:(simpl; lia)
              ltac:(repeat constructor; unfold SumTree.leaf_index; lia)
              Hinit Hrun Hget)
    as (_ & _ & _ & _ & s' & Hup & Hdata & _ & Hsize).
  exists s'. split; [exact Hinit|]. split; [exact Hrun|].
  split; [exact Hget|]. split; [exact Hup|]. split; [exact Hdata|].
  rewrite Hsize. vm_compute. reflexivity.
Defined.

(** X8: a PrioritizedReplayMemory into which nothing was ever added cannot
    be sampled: for max_size >= 2, in any arithmetic, after any sequence of
    calls that adds no element, get(n_samples) with n_samples >= 1 raises
    OverflowError when the width of one of the n_samples segments of
    [0, total_p) is not finite (the draw is refused) and TypeError otherwise
    (the slot reached holds None, which cannot be unpacked), whatever is
    drawn; and get(0) raises ValueError (the maximum of an empty weight
    array) on every memory, empty or not. *)
Theorem get_on_empty_memory {V D : Type} `{Num V}
    (initial_size max_size : Z) (alpha beta epsilon : V)
    (power : V -> V -> V) (fuel : nat)
    (calls : list (@PrioritizedReplayMemory.call V D))
    (uniform : nat -> V -> V -> V) (rng : nat -> nat -> bool) :
  (2 <= max_size)%Z ->
  (Z.to_nat (2 * max_size - 1) <= fuel)%nat ->
  Forall (PrioritizedReplayMemory.valid_call max_size) calls ->
  exists s0 s total,
    PrioritizedReplayMemory.init initial_size max_size alpha beta epsilon
      = Ok s0 /\
    PrioritizedReplayMemory.run fuel power s0 calls = Ok s /\
    SumTree.total_p (PrioritizedReplayMemory._tree s) = Ok total /\
    PrioritizedReplayMemory.get fuel power uniform rng s 0
      = Raise ValueError /\
    (PrioritizedReplayMemory.inserted calls = [] ->
     forall n_samples, (1 <= n_samples)%nat ->
       PrioritizedReplayMemory.get fuel power uniform rng s n_samples
       = if PrioritizedReplayMemory.drawable
              (PrioritizedReplayMemory.bounds total n_samples)
         then Raise TypeError
         else Raise OverflowError).
Proof.
  intros Hn Hfuel Hvalid.
  destruct (prioritized_run_stores initial_size max_size alpha beta epsilon
              power fuel calls Hn Hfuel Hvalid)
    as (s0 & s & q & Hinit & Hrun & Hstores & _).
  pose proof Hstores as (Hwf & _). pose proof Hwf as (_ & Hlen & _).
  destruct (getitem_nonneg
              (SumTree._tree (PrioritizedReplayMemory._tree s)) 0 ltac:(lia))
    as (total & _ & Htotal).
  exists s0, s, total. split; [done|]. split; [done|]. split; [done|].
  unfold PrioritizedReplayMemory.get, SumTree.total_p. rewrite Htotal.
  cbn [Py.bind]. cbv zeta. split; [done|].
  intros Hempty [|k] Hk; [lia|]. rewrite Hempty in Hstores.
  destruct (PrioritizedReplayMemory.drawable
              (PrioritizedReplayMemory.bounds total (S k))); [|done].
  unfold PrioritizedReplayMemory.bounds.
  cbn [seq map combine PrioritizedReplayMemory.get_loop].
  destruct (get_returns fuel (rng 0%nat) (PrioritizedReplayMemory._tree s)
              (uniform 0%nat
                 (nmul (nof_Z (Z.of_nat 0))
                    (ndiv total (nof_Z (Z.of_nat (S k)))))
                 (nmul (nof_Z (Z.of_nat 1))
                    (ndiv total (nof_Z (Z.of_nat (S k))))))
              max_size Hwf ltac:(lia) Hfuel)
    as (j & v & d & Hget & Hleaf & _ & Hd).
  cbn [fst snd]. rewrite Hget. cbn [Py.bind fst snd].
  unfold SumTree.leaf_index in Hleaf.
  destruct (stores_slot max_size fuel Hn Hfuel [] q _
              (Z.to_nat (j - max_size + 1)) Hstores ltac:(lia))
    as [[Hnone _]|(d' & _ & Hin)].
  - rewrite Hd in Hnone. apply (inj Some) in Hnone. by subst d.
  - by apply elem_of_nil in Hin.
Qed.

Lemma get_on_empty_memory_witness :
  exists s0 s,
    PrioritizedReplayMemory.init 0 2 1%float 1%float 0x1p-7%float = Ok s0 /\
    PrioritizedReplayMemory.run 3 Examples.reciprocal s0
      Examples.update_only_calls = Ok s /\
    PrioritizedReplayMemory.get 3 Examples.reciprocal (fun _ a _ => a)
      (fun _ _ => false) s 0 = Raise ValueError /\
    PrioritizedReplayMemory.get 3 Examples.reciprocal (fun _ a _ => a)
      (fun _ _ => false) s 4 = Raise TypeError.
Proof.
  destruct (get_on_empty_memory 0 2 1%float 1%float 0x1p-7%float
              Examples.reciprocal 3 Examples.update_only_calls
              (fun _ a _ => a) (fun _ _ => false)
              ltac:(lia) ltac:(simpl; lia)
              ltac:(repeat constructor; unfold SumTree.leaf_index; lia))
    as (s0 & s & total & Hinit & Hrun & Htotal & Hzero & Hempty).
  exists s0, s. split; [exact Hinit|]. split; [exact Hrun|].
  split; [exact Hzero|].
  rewrite (Hempty eq_refl 4%nat ltac:(lia)).
  assert (PrioritizedReplayMemory.drawable
            (PrioritizedReplayMemory.bounds total 4) = true) as ->;
    [|reflexivity].
  clear Hzero Hempty. vm_compute in Hinit.
  apply (f_equal (fun r => match r with Ok a => a | _ => s0 end)) in Hinit.
  subst s0. vm_compute in Hrun.
  apply (f_equal (fun r => match r with Ok a => a | _ => s end)) in Hrun.
  subst s. vm_compute in Htotal.
  apply (f_equal (fun r => match r with Ok a => a | _ => total end)) in Htotal.
  subst total. vm_compute. reflexivity.
Defined.

(** X9: on a PrioritizedReplayMemory with max_size >= 2 reached by any
    sequence of add and update calls (updates on leaf indices), initialized
    is true exactly when the minimum of the number of added elements and
    max_size exceeds initial_size; until then max_priority is the constant 1,
    whatever priorities the tree holds, and from then on it is the max_p of
    the tree. *)
Theorem max_priority_until_initialized {V D : Type} `{Num V}
    (initial_size max_size : Z) (alpha beta epsilon : V)
    (power : V -> V -> V) (fuel : nat)
    (calls : list (@PrioritizedReplayMemory.call V D)) :
  (2 <= max_size)%Z ->
  (Z.to_nat (2 * max_size - 1) <= fuel)%nat ->
  Forall (PrioritizedReplayMemory.valid_call max_size) calls ->
  exists s0 s,
    PrioritizedReplayMemory.init initial_size max_size alpha beta epsilon
      = Ok s0 /\
    PrioritizedReplayMemory.run fuel power s0 calls = Ok s /\
    PrioritizedReplayMemory.initialized s
    = (initial_size
       <? Z.min (Z.of_nat (length (PrioritizedReplayMemory.inserted calls)))
            max_size)%Z /\
    ((Z.min (Z.of_nat (length (PrioritizedReplayMemory.inserted calls)))
        max_size <= initial_size)%Z ->
     PrioritizedReplayMemory.max_priority s = Ok n_one) /\
    ((initial_size
      < Z.min (Z.of_nat (length (PrioritizedReplayMemory.inserted calls)))
          max_size)%Z ->
     PrioritizedReplayMemory.max_priority s
     = SumTree.max_p (PrioritizedReplayMemory._tree s)).
Proof.
  intros Hn Hfuel Hvalid.
  destruct (prioritized_run_stores initial_size max_size alpha beta epsilon
              power fuel calls Hn Hfuel Hvalid)
    as (s0 & s & q & Hinit & Hrun & Hstores & Hinitial & _).
  exists s0, s. split; [done|]. split; [done|].
  unfold PrioritizedReplayMemory.max_priority,
    PrioritizedReplayMemory.initialized.
  rewrite (stores_size max_size fuel Hn Hfuel _ q _ Hstores), Hinitial.
  split; [done|]. split; intros Hsize.
  - by destruct (Z.ltb_spec initial_size
                   (Z.min (Z.of_nat
                             (length (PrioritizedReplayMemory.inserted calls)))
                      max_size)); [lia|].
  - by destruct (Z.ltb_spec initial_size
                   (Z.min (Z.of_nat
                             (length (PrioritizedReplayMemory.inserted calls)))
                      max_size)); [|lia].
Qed.

Lemma max_priority_until_initialized_witness :
  exists s0 s,
    PrioritizedReplayMemory.init 2 2 1%float 1%float 0x1p-7%float = Ok s0 /\
    PrioritizedReplayMemory.run 3 Examples.reciprocal s0
      Examples.prioritized_calls = Ok s /\
    PrioritizedReplayMemory.initialized s = false /\
    PrioritizedReplayMemory.max_priority s = Ok 1%float.
Proof.
  destruct (max_priority_until_initialized 2 2 1%float 1%float 0x1p-7%float
              Examples.reciprocal 3 Examples.prioritized_calls
              ltac:(lia) ltac:(simpl; lia)
              ltac:(repeat constructor; unfold SumTree.leaf_index; lia))
    as (s0 & s & Hinit & Hrun & Hinitialized & Hone & _).
  exists s0, s. split; [exact Hinit|]. split; [exact Hrun|].
  split; [exact Hinitialized|]. apply Hone. simpl. lia.
Defined.

(** ** SequentialReplayMemory: sampling windows of stored episodes *)

Section Windows.
Context {St Ac Rw : Type}.
Implicit Types (s : SequentialReplayMemory.t St Ac Rw).
Implicit Types (d : SequentialReplayMemory.transition St Ac Rw).
Implicit Types (ep : list (SequentialReplayMemory.transition St Ac Rw)).
Implicit Types (eps : list (list (SequentialReplayMemory.transition St Ac Rw))).

Lemma collect_returns {A B : Type} (f : A -> result B) (l : list A)
    (r : list B) :
  Forall2 (fun x y => f x = Ok y) l r ->
  SequentialReplayMemory.collect f l = Ok r.
Proof.
  induction 1 as [|x y l r Hxy _ IH]; simpl; [done|].
  by rewrite Hxy, IH.
Qed.

Lemma load_lookup {A : Type} (l : list A) (i : nat) (x : A) :
  l !! i = Some x -> SequentialReplayMemory.load l i = Ok x.
Proof. intros Hx. unfold SequentialReplayMemory.load. by rewrite Hx. Qed.

Lemma load2_column {A : Type}
    (f : SequentialReplayMemory.transition St Ac Rw -> A) eps ep d
    (e i : nat) :
  eps !! e = Some ep -> ep !! i = Some d ->
  SequentialReplayMemory.load2 (map (map f) eps) e (Ok i) = Ok (f d).
Proof.
  intros Hep Hd. unfold SequentialReplayMemory.load2.
  rewrite (load_lookup _ e (map f ep))
    by (by rewrite list_lookup_fmap, Hep).
  simpl. apply load_lookup. by rewrite list_lookup_fmap, Hd.
Qed.

Lemma cell_columns eps s ep d (e i : nat) :
  SequentialReplayMemory.columns eps s ->
  eps !! e = Some ep -> ep !! i = Some d ->
  SequentialReplayMemory.cell s e (Ok i) = Ok d.
Proof.
  intros (H1 & H2 & H3 & H4 & H5 & H6 & _) Hep Hd.
  unfold SequentialReplayMemory.cell. rewrite H1, H2, H3, H4, H5, H6.
  rewrite !(load2_column _ eps ep d e i Hep Hd). simpl.
  by destruct d as [[[[[st ac] rw] nst] ab] la].
Qed.

Lemma randint_returns (rng : nat -> nat) (high k : nat) :
  (0 < high)%nat ->
  SequentialReplayMemory.randint rng high k
  = Ok (map (fun i => rng i mod high) (seq 0 k)).
Proof.
  intros Hhigh. unfold SequentialReplayMemory.randint.
  by destruct (Nat.eqb_spec high 0); [lia|].
Qed.

Lemma start_indices_returns (rng : nat -> nat) eps s :
  SequentialReplayMemory.columns eps s ->
  SequentialReplayMemory.within_capacity eps s ->
  SequentialReplayMemory.start_indices rng s
  = Ok (imap (fun e len =>
                rng e mod (len - SequentialReplayMemory._unroll_steps s + 1))
          (map length eps)).
Proof.
  intros (_ & _ & _ & _ & _ & _ & Hlengths & _) [Hrange _].
  unfold SequentialReplayMemory.start_indices. rewrite Hlengths.
  assert (forallb
            (fun len => (SequentialReplayMemory._unroll_steps s <=? len)%nat)
            (map length eps) = true) as Hall.
  { clear Hlengths.
    induction Hrange as [|ep eps' Hep _ IH]; simpl; [done|].
    rewrite IH. destruct Hep as [Hep _].
    apply Nat.leb_le in Hep. by rewrite Hep. }
  by rewrite Hall.
Qed.

(** The rows of [get]: row [t] reads every drawn episode [t] steps after
    its start index. *)
Lemma unroll_returns eps s (es : list nat) :
  SequentialReplayMemory.columns eps s ->
  forall (steps : nat) (idx : list nat),
    (forall e, e ∈ es -> exists ep start,
       eps !! e = Some ep /\ idx !! e = Some start /\
       (start + steps <= length ep)%nat) ->
    exists rows,
      SequentialReplayMemory.unroll s es idx steps = Ok rows /\
      length rows = steps /\
      forall t row, rows !! t = Some row ->
        Forall2 (fun e d => exists ep start,
                   eps !! e = Some ep /\ idx !! e = Some start /\
                   ep !! (start + t)%nat = Some d)
          es row.
Proof.
  intros Hcols. induction steps as [|steps IH]; intros idx Hes.
  - exists []. split; [done|]. split; [done|]. intros t row Hrow.
    by rewrite lookup_nil in Hrow.
  - assert (exists row,
      Forall2 (fun e d => exists ep start,
                 eps !! e = Some ep /\ idx !! e = Some start /\
                 ep !! (start + 0)%nat = Some d) es row) as [row Hrow].
    { clear IH. induction es as [|e es IH].
      - exists []. constructor.
      - destruct IH as [row Hrow].
        { intros e' He'. apply Hes. by apply list_elem_of_further. }
        destruct (Hes e ltac:(apply list_elem_of_here))
          as (ep & start & Hep & Hstart & Hle).
        destruct (lookup_lt_is_Some_2 ep (start + 0) ltac:(lia)) as [d Hd].
        exists (d :: row). constructor; [|done]. by exists ep, start. }
    destruct (IH (map S idx)) as (rows & Hrun & Hlen & Hrows).
    { intros e He. destruct (Hes e He) as (ep & start & Hep & Hstart & Hle).
      exists ep, (S start). split; [done|].
      split; [by rewrite list_lookup_fmap, Hstart|lia]. }
    exists (row :: rows). split.
    + simpl. rewrite (collect_returns _ es row).
      * simpl. by rewrite Hrun.
      * eapply Forall2_impl; [exact Hrow|].
        intros e d (ep & start & Hep & Hstart & Hd). simpl.
        rewrite (load_lookup _ _ _ Hstart).
        rewrite Nat.add_0_r in Hd. by apply (cell_columns eps s ep).
    + split; [simpl; lia|]. intros [|t] row' Hrow'.
      * simpl in Hrow'. by injection Hrow' as <-.
      * simpl in Hrow'. specialize (Hrows t row' Hrow').
        eapply Forall2_impl; [exact Hrows|].
        intros e d (ep & start & Hep & Hstart & Hd). simpl in Hd.
        rewrite list_lookup_fmap in Hstart.
        destruct (idx !! e) as [start'|] eqn:Hidx; [|done].
        simpl in Hstart. injection Hstart as <-.
        exists ep, start'. split; [done|]. split; [done|].
        by replace (start' + S t)%nat with (S (start' + t))%nat by lia.
Qed.

(** The rows of [get_batch_first]: each is a window of one episode. *)
Lemma window_returns (rng_start : nat -> nat) eps s ep (k e : nat) :
  SequentialReplayMemory.columns eps s ->
  SequentialReplayMemory.within_capacity eps s ->
  eps !! e = Some ep ->
  SequentialReplayMemory.window rng_start s (k, e)
  = Ok (take (SequentialReplayMemory._unroll_steps s)
          (drop (rng_start k
                 mod (length ep - SequentialReplayMemory._unroll_steps s + 1))
             ep)).
Proof.
  intros Hcols [Hrange _] Hep.
  pose proof Hcols as (_ & _ & _ & _ & _ & Hlast & _).
  assert (SequentialReplayMemory._unroll_steps s <= length ep)%nat as Hlen.
  { rewrite Forall_forall in Hrange.
    apply (Hrange ep). by apply list_elem_of_lookup_2 in Hep. }
  unfold SequentialReplayMemory.window. cbn [fst snd].
  rewrite (load_lookup _ e (map (fun d => d.2) ep))
    by (by rewrite Hlast, list_lookup_fmap, Hep).
  cbn [Py.bind]. rewrite length_map.
  destruct (Nat.leb_spec (SequentialReplayMemory._unroll_steps s) (length ep));
    [|lia].
  set (u := SequentialReplayMemory._unroll_steps s) in *.
  set (start := (rng_start k mod (length ep - u + 1))%nat).
  assert (start < length ep - u + 1)%nat as Hstart
    by (apply Nat.mod_upper_bound; lia).
  apply collect_returns. apply Forall2_same_length_lookup_2.
  - rewrite length_seq, length_take, length_drop. lia.
  - intros t i d Hi Hd. apply lookup_seq in Hi as [-> Ht].
    rewrite lookup_take_lt in Hd by done. rewrite lookup_drop in Hd.
    by apply (cell_columns eps s ep).
Qed.

End Windows.

(** The windows [get] returns. *)
Lemma get_windows {St Ac Rw : Type}
    (initial_size unroll_steps : nat)
    (eps : list (list (SequentialReplayMemory.transition St Ac Rw)))
    (s : SequentialReplayMemory.t St Ac Rw)
    (rng_ep rng_idx : nat -> nat) (batch_size : nat) :
  SequentialReplayMemory.columns eps s ->
  SequentialReplayMemory.within_capacity eps s ->
  SequentialReplayMemory._initial_size s = initial_size ->
  SequentialReplayMemory._unroll_steps s = unroll_steps ->
  eps <> [] ->
  (batch_size <= initial_size)%nat ->
  exists rows,
    SequentialReplayMemory.get rng_ep rng_idx s batch_size
    = SequentialReplayMemory.Passed (Ok (SequentialReplayMemory.arrays rows)) /\
    length rows = unroll_steps /\
    Forall (fun row => length row = batch_size) rows /\
    forall b, (b < batch_size)%nat ->
      exists ep start,
        eps !! (rng_ep b mod length eps) = Some ep /\
        start
        = (rng_idx (rng_ep b mod length eps)
           mod (length ep - unroll_steps + 1))%nat /\
        (start + unroll_steps <= length ep)%nat /\
        forall t, (t < unroll_steps)%nat ->
          rows !! t ≫= (.!! b) = ep !! (start + t)%nat.
Proof.
  intros Hcols Hcap Hinitial Hunroll Hstored Hbatch.
  assert (0 < length eps)%nat as Hlen
    by (destruct eps; [done|simpl; lia]).
  pose proof Hcols as (Hstates & _).
  pose proof Hcap as [Hrange _]. rewrite Hunroll in Hrange.
  set (es := map (fun i => rng_ep i mod length eps) (seq 0 batch_size)).
  set (idx := imap (fun e len => rng_idx e mod (len - unroll_steps + 1))
                (map length eps)).
  assert (forall e ep, eps !! e = Some ep ->
            idx !! e = Some (rng_idx e mod (length ep - unroll_steps + 1))
            /\ (rng_idx e mod (length ep - unroll_steps + 1) + unroll_steps
                <= length ep)%nat) as Hidx.
  { intros e ep Hep. split.
    - unfold idx. by rewrite list_lookup_imap, list_lookup_fmap, Hep.
    - rewrite Forall_forall in Hrange.
      pose proof (Hrange ep (list_elem_of_lookup_2 _ _ _ Hep)).
      pose proof (Nat.mod_upper_bound (rng_idx e)
                    (length ep - unroll_steps + 1) ltac:(lia)).
      lia. }
  destruct (unroll_returns eps s es Hcols unroll_steps idx)
    as (rows & Hrows & Hlrows & Hrow).
  { intros e He. apply list_elem_of_fmap in He as (i & -> & _).
    destruct (lookup_lt_is_Some_2 eps (rng_ep i mod length eps)
                ltac:(apply Nat.mod_upper_bound; lia)) as [ep Hep].
    destruct (Hidx _ ep Hep) as [Hstart Hle]. by eexists ep, _. }
  exists rows. split.
  { unfold SequentialReplayMemory.get. rewrite Hinitial.
    destruct (Nat.leb_spec batch_size initial_size); [|lia].
    rewrite Hstates, length_map, (randint_returns _ _ _ Hlen).
    cbn [Py.bind]. rewrite (start_indices_returns rng_idx eps s Hcols Hcap).
    cbn [Py.bind]. rewrite Hunroll. fold es idx. by rewrite Hrows. }
  split; [done|]. split.
  { apply Forall_forall. intros row Hin.
    apply list_elem_of_lookup in Hin as [t Ht].
    pose proof (Forall2_length _ _ _ (Hrow t row Ht)) as Hlrow.
    unfold es in Hlrow. rewrite length_map, length_seq in Hlrow. lia. }
  intros b Hb.
  destruct (lookup_lt_is_Some_2 eps (rng_ep b mod length eps)
              ltac:(apply Nat.mod_upper_bound; lia)) as [ep Hep].
  destruct (Hidx _ ep Hep) as [Hstart Hle].
  eexists ep, _. split; [done|]. split; [done|]. split; [done|].
  intros t Ht.
  destruct (lookup_lt_is_Some_2 rows t ltac:(lia)) as [row Hrowt].
  rewrite Hrowt. simpl.
  assert (es !! b = Some (rng_ep b mod length eps)) as Hes.
  { unfold es. rewrite list_lookup_fmap, lookup_seq_lt by done. done. }
  destruct (Forall2_lookup_l _ _ _ _ _ (Hrow t row Hrowt) Hes)
    as (d & Hd & ep' & start' & Hep' & Hstart' & Hcell).
  rewrite Hep in Hep'. injection Hep' as <-.
  rewrite Hstart in Hstart'. injection Hstart' as <-.
  by rewrite Hd, Hcell.
Qed.

(** X10: get on a SequentialReplayMemory (started by the constructor and
    driven by add and reset calls) that stores at least one episode, with
    batch_size <= initial_size: whatever is drawn, the call returns
    unroll_steps rows of batch_size cells each (time-major), no read is out
    of range, and column b is a window of unroll_steps consecutive
    transitions of the b-th drawn episode, starting at the index drawn for
    that episode; two columns that drew the same episode are therefore the
    same window. *)
Theorem get_returns_windows {St Ac Rw : Type}
    (initial_size max_size unroll_steps : nat)
    (calls : list (@SequentialReplayMemory.call St Ac Rw))
    (s : SequentialReplayMemory.t St Ac Rw)
    (rng_ep rng_idx : nat -> nat) (batch_size : nat) :
  SequentialReplayMemory.run
    (SequentialReplayMemory.init initial_size max_size unroll_steps) calls
    = Ok s ->
  SequentialReplayMemory.stored s <> [] ->
  (batch_size <= initial_size)%nat ->
  exists rows,
    SequentialReplayMemory.get rng_ep rng_idx s batch_size
    = SequentialReplayMemory.Passed (Ok (SequentialReplayMemory.arrays rows)) /\
    length rows = unroll_steps /\
    Forall (fun row => length row = batch_size) rows /\
    forall b, (b < batch_size)%nat ->
      exists ep start,
        SequentialReplayMemory.stored s
          !! (rng_ep b mod length (SequentialReplayMemory.stored s))
        = Some ep /\
        start
        = (rng_idx (rng_ep b mod length (SequentialReplayMemory.stored s))
           mod (length ep - unroll_steps + 1))%nat /\
        (start + unroll_steps <= length ep)%nat /\
        forall t, (t < unroll_steps)%nat ->
          rows !! t ≫= (.!! b) = ep !! (start + t)%nat.
Proof.
  intros Hrun Hstored Hbatch.
  destruct (run_keeps calls _ s Hrun) as [(eps & Hcols & Hcap) Hpar];
    [apply init_columns|].
  destruct Hpar as (Hinitial & _ & Hunroll). simpl in Hinitial, Hunroll.
  rewrite (columns_stored eps s Hcols) in *.
  exact (get_windows initial_size unroll_steps eps s rng_ep rng_idx batch_size
           Hcols Hcap Hinitial Hunroll Hstored Hbatch).
Qed.

Lemma get_returns_windows_witness :
  exists s rows,
    SequentialReplayMemory.run (SequentialReplayMemory.init 4 10 2)
      [SequentialReplayMemory.Add Examples.seven_steps] = Ok s /\
    SequentialReplayMemory.get (fun k => k) (fun e => S e) s 3
    = SequentialReplayMemory.Passed (Ok (SequentialReplayMemory.arrays rows)) /\
    length rows = 2%nat /\
    Forall (fun row => length row = 3%nat) rows.
Proof.
  eexists.
  match goal with
  | |- exists rows, ?r = Ok ?a /\ _ =>
      assert (r = Ok a) as Hrun by (vm_compute; reflexivity)
  end.
  destruct (get_returns_windows 4 10 2
              [SequentialReplayMemory.Add Examples.seven_steps] _
              (fun k => k) (fun e => S e) 3 Hrun
              ltac:(vm_compute; discriminate) ltac:(lia))
    as (rows & Hget & Hlen & Hrows & _).
  exists rows. split; [exact Hrun|]. split; [exact Hget|].
  split; [exact Hlen|exact Hrows].
Defined.

Lemma collect_exists {A B : Type} (f : A -> result B) (P : A -> B -> Prop)
    (l : list A) :
  (forall x, x ∈ l -> exists y, f x = Ok y /\ P x y) ->
  exists r, SequentialReplayMemory.collect f l = Ok r /\ Forall2 P l r.
Proof.
  induction l as [|x l IH]; intros Hl.
  - exists []. split; [done|constructor].
  - destruct (Hl x ltac:(apply list_elem_of_here)) as (y & Hy & HP).
    destruct IH as (r & Hr & HPr).
    { intros x' Hx'. apply Hl. by apply list_elem_of_further. }
    exists (y :: r). simpl. rewrite Hy, Hr. split; [done|by constructor].
Qed.

(** The windows [get_batch_first] returns. *)
Lemma get_batch_first_windows {St Ac Rw : Type}
    (initial_size unroll_steps : nat)
    (eps : list (list (SequentialReplayMemory.transition St Ac Rw)))
    (s : SequentialReplayMemory.t St Ac Rw)
    (rng_ep rng_start : nat -> nat) (n_samples : nat) :
  SequentialReplayMemory.columns eps s ->
  SequentialReplayMemory.within_capacity eps s ->
  SequentialReplayMemory._initial_size s = initial_size ->
  SequentialReplayMemory._unroll_steps s = unroll_steps ->
  eps <> [] ->
  (n_samples <= initial_size)%nat ->
  exists rows,
    SequentialReplayMemory.get_batch_first rng_ep rng_start s n_samples
    = SequentialReplayMemory.Passed (Ok (SequentialReplayMemory.arrays rows)) /\
    length rows = n_samples /\
    forall b, (b < n_samples)%nat ->
      exists ep start,
        eps !! (rng_ep b mod length eps) = Some ep /\
        start = (rng_start b mod (length ep - unroll_steps + 1))%nat /\
        (start + unroll_steps <= length ep)%nat /\
        rows !! b = Some (take unroll_steps (drop start ep)).
Proof.
  intros Hcols Hcap Hinitial Hunroll Hstored Hsamples.
  assert (0 < length eps)%nat as Hlen
    by (destruct eps; [done|simpl; lia]).
  pose proof Hcols as (Hstates & _).
  pose proof Hcap as [Hrange _]. rewrite Hunroll in Hrange.
  set (es := map (fun i => rng_ep i mod length eps) (seq 0 n_samples)).
  assert (length es = n_samples) as Hles
    by (unfold es; by rewrite length_map, length_seq).
  destruct (collect_exists (SequentialReplayMemory.window rng_start s)
              (fun ke row => exists ep,
                 eps !! ke.2 = Some ep /\
                 row = take unroll_steps
                         (drop (rng_start ke.1
                                mod (length ep - unroll_steps + 1)) ep))
              (combine (seq 0 (length es)) es))
    as (rows & Hrows & Hrow).
  { intros [k e] Hke. apply list_elem_of_lookup in Hke as [i Hi].
    apply lookup_zip_with_Some in Hi as (k' & e' & [= <- <-] & _ & He).
    unfold es in He. rewrite list_lookup_fmap in He.
    destruct (seq 0 n_samples !! i) as [j|]; [|done].
    simpl in He. injection He as <-.
    destruct (lookup_lt_is_Some_2 eps (rng_ep j mod length eps)
                ltac:(apply Nat.mod_upper_bound; lia)) as [ep Hep].
    exists (take unroll_steps
              (drop (rng_start k mod (length ep - unroll_steps + 1)) ep)).
    split; [|by exists ep].
    rewrite (window_returns rng_start eps s ep k _ Hcols Hcap Hep).
    by rewrite Hunroll. }
  exists rows. split.
  { unfold SequentialReplayMemory.get_batch_first. rewrite Hinitial.
    destruct (Nat.leb_spec n_samples initial_size); [|lia].
    rewrite Hstates, length_map, (randint_returns _ _ _ Hlen).
    cbn [Py.bind]. fold es. by rewrite Hrows. }
  pose proof (Forall2_length _ _ _ Hrow) as Hlrows.
  rewrite length_combine, length_seq, Hles in Hlrows.
  split; [lia|]. intros b Hb.
  assert (combine (seq 0 (length es)) es !! b
          = Some (b, rng_ep b mod length eps)) as Hb'.
  { apply lookup_zip_with_Some. exists b, (rng_ep b mod length eps)%nat.
    split; [done|]. rewrite Hles. split; [by apply lookup_seq_lt|].
    unfold es. rewrite list_lookup_fmap, lookup_seq_lt by done. done. }
  destruct (Forall2_lookup_l _ _ _ _ _ Hrow Hb') as (row & Hrowb & ep & Hep & ->).
  simpl in Hep. eexists ep, _. split; [done|]. split; [done|]. split; [|done].
  rewrite Forall_forall in Hrange.
  pose proof (Hrange ep (list_elem_of_lookup_2 _ _ _ Hep)).
  pose proof (Nat.mod_upper_bound (rng_start b)
                (length ep - unroll_steps + 1) ltac:(lia)).
  simpl. lia.
Qed.

(** X11: get_batch_first on a SequentialReplayMemory (started by the
    constructor and driven by add and reset calls) that stores at least one
    episode, with n_samples <= initial_size: whatever is drawn, the call
    returns n_samples rows (batch-major), no read is out of range, and row b
    is exactly the unroll_steps consecutive transitions of the b-th drawn
    episode that begin at the start index drawn for that sample. *)
Theorem get_batch_first_returns_windows {St Ac Rw : Type}
    (initial_size max_size unroll_steps : nat)
    (calls : list (@SequentialReplayMemory.call St Ac Rw))
    (s : SequentialReplayMemory.t St Ac Rw)
    (rng_ep rng_start : nat -> nat) (n_samples : nat) :
  SequentialReplayMemory.run
    (SequentialReplayMemory.init initial_size max_size unroll_steps) calls
    = Ok s ->
  SequentialReplayMemory.stored s <> [] ->
  (n_samples <= initial_size)%nat ->
  exists rows,
    SequentialReplayMemory.get_batch_first rng_ep rng_start s n_samples
    = SequentialReplayMemory.Passed (Ok (SequentialReplayMemory.arrays rows)) /\
    length rows = n_samples /\
    forall b, (b < n_samples)%nat ->
      exists ep start,
        SequentialReplayMemory.stored s
          !! (rng_ep b mod length (SequentialReplayMemory.stored s))
        = Some ep /\
        start = (rng_start b mod (length ep - unroll_steps + 1))%nat /\
        (start + unroll_steps <= length ep)%nat /\
        rows !! b = Some (take unroll_steps (drop start ep)).
Proof.
  intros Hrun Hstored Hsamples.
  destruct (run_keeps calls _ s Hrun) as [(eps & Hcols & Hcap) Hpar];
    [apply init_columns|].
  destruct Hpar as (Hinitial & _ & Hunroll). simpl in Hinitial, Hunroll.
  rewrite (columns_stored eps s Hcols) in *.
  exact (get_batch_first_windows initial_size unroll_steps eps s rng_ep rng_start n_samples
           Hcols Hcap Hinitial Hunroll Hstored Hsamples).
Qed.

Lemma get_batch_first_returns_windows_witness :
  exists s rows,
    SequentialReplayMemory.run (SequentialReplayMemory.init 4 10 2)
      [SequentialReplayMemory.Add Examples.seven_steps] = Ok s /\
    SequentialReplayMemory.get_batch_first (fun k => k) (fun e => S e) s 3
    = SequentialReplayMemory.Passed (Ok (SequentialReplayMemory.arrays rows)) /\
    length rows = 3%nat.
Proof.
  eexists.
  match goal with
  | |- exists rows, ?r = Ok ?a /\ _ =>
      assert (r = Ok a) as Hrun by (vm_compute; reflexivity)
  end.
  destruct (get_batch_first_returns_windows 4 10 2
              [SequentialReplayMemory.Add Examples.seven_steps] _
              (fun k => k) (fun e => S e) 3 Hrun
              ltac:(vm_compute; discriminate) ltac:(lia))
    as (rows & Hget & Hlen & _).
  exists rows. split; [exact Hrun|]. split; [exact Hget|exact Hlen].
Defined.

(** X12: when the two sampling methods of a SequentialReplayMemory (started
    by the constructor and driven by add and reset calls) refuse: a request
    for more than initial_size samples fails the assertion, before anything
    is drawn; a request for 1 to initial_size samples while no episode is
    stored (nothing complete added yet, or just after reset) raises
    ValueError from the draw over an empty range. *)
Theorem sampling_refused {St Ac Rw : Type}
    (initial_size max_size unroll_steps : nat)
    (calls : list (@SequentialReplayMemory.call St Ac Rw))
    (s : SequentialReplayMemory.t St Ac Rw)
    (rng_ep rng_idx : nat -> nat) (k : nat) :
  SequentialReplayMemory.run
    (SequentialReplayMemory.init initial_size max_size unroll_steps) calls
    = Ok s ->
  ((initial_size < k)%nat ->
   SequentialReplayMemory.get rng_ep rng_idx s k
     = SequentialReplayMemory.AssertionError /\
   SequentialReplayMemory.get_batch_first rng_ep rng_idx s k
     = SequentialReplayMemory.AssertionError) /\
  (SequentialReplayMemory.stored s = [] -> (1 <= k <= initial_size)%nat ->
   SequentialReplayMemory.get rng_ep rng_idx s k
     = SequentialReplayMemory.Passed (Raise ValueError) /\
   SequentialReplayMemory.get_batch_first rng_ep rng_idx s k
     = SequentialReplayMemory.Passed (Raise ValueError)).
Proof.
  intros Hrun.
  destruct (run_keeps calls _ s Hrun) as [(eps & Hcols & Hcap) Hpar];
    [apply init_columns|].
  destruct Hpar as (Hinitial & _ & _). simpl in Hinitial.
  unfold SequentialReplayMemory.get, SequentialReplayMemory.get_batch_first.
  rewrite Hinitial. split.
  - intros Hk. by destruct (Nat.leb_spec k initial_size); [lia|].
  - intros Hempty Hk. destruct (Nat.leb_spec k initial_size); [|lia].
    rewrite (columns_stored eps s Hcols) in Hempty. subst eps.
    destruct Hcols as (-> & _). by destruct k; [lia|].
Qed.

Lemma sampling_refused_witness :
  exists s,
    SequentialReplayMemory.run (SequentialReplayMemory.init 4 10 2)
      [SequentialReplayMemory.Add Examples.seven_steps;
       SequentialReplayMemory.Reset] = Ok s /\
    SequentialReplayMemory.get (fun k => k) (fun e => S e) s 5
      = SequentialReplayMemory.AssertionError /\
    SequentialReplayMemory.get_batch_first (fun k => k) (fun e => S e) s 3
      = SequentialReplayMemory.Passed (Raise ValueError).
Proof.
  eexists.
  match goal with
  | |- ?r = Ok ?a /\ _ =>
      assert (r = Ok a) as Hrun by (vm_compute; reflexivity)
  end.
  split; [exact Hrun|]. split.
  - apply (sampling_refused 4 10 2 _ _ (fun k => k) (fun e => S e) 5 Hrun).
    lia.
  - apply (sampling_refused 4 10 2 _ _ (fun k => k) (fun e => S e) 3 Hrun);
      [reflexivity|lia].
Defined.

(** ** SequentialReplayMemory: adding in pieces *)

Section Chunks.
Context {St Ac Rw : Type}.
Implicit Types (s : SequentialReplayMemory.t St Ac Rw).
Implicit Types (d : SequentialReplayMemory.transition St Ac Rw).
Implicit Types (u cur dataset : list (SequentialReplayMemory.transition St Ac Rw)).
Implicit Types (episodes : list (list (SequentialReplayMemory.transition St Ac Rw))).

Lemma split_at_boundaries_app : forall dataset dataset' cur,
  SequentialReplayMemory.split_at_boundaries cur (dataset ++ dataset')
  = ((SequentialReplayMemory.split_at_boundaries cur dataset).1
     ++ (SequentialReplayMemory.split_at_boundaries
           (SequentialReplayMemory.split_at_boundaries cur dataset).2
           dataset').1,
     (SequentialReplayMemory.split_at_boundaries
        (SequentialReplayMemory.split_at_boundaries cur dataset).2
        dataset').2).
Proof.
  induction dataset as [|d dataset IH]; intros dataset' cur; simpl.
  - by destruct (SequentialReplayMemory.split_at_boundaries cur dataset').
  - destruct (SequentialReplayMemory.absorbing d); simpl; by rewrite IH.
Qed.

Lemma split_at_boundaries_cur : forall cur dataset cur0,
  Forall (fun d => SequentialReplayMemory.absorbing d = false) cur ->
  SequentialReplayMemory.split_at_boundaries cur0 (cur ++ dataset)
  = SequentialReplayMemory.split_at_boundaries (cur0 ++ cur) dataset.
Proof.
  induction cur as [|d cur IH]; intros dataset cur0 Hcur; simpl.
  - by rewrite app_nil_r.
  - inversion Hcur as [|? ? Hd Hcur']; subst. rewrite Hd.
    rewrite IH by done. by rewrite <- app_assoc.
Qed.

(** The loop over the episodes carries the unfinished episode along and
    never reads it. *)
Lemma evict_unfinished : forall (states : list (list St)) s u,
  SequentialReplayMemory.evict states
    (SequentialReplayMemory.with_unfinished s u)
  = (s' <- SequentialReplayMemory.evict states s ;;
     Ok (SequentialReplayMemory.with_unfinished s' u)).
Proof.
  induction states as [|ep states IH]; intros s u; simpl;
    destruct (Z.of_nat (SequentialReplayMemory._max_size s)
              <? SequentialReplayMemory._size s)%Z; try done.
  destruct (SequentialReplayMemory.pop0 (SequentialReplayMemory._actions s))
    as [a| |]; simpl; try done.
  destruct (SequentialReplayMemory.pop0 (SequentialReplayMemory._rewards s))
    as [r| |]; simpl; try done.
  destruct (SequentialReplayMemory.pop0 (SequentialReplayMemory._next_states s))
    as [ss| |]; simpl; try done.
  destruct (SequentialReplayMemory.pop0 (SequentialReplayMemory._absorbing s))
    as [ab| |]; simpl; try done.
  destruct (SequentialReplayMemory.pop0 (SequentialReplayMemory._last s))
    as [la| |]; simpl; try done.
  destruct (SequentialReplayMemory.pop0 (SequentialReplayMemory._lengths s))
    as [le| |]; simpl; try done.
  match goal with
  | |- _ = (s' <- SequentialReplayMemory.evict _ ?s1 ;; _) =>
      exact (IH s1 u)
  end.
Qed.

Lemma add_episode_unfinished s u (ep : list (SequentialReplayMemory.transition St Ac Rw)) :
  SequentialReplayMemory.add_episode
    (SequentialReplayMemory.with_unfinished s u) ep
  = (sb <- SequentialReplayMemory.add_episode s ep ;;
     Ok (SequentialReplayMemory.with_unfinished sb.1 u, sb.2)).
Proof.
  unfold SequentialReplayMemory.add_episode.
  change (SequentialReplayMemory.storable
            (SequentialReplayMemory.with_unfinished s u) ep)
    with (SequentialReplayMemory.storable s ep).
  destruct (SequentialReplayMemory.storable s ep); [|done].
  cbv zeta.
  match goal with
  | |- _ = (sb <- (s2 <- SequentialReplayMemory.evict ?st ?s1 ;; _) ;; _) =>
      pose proof (evict_unfinished st s1 u) as Hev;
      destruct (SequentialReplayMemory.evict st s1) as [s2| |]
  end.
  all: cbn [Py.bind] in Hev |- *.
  all: etransitivity;
    [apply (f_equal (fun m => s2 <- m ;; Ok (s2, true))); exact Hev|done].
Qed.

Lemma add_episodes_unfinished : forall episodes s u (added : nat),
  SequentialReplayMemory.add_episodes
    (SequentialReplayMemory.with_unfinished s u) added episodes
  = (sb <- SequentialReplayMemory.add_episodes s added episodes ;;
     Ok (SequentialReplayMemory.with_unfinished sb.1 u, sb.2)).
Proof.
  induction episodes as [|ep episodes IH]; intros s u added; simpl; [done|].
  rewrite add_episode_unfinished.
  destruct (SequentialReplayMemory.add_episode s ep) as [[s1 b]| |];
    simpl; [|done|done].
  apply IH.
Qed.

Lemma add_episodes_app : forall episodes episodes' s (added : nat),
  SequentialReplayMemory.add_episodes s added (episodes ++ episodes')
  = (sb <- SequentialReplayMemory.add_episodes s added episodes ;;
     SequentialReplayMemory.add_episodes sb.1 sb.2 episodes').
Proof.
  induction episodes as [|ep episodes IH]; intros episodes' s added; simpl;
    [done|].
  destruct (SequentialReplayMemory.add_episode s ep) as [[s1 b]| |];
    simpl; [|done|done].
  apply IH.
Qed.

Lemma add_episodes_count : forall episodes s (added : nat),
  SequentialReplayMemory.add_episodes s added episodes
  = (sb <- SequentialReplayMemory.add_episodes s 0 episodes ;;
     Ok (sb.1, (added + sb.2)%nat)).
Proof.
  induction episodes as [|ep episodes IH]; intros s added; simpl.
  - by rewrite Nat.add_0_r.
  - destruct (SequentialReplayMemory.add_episode s ep) as [[s1 b]| |];
      simpl; [|done|done].
    rewrite (IH s1 (if b then S added else added)).
    rewrite (IH s1 (if b then 1%nat else 0%nat)).
    destruct (SequentialReplayMemory.add_episodes s1 0 episodes)
      as [[s2 k]| |]; simpl; [|done|done].
    destruct b; simpl; do 2 f_equal; lia.
Qed.

Lemma add_unfold s dataset :
  SequentialReplayMemory.add s dataset
  = (eu <- SequentialReplayMemory._split_dataset
             (SequentialReplayMemory.unfinished_episode s ++ dataset) ;;
     SequentialReplayMemory.add_episodes
       (SequentialReplayMemory.with_unfinished s eu.2) 0 eu.1).
Proof. reflexivity. Qed.

End Chunks.

(** X13: adding in pieces.  If add(d1) returns on a SequentialReplayMemory
    and add(d2) returns on the result, then a single add(d1 + d2) on the
    original memory returns too, ends in the same state (stored episodes,
    counters and unfinished episode) and reports the sum of the two counts:
    an episode cut between two calls is stored exactly as if it had arrived
    whole. *)
Theorem add_in_pieces {St Ac Rw : Type}
    (s s1 s2 : SequentialReplayMemory.t St Ac Rw)
    (d1 d2 : list (SequentialReplayMemory.transition St Ac Rw))
    (n1 n2 : nat) :
  SequentialReplayMemory.add s d1 = Ok (s1, n1) ->
  SequentialReplayMemory.add s1 d2 = Ok (s2, n2) ->
  SequentialReplayMemory.add s (d1 ++ d2) = Ok (s2, (n1 + n2)%nat).
Proof.
  intros Hadd1 Hadd2.
  assert (SequentialReplayMemory.unfinished_episode s ++ d1 <> []) as Hne1.
  { intros Hempty. rewrite add_unfold, Hempty in Hadd1. discriminate. }
  rewrite add_unfold, (split_dataset_refines _ Hne1) in Hadd1.
  cbn [Py.bind] in Hadd1.
  set (r1 := SequentialReplayMemory.split_at_boundaries []
               (SequentialReplayMemory.unfinished_episode s ++ d1)) in *.
  rewrite add_episodes_unfinished in Hadd1.
  destruct (SequentialReplayMemory.add_episodes s 0 r1.1)
    as [[sb k1]| |] eqn:Hrun1; try discriminate.
  cbn [Py.bind fst snd] in Hadd1.
  assert (s1 = SequentialReplayMemory.with_unfinished sb r1.2 /\ n1 = k1)
    as [-> ->].
  { apply (f_equal (fun r => match r with Ok a => a | _ => (s1, n1) end))
      in Hadd1.
    simpl in Hadd1. by injection Hadd1 as <- <-. }
  assert (SequentialReplayMemory.unfinished_episode
            (SequentialReplayMemory.with_unfinished sb r1.2) ++ d2 <> [])
    as Hne2.
  { intros Hempty. rewrite add_unfold, Hempty in Hadd2. discriminate. }
  rewrite add_unfold, (split_dataset_refines _ Hne2) in Hadd2.
  cbn [Py.bind] in Hadd2.
  change (SequentialReplayMemory.unfinished_episode
            (SequentialReplayMemory.with_unfinished sb r1.2))
    with r1.2 in Hadd2.
  destruct (split_at_boundaries_flags
              (SequentialReplayMemory.unfinished_episode s ++ d1) []
              ltac:(constructor)) as [_ Hflags].
  fold r1 in Hflags.
  rewrite (split_at_boundaries_cur r1.2 d2 [] Hflags) in Hadd2.
  change ([] ++ r1.2) with r1.2 in Hadd2.
  set (r2 := SequentialReplayMemory.split_at_boundaries r1.2 d2) in *.
  change (SequentialReplayMemory.with_unfinished
            (SequentialReplayMemory.with_unfinished sb r1.2) r2.2)
    with (SequentialReplayMemory.with_unfinished sb r2.2) in Hadd2.
  assert (SequentialReplayMemory.unfinished_episode s ++ d1 ++ d2 <> [])
    as Hne.
  { rewrite app_assoc. intros Hempty.
    by apply app_eq_nil in Hempty as [? _]. }
  rewrite add_unfold, (split_dataset_refines _ Hne). cbn [Py.bind].
  rewrite app_assoc, split_at_boundaries_app. fold r1. fold r2.
  cbn [fst snd].
  rewrite add_episodes_app, add_episodes_unfinished, Hrun1.
  cbn [Py.bind fst snd].
  rewrite add_episodes_count, Hadd2. done.
Qed.

Lemma add_in_pieces_witness :
  exists s1 n1 s2 n2,
    SequentialReplayMemory.add (SequentialReplayMemory.init 4 10 2)
      (take 4 Examples.seven_steps) = Ok (s1, n1) /\
    SequentialReplayMemory.add s1 (drop 4 Examples.seven_steps)
      = Ok (s2, n2) /\
    SequentialReplayMemory.add (SequentialReplayMemory.init 4 10 2)
      (take 4 Examples.seven_steps ++ drop 4 Examples.seven_steps)
      = Ok (s2, (n1 + n2)%nat) /\
    SequentialReplayMemory.stored s2
      = [take 3 Examples.seven_steps; take 3 (drop 3 Examples.seven_steps)].
Proof.
  do 4 eexists.
  match goal with
  | |- ?a1 = Ok ?r1 /\ ?a2 = Ok ?r2 /\ _ =>
      assert (a1 = Ok r1) as Hadd1 by (vm_compute; reflexivity);
      assert (a2 = Ok r2) as Hadd2 by (vm_compute; reflexivity)
  end.
  split; [exact Hadd1|]. split; [exact Hadd2|].
  split; [exact (add_in_pieces _ _ _ _ _ _ _ Hadd1 Hadd2)|].
  vm_compute. reflexivity.
Defined.

(** X14: initialized is enough to sample.  On a SequentialReplayMemory
    (started by the constructor and driven by add and reset calls) whose
    initialized property is true, both get and get_batch_first return for
    every request of at most initial_size samples, whatever is drawn: get
    gives unroll_steps rows of that many cells, get_batch_first that many
    rows of unroll_steps cells. *)
Theorem initialized_allows_sampling {St Ac Rw : Type}
    (initial_size max_size unroll_steps : nat)
    (calls : list (@SequentialReplayMemory.call St Ac Rw))
    (s : SequentialReplayMemory.t St Ac Rw)
    (rng_ep rng_idx : nat -> nat) (k : nat) :
  SequentialReplayMemory.run
    (SequentialReplayMemory.init initial_size max_size unroll_steps) calls
    = Ok s ->
  SequentialReplayMemory.initialized s = true ->
  (k <= initial_size)%nat ->
  exists rows rows',
    SequentialReplayMemory.get rng_ep rng_idx s k
    = SequentialReplayMemory.Passed (Ok (SequentialReplayMemory.arrays rows)) /\
    length rows = unroll_steps /\
    Forall (fun row => length row = k) rows /\
    SequentialReplayMemory.get_batch_first rng_ep rng_idx s k
    = SequentialReplayMemory.Passed (Ok (SequentialReplayMemory.arrays rows')) /\
    length rows' = k /\
    Forall (fun row => length row = unroll_steps) rows'.
Proof.
  intros Hrun Hinitialized Hk.
  destruct (run_keeps calls _ s Hrun) as [(eps & Hcols & Hcap) Hpar];
    [apply init_columns|].
  destruct Hpar as (Hinitial & _ & Hunroll). simpl in Hinitial, Hunroll.
  assert (eps <> []) as Hstored.
  { intros ->.
    destruct Hcols as (_ & _ & _ & _ & _ & _ & _ & Hsize).
    unfold SequentialReplayMemory.initialized in Hinitialized.
    rewrite Hsize in Hinitialized. simpl in Hinitialized.
    apply Z.ltb_lt in Hinitialized. lia. }
  destruct (get_windows initial_size unroll_steps eps s rng_ep rng_idx k
              Hcols Hcap Hinitial Hunroll Hstored Hk)
    as (rows & Hget & Hlen & Hrows & _).
  destruct (get_batch_first_windows initial_size unroll_steps eps s rng_ep
              rng_idx k Hcols Hcap Hinitial Hunroll Hstored Hk)
    as (rows' & Hget' & Hlen' & Hrows').
  exists rows, rows'. repeat (split; [done|]).
  apply Forall_forall. intros row Hin.
  apply list_elem_of_lookup in Hin as [b Hb].
  assert (b < k)%nat as Hbk.
  { rewrite <- Hlen'. apply lookup_lt_is_Some. by exists row. }
  destruct (Hrows' b Hbk) as (ep & start & _ & _ & Hle & Hrow).
  rewrite Hb in Hrow. injection Hrow as ->.
  rewrite length_take, length_drop. lia.
Qed.

Lemma initialized_allows_sampling_witness :
  exists s rows rows',
    SequentialReplayMemory.run (SequentialReplayMemory.init 4 10 2)
      [SequentialReplayMemory.Add Examples.seven_steps] = Ok s /\
    SequentialReplayMemory.get (fun k => k) (fun e => S e) s 3
    = SequentialReplayMemory.Passed (Ok (SequentialReplayMemory.arrays rows)) /\
    SequentialReplayMemory.get_batch_first (fun k => k) (fun e => S e) s 3
    = SequentialReplayMemory.Passed (Ok (SequentialReplayMemory.arrays rows')) /\
    length rows = 2%nat /\ length rows' = 3%nat.
Proof.
  eexists.
  match goal with
  | |- exists rows rows', ?r = Ok ?a /\ _ =>
      assert (r = Ok a) as Hrun by (vm_compute; reflexivity)
  end.
  destruct (initialized_allows_sampling 4 10 2
              [SequentialReplayMemory.Add Examples.seven_steps] _
              (fun k => k) (fun e => S e) 3 Hrun
              ltac:(vm_compute; reflexivity) ltac:(lia))
    as (rows & rows' & Hget & Hlen & _ & Hget' & Hlen' & _).
  exists rows, rows'. split; [exact Hrun|]. split; [exact Hget|].
  split; [exact Hget'|]. split; [exact Hlen|exact Hlen'].
Defined.

(** ** SumTree: a positive sample value reaches a positive leaf *)

Section PositiveLeaf.
Variable n : Z.
Variable tree : list Qc.
Hypothesis Hlen : length tree = Z.to_nat (2 * n - 1).
Hypothesis Hok : SumTree.nodes_ok n tree.
Hypothesis Hties : forall i l r,
  (0 <= i < n - 1)%Z ->
  tree !! Z.to_nat (2 * i + 1) = Some l ->
  tree !! Z.to_nat (2 * i + 2) = Some r ->
  l = r -> l = Qc_of_Z 0.

(** On the way down the sample value stays positive and at most the value
    of the node it has reached. *)
Lemma retrieve_positive (fuel : nat) : forall (rng : nat -> bool) (x v : Qc) i,
  (0 <= i < 2 * n - 1)%Z ->
  (Z.to_nat (2 * n - 1 - i) <= fuel)%nat ->
  tree !! Z.to_nat i = Some v ->
  (0 < x)%Qc -> (x <= v)%Qc ->
  exists j w,
    SumTree._retrieve fuel rng tree x i = Ok j /\
    SumTree.leaf_index n j /\
    tree !! Z.to_nat j = Some w /\ (0 < w)%Qc.
Proof using Hlen Hok Hties.
  induction fuel as [|fuel IH]; intros rng x v i Hi Hfuel Hv Hx Hxv; [lia|].
  simpl. rewrite Hlen.
  destruct (Z.leb_spec (Z.of_nat (Z.to_nat (2 * n - 1))) (2 * i + 1))
    as [Hleaf|Hint].
  - exists i, v. split; [done|]. split; [unfold SumTree.leaf_index; lia|].
    split; [done|]. by apply (Qclt_le_trans _ x).
  - destruct (Hok i ltac:(lia)) as (v' & l & r & Hv' & Hl & Hr & Hsum).
    rewrite Hv in Hv'. injection Hv' as <-.
    replace (2 * i + 1 + 1)%Z with (2 * i + 2)%Z by lia.
    rewrite (getitem_lookup tree (2 * i + 1) l) by (lia || done).
    rewrite (getitem_lookup tree (2 * i + 2) r) by (lia || done).
    cbn [Py.bind]. change (nadd l r) with (l + r)%Qc in Hsum.
    change (neqb l r) with (Qc_eq_bool l r).
    destruct (Qc_eq_bool l r) eqn:Htie.
    + apply Qc_eq_bool_correct in Htie.
      pose proof (Hties i l r ltac:(lia) Hl Hr Htie) as Hzero.
      subst r. rewrite Hzero in Hsum. rewrite Hsum in Hxv.
      exfalso. apply (Qclt_not_le _ _ Hx). exact Hxv.
    + change (nleb x l) with (Qc_leb x l).
      destruct (Qc_leb x l) eqn:Hle.
      * apply Qc_leb_le in Hle.
        apply (IH rng x l (2 * i + 1)%Z); try done; lia.
      * assert (l < x)%Qc as Hlt.
        { apply Qcnot_le_lt. intros Hle'. apply Qc_leb_le in Hle'.
          congruence. }
        change (nsub x l) with (x - l)%Qc.
        apply (IH rng (x - l)%Qc r (2 * i + 2)%Z); try done; try lia.
        -- unfold Qcminus. exact (proj1 (Qclt_minus_iff l x) Hlt).
        -- apply (proj2 (Qcle_minus_iff (x - l) r)).
           apply (proj1 (Qcle_minus_iff x v)) in Hxv.
           replace (r + - (x - l))%Qc with (v + - x)%Qc; [done|].
           rewrite Hsum. ring.
Qed.

End PositiveLeaf.

(** X15: in exact arithmetic, on a SumTree with max_size >= 2 reached by any
    sequence of add and update calls (updates on leaf indices) in which no
    two sibling nodes hold the same non-zero value, get(x) with
    0 < x <= total_p returns, whatever the random draws, a leaf whose
    priority is positive: a leaf of priority zero (unwritten, or updated to
    zero) is never sampled. *)
Theorem get_positive_priority {D : Type} (max_size : Z)
    (calls : list (@SumTree.call Qc D)) (fuel : nat)
    (s0 s : SumTree.t Qc D) (rng : nat -> bool) (x total : Qc) :
  (2 <= max_size)%Z ->
  Forall (SumTree.valid_call max_size) calls ->
  (Z.to_nat (2 * max_size - 1) <= fuel)%nat ->
  SumTree.init max_size = Ok s0 ->
  SumTree.run fuel s0 calls = Ok s ->
  SumTree.total_p s = Ok total ->
  (forall i l r,
     (0 <= i < max_size - 1)%Z ->
     SumTree._tree s !! Z.to_nat (2 * i + 1) = Some l ->
     SumTree._tree s !! Z.to_nat (2 * i + 2) = Some r ->
     l = r -> l = Qc_of_Z 0) ->
  (0 < x)%Qc -> (x <= total)%Qc ->
  exists j v d,
    SumTree.get fuel rng s x = Ok (j, v, d) /\
    SumTree.leaf_index max_size j /\
    SumTree._tree s !! Z.to_nat j = Some v /\
    (0 < v)%Qc.
Proof.
  intros Hn Hvalid Hfuel Hinit Hrun Htotal Hties Hx Hxt.
  destruct (run_sums (D:=D) max_size fuel calls Hn Hfuel Hvalid)
    as (s0' & s' & Hinit' & Hrun' & Hwf & Hok & _).
  rewrite Hinit in Hinit'. injection Hinit' as <-.
  rewrite Hrun in Hrun'. injection Hrun' as <-.
  pose proof Hwf as (Hmax & Hlen & Hdata & Hidx).
  unfold SumTree.total_p in Htotal.
  destruct (getitem_nonneg (SumTree._tree s) 0 ltac:(lia))
    as (root & Hroot & Hget).
  rewrite Hget in Htotal. injection Htotal as ->.
  destruct (retrieve_positive max_size (SumTree._tree s) Hlen Hok Hties fuel
              rng x total 0 ltac:(lia) ltac:(lia) Hroot Hx Hxt)
    as (j & w & Hret & Hleaf & Hw & Hpos).
  destruct (get_returns fuel rng s x max_size Hwf ltac:(lia) Hfuel)
    as (j' & v & d & Hget' & _ & Hv & _).
  unfold SumTree.get in Hget'. rewrite Hret in Hget'. cbn [Py.bind] in Hget'.
  assert (j' = j) as ->.
  { destruct (getitem (SumTree._tree s) j) as [v'| |]; try discriminate.
    cbn [Py.bind] in Hget'.
    destruct (getitem (SumTree._data s) (j - SumTree._max_size s + 1))
      as [d'| |]; try discriminate.
    cbn [Py.bind] in Hget'. by injection Hget' as <- _ _. }
  exists j, v, d. split.
  { unfold SumTree.get. by rewrite Hret. }
  split; [done|]. split; [done|]. congruence.
Qed.

Lemma get_positive_priority_witness :
  exists s0 s d,
    Examples.exact_tree 2 = Ok s0 /\
    SumTree.run 3 s0 Examples.exact_calls = Ok s /\
    SumTree._tree s !! 1%nat = Some (Qc_of_Z 0) /\
    SumTree.get 3 (fun _ => false) s (Q2Qc (1 # 4))
      = Ok (2%Z, Q2Qc (1 # 2), d).
Proof.
  do 2 eexists.
  match goal with
  | |- exists d, ?i = Ok ?a /\ ?r = Ok ?b /\ _ =>
      assert (i = Ok a) as Hinit by reflexivity;
      assert (r = Ok b) as Hrun by (vm_compute; reflexivity)
  end.
  match type of Hrun with
  | SumTree.run _ ?a _ = Ok ?b => set (s0 := a) in *; set (s := b) in *
  end.
  destruct (get_positive_priority 2 Examples.exact_calls 3 s0 s
              (fun _ => false) (Q2Qc (1 # 4)) (Q2Qc (1 # 2)))
    as (j & v & d & Hget & _).
  - lia.
  - repeat constructor; unfold SumTree.leaf_index; lia.
  - simpl. lia.
  - exact Hinit.
  - exact Hrun.
  - vm_compute. reflexivity.
  - intros i l r Hi Hl _ _. assert (i = 0%Z) as -> by lia.
    vm_compute in Hl. by injection Hl as <-.
  - reflexivity.
  - by vm_compute.
  - exists d. split; [exact Hinit|]. split; [exact Hrun|].
    split; [vm_compute; reflexivity|].
    rewrite Hget. vm_compute in Hget. injection Hget as <- <- _.
    reflexivity.
Defined.

(** ** PrioritizedReplayMemory: the priorities an update writes *)

Section UpdateLeaves.
Context {V D : Type} `{Num V}.
Variable n : Z.
Variable fuel : nat.
Hypothesis Hn : (2 <= n)%Z.
Hypothesis Hfuel : (Z.to_nat (2 * n - 1) <= fuel)%nat.

(** With distinct leaf indices every pair of the loop is still in place at
    the end, and the leaves not named keep their value. *)
Lemma update_loop_leaves : forall (ips : list (Z * V)) (tree : list V),
  length tree = Z.to_nat (2 * n - 1) ->
  Forall (fun ip => SumTree.leaf_index n ip.1) ips ->
  NoDup ips.*1 ->
  exists tree',
    SumTree.update_loop fuel tree ips = Ok tree' /\
    length tree' = length tree /\
    Forall (fun ip => tree' !! Z.to_nat ip.1 = Some ip.2) ips /\
    forall k, SumTree.leaf_index n k -> k ∉ ips.*1 ->
      tree' !! Z.to_nat k = tree !! Z.to_nat k.
Proof using Hn Hfuel.
  induction ips as [|[i p] ips IH]; intros tree Hlen Hleaves Hdup.
  - exists tree. by repeat split.
  - inversion Hleaves as [|? ? Hi Hleaves']; subst. simpl in Hi.
    apply NoDup_cons in Hdup as [Hfresh Hdup]. fold (fmap fst ips) in *.
    pose proof Hi as Hi'. unfold SumTree.leaf_index in Hi'.
    destruct (update1_returns fuel tree i p ltac:(lia) ltac:(lia))
      as (old & tree1 & _ & Hup & _ & Hlen1 & Hset & _).
    destruct (IH tree1 ltac:(congruence) Hleaves' Hdup)
      as (tree' & Hrun & Hlen' & Hpairs & Hothers).
    exists tree'. simpl. rewrite Hup. cbn [Py.bind].
    split; [done|]. split; [congruence|]. split.
    + constructor; [|done]. simpl. by rewrite (Hothers i Hi Hfresh).
    + intros k Hk Hnot. apply not_elem_of_cons in Hnot as [Hne Hnot].
      rewrite (Hothers k Hk Hnot).
      by apply (update1_keeps_other_leaves n fuel Hn Hfuel tree i p tree1 k).
Qed.

End UpdateLeaves.

Lemma fst_combine {A B : Type} : forall (l : list A) (k : list B),
  length k = length l -> (combine l k).*1 = l.
Proof.
  induction l as [|a l IH]; intros [|b k] Hlen; simpl in *; try done.
  by rewrite IH by lia.
Qed.

(** X16: update(error, idx) on a PrioritizedReplayMemory with max_size >= 2
    reached by any sequence of add and update calls, in any arithmetic, with
    distinct leaf indices and as many errors: the call returns, the leaf of
    every index then holds (|error| + epsilon) ** alpha for its error, every
    leaf not named keeps its priority, and no stored element changes. *)
Theorem update_writes_priorities {V D : Type} `{Num V}
    (initial_size max_size : Z) (alpha beta epsilon : V)
    (power : V -> V -> V) (fuel : nat)
    (calls : list (@PrioritizedReplayMemory.call V D))
    (s0 s : PrioritizedReplayMemory.t V D)
    (error : list V) (idx : list Z) :
  (2 <= max_size)%Z ->
  (Z.to_nat (2 * max_size - 1) <= fuel)%nat ->
  Forall (PrioritizedReplayMemory.valid_call max_size) calls ->
  PrioritizedReplayMemory.init initial_size max_size alpha beta epsilon
    = Ok s0 ->
  PrioritizedReplayMemory.run fuel power s0 calls = Ok s ->
  Forall (SumTree.leaf_index max_size) idx ->
  NoDup idx ->
  length error = length idx ->
  exists s',
    PrioritizedReplayMemory.update fuel power s error idx = Ok s' /\
    Forall2 (fun i e =>
               SumTree._tree (PrioritizedReplayMemory._tree s') !! Z.to_nat i
               = Some (power (nadd (nabs e) epsilon) alpha))
      idx error /\
    (forall k, SumTree.leaf_index max_size k -> k ∉ idx ->
       SumTree._tree (PrioritizedReplayMemory._tree s') !! Z.to_nat k
       = SumTree._tree (PrioritizedReplayMemory._tree s) !! Z.to_nat k) /\
    SumTree._data (PrioritizedReplayMemory._tree s')
    = SumTree._data (PrioritizedReplayMemory._tree s).
Proof.
  intros Hn Hfuel Hvalid Hinit Hrun Hleaves Hdup Hlen.
  destruct (prioritized_run_stores initial_size max_size alpha beta epsilon
              power fuel calls Hn Hfuel Hvalid)
    as (s0' & s' & q & Hinit' & Hrun' & Hstores & _ & Halpha & _ & Hepsilon).
  rewrite Hinit in Hinit'.
  apply (f_equal (fun r => match r with Ok a => a | _ => s0 end)) in Hinit'.
  simpl in Hinit'. subst s0'.
  rewrite Hrun in Hrun'.
  apply (f_equal (fun r => match r with Ok a => a | _ => s end)) in Hrun'.
  simpl in Hrun'. subst s'.
  destruct Hstores as ((_ & Hltree & _) & _).
  set (ps := map (PrioritizedReplayMemory._get_priority power s) error).
  assert (length ps = length idx) as Hlps
    by (unfold ps; by rewrite length_map).
  destruct (update_loop_leaves max_size fuel Hn Hfuel (combine idx ps)
              (SumTree._tree (PrioritizedReplayMemory._tree s)) Hltree)
    as (tree' & Hup & _ & Hpairs & Hothers).
  { by apply Forall_combine_fst. }
  { by rewrite fst_combine. }
  rewrite fst_combine in Hothers by done.
  exists (PrioritizedReplayMemory.with_tree s
            (SumTree.with_tree (PrioritizedReplayMemory._tree s) tree')).
  split.
  { unfold PrioritizedReplayMemory.update, SumTree.update. fold ps.
    by rewrite Hup. }
  split; [|done]. simpl.
  clear Hup Hothers Hleaves Hdup. unfold ps in *. clear ps.
  revert error Hlen Hlps Hpairs.
  induction idx as [|i idx' IH]; intros [|e error] Hlen Hlps Hpairs;
    simpl in *; try lia; [constructor|].
  apply Forall_cons in Hpairs as [Hi Hpairs']. simpl in Hi.
  constructor.
  - rewrite Hi. unfold PrioritizedReplayMemory._get_priority.
    by rewrite Halpha, Hepsilon.
  - apply IH; try done; lia.
Qed.

Lemma update_writes_priorities_witness :
  exists s0 s s',
    PrioritizedReplayMemory.init 0 2 1%float 1%float 0x1p-7%float = Ok s0 /\
    PrioritizedReplayMemory.run 3 Examples.reciprocal s0
      Examples.prioritized_calls = Ok s /\
    PrioritizedReplayMemory.update 3 Examples.reciprocal s [3%float] [2%Z]
      = Ok s' /\
    SumTree._tree (PrioritizedReplayMemory._tree s') !! 2%nat
      = Some (Examples.reciprocal (3 + 0x1p-7)%float 1%float) /\
    SumTree._tree (PrioritizedReplayMemory._tree s') !! 1%nat
      = SumTree._tree (PrioritizedReplayMemory._tree s) !! 1%nat.
Proof.
  do 2 eexists.
  match goal with
  | |- exists s', ?i = Ok ?a /\ ?r = Ok ?b /\ _ =>
      assert (i = Ok a) as Hinit by (vm_compute; reflexivity);
      assert (r = Ok b) as Hrun by (vm_compute; reflexivity)
  end.
  destruct (update_writes_priorities 0 2 1%float 1%float 0x1p-7%float
              Examples.reciprocal 3 Examples.prioritized_calls _ _
              [3%float] [2%Z] ltac:(lia) ltac:(simpl; lia)
              ltac:(repeat constructor; unfold SumTree.leaf_index; lia)
              Hinit Hrun
              ltac:(repeat constructor; unfold SumTree.leaf_index; lia)
              ltac:(apply NoDup_singleton) ltac:(reflexivity))
    as (s' & Hup & Hset & Hothers & _).
  exists s'. split; [exact Hinit|]. split; [exact Hrun|].
  split; [exact Hup|]. split.
  - inversion Hset as [|? ? ? ? Hleaf _]; subst. exact Hleaf.
  - apply (Hothers 1%Z); [unfold SumTree.leaf_index; lia|].
    intros Hin. apply list_elem_of_singleton in Hin. lia.
Defined.
